(** * agent-toolkit, filesystem package

    A shallow embedding of
      - [packages/filesystem/src/core/glob.ts] ([glob], [collectFiles],
        [globToRegex]),
      - [packages/filesystem/src/core/grep.ts] ([grep], [buildRipgrepArgs],
        [executeRipgrep], [parseRipgrepOutput] and its three parsers),
      - [packages/filesystem/src/core/read.ts] ([isPathSafe], [read]),
        [edit.ts] ([edit]), [write.ts] ([validatePath], [write]) and
        [list.ts] ([list]),
      - the tools of [packages/filesystem/src/sdks/langchain/filesystem.ts]
        that wrap [glob] and [grep],
    with the parts of the JavaScript runtime and of Node's [path] module
    (POSIX flavour) that these files call.

    JavaScript strings are sequences of UTF-16 code units; they are modelled
    as lists of [N].  "Character" below always means one code unit. *)

From Stdlib Require Import Strings.String Strings.Ascii.
From Stdlib Require Import List NArith ZArith Bool Lia Sorted Permutation.
Import ListNotations.
Local Open Scope list_scope.

Set Implicit Arguments.

(* ================================================================== *)
(** ** JavaScript strings *)
(* ================================================================== *)

Definition jsstring := list N.

(** One code unit, written as an ASCII character. *)
Definition ch (a : ascii) : N := N_of_ascii a.
Arguments ch a%_char.

(** A string literal. *)
Definition str (s : string) : jsstring := map N_of_ascii (list_ascii_of_string s).
Arguments str s%_string.

Definition jsstring_eq_dec : forall a b : jsstring, {a = b} + {a <> b} :=
  list_eq_dec N.eq_dec.

Definition str_eqb (a b : jsstring) : bool :=
  if jsstring_eq_dec a b then true else false.

(** [s.length === 0] is how JavaScript decides that a string is falsy. *)
Definition truthy (s : jsstring) : bool :=
  match s with [] => false | _ :: _ => true end.

(** [a.startsWith(b)] *)
Fixpoint startsWith (a b : jsstring) : bool :=
  match b, a with
  | [], _ => true
  | _ :: _, [] => false
  | y :: b', x :: a' => N.eqb x y && startsWith a' b'
  end.

(** [s.split(sep)] for a separator of one code unit. *)
Fixpoint split (sep : N) (s : jsstring) : list jsstring :=
  match s with
  | [] => [[]]
  | c :: s' =>
      if N.eqb c sep then [] :: split sep s'
      else match split sep s' with
           | [] => [[c]]
           | w :: ws => (c :: w) :: ws
           end
  end.

(** [parts.join(sep)] *)
Fixpoint join (sep : jsstring) (parts : list jsstring) : jsstring :=
  match parts with
  | [] => []
  | [p] => p
  | p :: ps => p ++ sep ++ join sep ps
  end.

(** ECMAScript LineTerminator: LF, CR, LS, PS. *)
Definition is_line_terminator (c : N) : bool :=
  N.eqb c 10 || N.eqb c 13 || N.eqb c 8232 || N.eqb c 8233.

(** ECMAScript WhiteSpace and LineTerminator, the set that [trim],
    [trimEnd] and [parseInt] strip. *)
Definition is_whitespace (c : N) : bool :=
  N.eqb c 9 || N.eqb c 11 || N.eqb c 12 || N.eqb c 32 || N.eqb c 160
  || N.eqb c 5760 || (N.leb 8192 c && N.leb c 8202) || N.eqb c 8239
  || N.eqb c 8287 || N.eqb c 12288 || N.eqb c 65279
  || is_line_terminator c.

(** [s.trimStart()] *)
Fixpoint trimStart (s : jsstring) : jsstring :=
  match s with
  | c :: s' => if is_whitespace c then trimStart s' else s
  | [] => []
  end.

(** [s.trimEnd()] *)
Fixpoint trimEnd (s : jsstring) : jsstring :=
  match s with
  | [] => []
  | c :: s' =>
      match trimEnd s' with
      | [] => if is_whitespace c then [] else [c]
      | t => c :: t
      end
  end.

(** [s.trim()] *)
Definition trim (s : jsstring) : jsstring := trimEnd (trimStart s).

(** [String(n)] for an integer [n]. *)
Definition digit_char (d : N) : N := (48 + d)%N.

Fixpoint show_pos_fuel (fuel : nat) (n : N) (acc : jsstring) : jsstring :=
  match fuel with
  | O => acc
  | S fuel' =>
      let acc' := digit_char (n mod 10) :: acc in
      if N.ltb n 10 then acc' else show_pos_fuel fuel' (n / 10) acc'
  end.

Definition show_N (n : N) : jsstring := show_pos_fuel (S (N.to_nat (N.log2 n))) n [].

Definition show_Z (z : Z) : jsstring :=
  match z with
  | Zneg p => ch "-" :: show_N (Npos p)
  | _ => show_N (Z.to_N z)
  end.

(* ================================================================== *)
(** ** The fragment of ECMAScript regular expressions used by [globToRegex] *)
(* ================================================================== *)

Module RegExp.

(** Abstract syntax.  Quantifiers only ever apply to one-character atoms,
    and the only group is a non-capturing optional group of such atoms. *)
Inductive atom : Type :=
| Lit (c : N)        (* [c], or the identity escape [\c] *)
| AnyChar            (* [.]     : any code unit but a line terminator *)
| NotSlash.          (* [[^/]]  : any code unit but [/] *)

Inductive quant : Type := Once | Star.

Inductive term : Type :=
| Atom (a : atom) (q : quant)
| OptGroup (body : list (atom * quant)).   (* [(?: body )?] *)

Definition regex := list term.

(** Lexical level. *)
Inductive token : Type :=
| TChar (c : N)
| TDot
| TClassNotSlash
| TStar
| TQuestion
| TOpen          (* [(?:] *)
| TClose
| TCaret
| TDollar.

(** ECMAScript SyntaxCharacter. *)
Definition syntax_char (c : N) : bool :=
  existsb (N.eqb c) (str "^$\.*+?()[]{}|").

(** Source text to tokens; [None] when the text leaves the fragment. *)
Fixpoint tokenize (s : jsstring) : option (list token) :=
  match s with
  | [] => Some []
  | c :: s1 =>
      if N.eqb c (ch "\") then
        match s1 with
        | d :: s2 => if syntax_char d then option_map (cons (TChar d)) (tokenize s2) else None
        | [] => None
        end
      else if N.eqb c (ch ".") then option_map (cons TDot) (tokenize s1)
      else if N.eqb c (ch "*") then option_map (cons TStar) (tokenize s1)
      else if N.eqb c (ch "?") then option_map (cons TQuestion) (tokenize s1)
      else if N.eqb c (ch "^") then option_map (cons TCaret) (tokenize s1)
      else if N.eqb c (ch "$") then option_map (cons TDollar) (tokenize s1)
      else if N.eqb c (ch ")") then option_map (cons TClose) (tokenize s1)
      else if N.eqb c (ch "(") then
        match s1 with
        | a :: b :: s3 =>
            if N.eqb a (ch "?") && N.eqb b (ch ":")
            then option_map (cons TOpen) (tokenize s3) else None
        | _ => None
        end
      else if N.eqb c (ch "[") then
        match s1 with
        | a :: b :: d :: s4 =>
            if N.eqb a (ch "^") && N.eqb b (ch "/") && N.eqb d (ch "]")
            then option_map (cons TClassNotSlash) (tokenize s4) else None
        | _ => None
        end
      else if syntax_char c then None
      else option_map (cons (TChar c)) (tokenize s1)
  end.

Definition atom_of (t : token) : option atom :=
  match t with
  | TChar c => Some (Lit c)
  | TDot => Some AnyChar
  | TClassNotSlash => Some NotSlash
  | _ => None
  end.

Definition is_quantifier (t : token) : bool :=
  match t with TStar | TQuestion => true | _ => false end.

Definition starts_with_quantifier (ts : list token) : bool :=
  match ts with t :: _ => is_quantifier t | [] => false end.

(** Tokens to terms.  [grp] is the body, in reverse, of the group being
    read, if any.  Lazy quantifiers, nested groups, groups that are not
    optional and stray anchors are outside the fragment. *)
Fixpoint parse_terms (grp : option (list (atom * quant))) (ts : list token)
  : option regex :=
  match ts with
  | [] => match grp with None => Some [] | Some _ => None end
  | t :: ts1 =>
      match atom_of t with
      | Some a =>
          match ts1 with
          | TStar :: ts2 =>
              if starts_with_quantifier ts2 then None
              else match grp with
                   | None => option_map (cons (Atom a Star)) (parse_terms None ts2)
                   | Some body => parse_terms (Some ((a, Star) :: body)) ts2
                   end
          | TQuestion :: _ => None
          | _ =>
              match grp with
              | None => option_map (cons (Atom a Once)) (parse_terms None ts1)
              | Some body => parse_terms (Some ((a, Once) :: body)) ts1
              end
          end
      | None =>
          match t with
          | TOpen =>
              match grp with
              | None => parse_terms (Some []) ts1
              | Some _ => None
              end
          | TClose =>
              match grp, ts1 with
              | Some body, TQuestion :: ts2 =>
                  if starts_with_quantifier ts2 then None
                  else option_map (cons (OptGroup (rev body))) (parse_terms None ts2)
              | _, _ => None
              end
          | _ => None
          end
      end
  end.

(** [new RegExp(source)] for a source of the shape [^ body $]. *)
Definition compile (source : jsstring) : option regex :=
  match tokenize source with
  | Some (TCaret :: ts) =>
      match rev ts with
      | TDollar :: rbody => parse_terms None (rev rbody)
      | _ => None
      end
  | _ => None
  end.

(** Matching. *)
Definition atom_accepts (a : atom) (c : N) : bool :=
  match a with
  | Lit d => N.eqb c d
  | AnyChar => negb (is_line_terminator c)
  | NotSlash => negb (N.eqb c (ch "/"))
  end.

(** Zero or more characters accepted by [a], then the continuation. *)
Fixpoint match_star (a : atom) (k : jsstring -> bool) (s : jsstring) : bool :=
  k s ||
  match s with
  | c :: s' => atom_accepts a c && match_star a k s'
  | [] => false
  end.

Definition match_quantified (aq : atom * quant) (k : jsstring -> bool) (s : jsstring) : bool :=
  match snd aq with
  | Once => match s with c :: s' => atom_accepts (fst aq) c && k s' | [] => false end
  | Star => match_star (fst aq) k s
  end.

Fixpoint match_body (body : list (atom * quant)) (k : jsstring -> bool) (s : jsstring) : bool :=
  match body with
  | [] => k s
  | aq :: body' => match_quantified aq (match_body body' k) s
  end.

(** The whole remaining input must be consumed: the pattern ends in [$]. *)
Fixpoint match_terms (r : regex) (s : jsstring) : bool :=
  match r with
  | [] => match s with [] => true | _ => false end
  | Atom a q :: r' => match_quantified (a, q) (match_terms r') s
  | OptGroup body :: r' => match_body body (match_terms r') s || match_terms r' s
  end.

(** [regex.test(s)] for a regex compiled from [^ body $] without flags:
    the match has to start at index 0 and end at the end of [s]. *)
Definition test (r : regex) (s : jsstring) : bool := match_terms r s.

End RegExp.

(* ================================================================== *)
(** ** glob.ts: [globToRegex] *)
(* ================================================================== *)

(** [path.sep] on POSIX. *)
Definition path_sep : N := ch "/".

(** The character class [/[.+^${}()|[\]\\]/] of the escaping branch. *)
Definition regex_special (c : N) : bool :=
  existsb (N.eqb c) (str ".+^${}()|[\]").

(** The loop of [globToRegex]: one pass over the pattern with up to two
    characters of lookahead, appending to [regexPattern]. *)
Fixpoint globToRegex_loop (pattern : jsstring) : jsstring :=
  match pattern with
  | [] => []
  | c :: p1 =>
      if N.eqb c (ch "*") then
        match p1 with
        | c1 :: p2 =>
            if N.eqb c1 (ch "*") then
              match p2 with
              | c2 :: p3 =>
                  if N.eqb c2 (ch "/")
                  then str "(?:.*/)?" ++ globToRegex_loop p3
                  else str ".*" ++ globToRegex_loop p2
              | [] => str ".*" ++ globToRegex_loop p2
              end
            else str "[^/]*" ++ globToRegex_loop p1
        | [] => str "[^/]*" ++ globToRegex_loop p1
        end
      else if N.eqb c (ch "?") then str "[^/]" ++ globToRegex_loop p1
      else if regex_special c then ch "\" :: c :: globToRegex_loop p1
      else c :: globToRegex_loop p1
  end.

(** The source text handed to [new RegExp]. *)
Definition globToRegex_source (pattern : jsstring) : jsstring :=
  let pattern := join (str "/") (split path_sep pattern) in
  str "^" ++ globToRegex_loop pattern ++ str "$".

Definition globToRegex (pattern : jsstring) : option RegExp.regex :=
  RegExp.compile (globToRegex_source pattern).

(** [globToRegex(pattern).test(path)]; [None] would mean that the source
    text left the modelled fragment (it never does, see
    [globToRegex_compiles]). *)
Definition glob_test (pattern path : jsstring) : option bool :=
  option_map (fun r => RegExp.test r path) (globToRegex pattern).

(* ================================================================== *)
(** ** The glob grammar, as the specification words it *)
(* ================================================================== *)

(** Tokens of the grammar table. *)
Inductive glob_token : Type :=
| GStar               (* [*]   *)
| GGlobstarSlash      (* [**/] *)
| GGlobstar           (* [**] not followed by [/] *)
| GQuestion           (* [?]   *)
| GChar (c : N).      (* any other character *)

(** Left-to-right scan, single pass, greedy on lookahead. *)
Fixpoint glob_tokens (pattern : jsstring) : list glob_token :=
  match pattern with
  | [] => []
  | c :: p1 =>
      if N.eqb c (ch "*") then
        match p1 with
        | c1 :: p2 =>
            if N.eqb c1 (ch "*") then
              match p2 with
              | c2 :: p3 =>
                  if N.eqb c2 (ch "/") then GGlobstarSlash :: glob_tokens p3
                  else GGlobstar :: glob_tokens p2
              | [] => GGlobstar :: glob_tokens p2
              end
            else GStar :: glob_tokens p1
        | [] => GStar :: glob_tokens p1
        end
      else if N.eqb c (ch "?") then GQuestion :: glob_tokens p1
      else GChar c :: glob_tokens p1
  end.

Definition no_slash (s : jsstring) : Prop := Forall (fun c => c <> ch "/") s.

(** A complete path segment: a run without [/], then [/]. *)
Definition segment (wild : N -> bool) (s : jsstring) : Prop :=
  exists run, s = run ++ [ch "/"] /\ no_slash run /\ Forall (fun c => wild c = true) run.

(** [generates wild ts path]: [path] is produced by the token list [ts].
    [wild] says which characters the two [**] forms may stand for; the
    grammar table puts no restriction on them. *)
Inductive generates (wild : N -> bool) : list glob_token -> jsstring -> Prop :=
| gen_nil : generates wild [] []
| gen_star : forall run ts rest,
    no_slash run -> generates wild ts rest ->
    generates wild (GStar :: ts) (run ++ rest)
| gen_globstar_slash : forall segs ts rest,
    Forall (segment wild) segs -> generates wild ts rest ->
    generates wild (GGlobstarSlash :: ts) (concat segs ++ rest)
| gen_globstar : forall run ts rest,
    Forall (fun c => wild c = true) run -> generates wild ts rest ->
    generates wild (GGlobstar :: ts) (run ++ rest)
| gen_question : forall c ts rest,
    c <> ch "/" -> generates wild ts rest ->
    generates wild (GQuestion :: ts) (c :: rest)
| gen_char : forall c ts rest,
    generates wild ts rest ->
    generates wild (GChar c :: ts) (c :: rest).

(** What the two [**] forms stand for in the grammar table: any
    character. *)
Definition wild_in_grammar (c : N) : bool := true.

(** What they stand for in the compiled expression: [.] does not match
    a line terminator. *)
Definition wild_in_code (c : N) : bool := negb (is_line_terminator c).

(** The grammar of the table, on the pattern with its separators
    normalized to [/]. *)
Definition glob_grammar (pattern path : jsstring) : Prop :=
  generates wild_in_grammar (glob_tokens (join (str "/") (split path_sep pattern))) path.

(** What each token becomes in the regular expression. *)
Definition term_of (t : glob_token) : RegExp.term :=
  match t with
  | GStar => RegExp.Atom RegExp.NotSlash RegExp.Star
  | GGlobstarSlash =>
      RegExp.OptGroup [(RegExp.AnyChar, RegExp.Star); (RegExp.Lit (ch "/"), RegExp.Once)]
  | GGlobstar => RegExp.Atom RegExp.AnyChar RegExp.Star
  | GQuestion => RegExp.Atom RegExp.NotSlash RegExp.Once
  | GChar c => RegExp.Atom (RegExp.Lit c) RegExp.Once
  end.

Definition tokens_of (t : glob_token) : list RegExp.token :=
  match t with
  | GStar => [RegExp.TClassNotSlash; RegExp.TStar]
  | GGlobstarSlash =>
      [RegExp.TOpen; RegExp.TDot; RegExp.TStar; RegExp.TChar (ch "/");
       RegExp.TClose; RegExp.TQuestion]
  | GGlobstar => [RegExp.TDot; RegExp.TStar]
  | GQuestion => [RegExp.TClassNotSlash]
  | GChar c => [RegExp.TChar c]
  end.

(* ================================================================== *)
(** ** Node's [path] module, POSIX flavour *)
(* ================================================================== *)

Module Path.

Definition slash : jsstring := str "/".
Definition dot : jsstring := str ".".
Definition dotdot : jsstring := str "..".

(** The segment stack of [normalizeString]: empty and [.] segments are
    dropped, [..] removes the segment before it, or is kept (relative
    paths, [allowAboveRoot]) or dropped (absolute paths) when there is
    none.  [stack] holds the segments kept so far, last first. *)
Fixpoint normalize_segments (allowAboveRoot : bool) (stack segs : list jsstring)
  : list jsstring :=
  match segs with
  | [] => rev stack
  | s :: segs' =>
      if str_eqb s [] || str_eqb s dot then
        normalize_segments allowAboveRoot stack segs'
      else if str_eqb s dotdot then
        match stack with
        | top :: stack' =>
            if str_eqb top dotdot then
              normalize_segments allowAboveRoot
                (if allowAboveRoot then dotdot :: stack else stack) segs'
            else normalize_segments allowAboveRoot stack' segs'
        | [] =>
            normalize_segments allowAboveRoot
              (if allowAboveRoot then [dotdot] else []) segs'
        end
      else normalize_segments allowAboveRoot (s :: stack) segs'
  end.

Definition normalizeString (path : jsstring) (allowAboveRoot : bool) : jsstring :=
  join slash (normalize_segments allowAboveRoot [] (split (ch "/") path)).

Definition isAbsolute (path : jsstring) : bool :=
  match path with c :: _ => N.eqb c (ch "/") | [] => false end.

Definition has_trailing_slash (path : jsstring) : bool :=
  match rev path with c :: _ => N.eqb c (ch "/") | [] => false end.

(** [path.normalize(p)] *)
Definition normalize (path : jsstring) : jsstring :=
  match path with
  | [] => dot
  | _ =>
      let absolute := isAbsolute path in
      let trailing := has_trailing_slash path in
      match normalizeString path (negb absolute) with
      | [] => if absolute then slash else if trailing then str "./" else dot
      | p =>
          let p := if trailing then p ++ slash else p in
          if absolute then slash ++ p else p
      end
  end.

(** [path.join(...paths)] (named [join_paths]: [join] is [Array.join]). *)
Definition join_paths (paths : list jsstring) : jsstring :=
  match filter truthy paths with
  | [] => dot
  | parts => normalize (join slash parts)
  end.

(** The right-to-left loop of [path.resolve]; [candidates] are the
    arguments last first, followed by the working directory. *)
Fixpoint resolve_loop (candidates : list jsstring) (resolvedPath : jsstring)
  : jsstring * bool :=
  match candidates with
  | [] => (resolvedPath, false)
  | p :: rest =>
      if truthy p then
        let resolvedPath := p ++ slash ++ resolvedPath in
        if isAbsolute p then (resolvedPath, true) else resolve_loop rest resolvedPath
      else resolve_loop rest resolvedPath
  end.

(** [path.resolve(...paths)] with [process.cwd()] = [cwd], an absolute
    path. *)
Definition resolve (cwd : jsstring) (paths : list jsstring) : jsstring :=
  let (resolvedPath, absolute) := resolve_loop (rev paths ++ [cwd]) [] in
  let p := normalizeString resolvedPath (negb absolute) in
  if absolute then slash ++ p
  else match p with [] => dot | _ => p end.

(** The non-empty segments of a path. *)
Definition segments (path : jsstring) : list jsstring :=
  filter truthy (split (ch "/") path).

Fixpoint strip_common (a b : list jsstring) : list jsstring * list jsstring :=
  match a, b with
  | x :: a', y :: b' => if str_eqb x y then strip_common a' b' else (a, b)
  | _, _ => (a, b)
  end.

(** [path.relative(from, to)]: both are resolved, the common leading
    segments are dropped, every remaining segment of [from] becomes [..],
    and the remaining segments of [to] follow. *)
Definition relative (cwd from to : jsstring) : jsstring :=
  if str_eqb from to then []
  else
    let from := resolve cwd [from] in
    let to := resolve cwd [to] in
    if str_eqb from to then []
    else
      let (up, down) := strip_common (segments from) (segments to) in
      join slash (map (fun _ => dotdot) up ++ down).

End Path.

(* ================================================================== *)
(** ** Results, errors and exceptions *)
(* ================================================================== *)

(** [OperationResult<T>]: the two shapes the code builds. *)
Inductive OperationResult (A : Type) : Type :=
| Success (data : A)                 (* [{ success: true, data }] *)
| Failure (error : jsstring).        (* [{ success: false, error }] *)
Arguments Success {A} data.
Arguments Failure {A} error.

(** A JavaScript [Error]; [code] is the errno name of a system error. *)
Record JsError : Type := mkError { code : option jsstring; message : jsstring }.

Definition Error (msg : jsstring) : JsError := mkError None msg.

(** How a piece of code ends: normally, or by throwing. *)
Inductive completion (A : Type) : Type :=
| Normal (a : A)
| Throw (e : JsError).
Arguments Normal {A} a.
Arguments Throw {A} e.

(** [try { body } catch (error) { handler }] *)
Definition try_catch {A} (body : completion A) (handler : JsError -> completion A)
  : completion A :=
  match body with Normal a => Normal a | Throw e => handler e end.

(* ================================================================== *)
(** ** The file system seen by [fs.stat] and [fs.readdir] *)
(* ================================================================== *)

#[warnings="-register-all"]
Inductive node : Type :=
| File                                              (* a regular file *)
| Other                                             (* socket, fifo, device, ... *)
| Dir (readable : bool) (entries : list (jsstring * node)).

Record FileSystem : Type := mkFS { root : node; cwd : jsstring }.

Fixpoint assoc {A} (k : jsstring) (l : list (jsstring * A)) : option A :=
  match l with
  | [] => None
  | (k', v) :: l' => if str_eqb k' k then Some v else assoc k l'
  end.

Inductive walk_result : Type :=
| Found (n : node)
| ENOENT
| ENOTDIR.

Fixpoint walk (n : node) (segs : list jsstring) : walk_result :=
  match segs with
  | [] => Found n
  | s :: segs' =>
      match n with
      | Dir _ entries =>
          match assoc s entries with
          | Some child => walk child segs'
          | None => ENOENT
          end
      | _ => ENOTDIR
      end
  end.

Definition locate (fs : FileSystem) (path : jsstring) : walk_result :=
  walk (root fs) (Path.segments (Path.resolve (cwd fs) [path])).

Definition system_error (name description syscall path : jsstring) : JsError :=
  mkError (Some name)
    (name ++ str ": " ++ description ++ str ", " ++ syscall ++ str " '" ++ path ++ str "'").

(** [await fs.stat(path)]: the node, or the system error thrown. *)
Definition fs_stat (fs : FileSystem) (path : jsstring) : completion node :=
  match locate fs path with
  | Found n => Normal n
  | ENOENT => Throw (system_error (str "ENOENT") (str "no such file or directory") (str "stat") path)
  | ENOTDIR => Throw (system_error (str "ENOTDIR") (str "not a directory") (str "stat") path)
  end.

Definition isDirectory (n : node) : bool :=
  match n with Dir _ _ => true | _ => false end.

(* ================================================================== *)
(** ** glob.ts: [collectFiles] and [glob] *)
(* ================================================================== *)

(** [collectFiles(dirPath, basePath)], run on the node that [dirPath]
    names.  [readdir] of a directory that cannot be read throws; the
    [catch] logs and the function returns what it has, which is nothing.
    Entries that are neither directories nor regular files are skipped. *)
Fixpoint collectFiles (dirPath : jsstring) (n : node) : list jsstring :=
  match n with
  | Dir true entries =>
      (fix each (es : list (jsstring * node)) : list jsstring :=
         match es with
         | [] => []
         | (name, child) :: es' =>
             let fullPath := Path.join_paths [dirPath; name] in
             match child with
             | Dir _ _ => collectFiles fullPath child
             | File => [fullPath]
             | Other => []
             end ++ each es'
         end) entries
  | _ => []
  end.

(** Comparison of [Array.prototype.sort()] without a comparator: code
    units, left to right. *)
Fixpoint str_leb (a b : jsstring) : bool :=
  match a, b with
  | [], _ => true
  | _ :: _, [] => false
  | x :: a', y :: b' => N.ltb x y || (N.eqb x y && str_leb a' b')
  end.

Fixpoint insert_sorted (x : jsstring) (l : list jsstring) : list jsstring :=
  match l with
  | [] => [x]
  | y :: l' => if str_leb x y then x :: l else y :: insert_sorted x l'
  end.

(** [results.sort()] *)
Definition sort (l : list jsstring) : list jsstring := fold_right insert_sorted [] l.

(** [searchPath || "."] *)
Definition or_dot (searchPath : option jsstring) : jsstring :=
  match searchPath with
  | Some p => if truthy p then p else Path.dot
  | None => Path.dot
  end.

Definition msg_pattern_required : jsstring := str "Pattern is required".
Definition msg_traversal : jsstring :=
  str "Path traversal detected: path must be within workspace".
Definition msg_not_a_directory : jsstring := str "Not a directory: ".
Definition msg_directory_not_found : jsstring := str "Directory not found: ".

(** The security check of [glob]: a test on the two normalized strings. *)
Definition glob_within_workspace (workspace basePath : jsstring) : bool :=
  startsWith (Path.normalize basePath) (Path.normalize workspace).

Definition glob_basePath (workspace : jsstring) (searchPath : option jsstring) : jsstring :=
  match searchPath with
  | Some p => if truthy p then Path.join_paths [workspace; p] else workspace
  | None => workspace
  end.

(** The body of the outer [try] of [glob]. *)
Definition glob_body (fs : FileSystem) (workspace pattern : jsstring)
  (searchPath : option jsstring) : completion (OperationResult (list jsstring)) :=
  if negb (truthy pattern) then Normal (Failure msg_pattern_required)
  else
    let basePath := glob_basePath workspace searchPath in
    if negb (glob_within_workspace workspace basePath) then Normal (Failure msg_traversal)
    else
      match fs_stat fs basePath with
      | Throw error =>
          if match code error with Some c => str_eqb c (str "ENOENT") | None => false end
          then Normal (Failure (msg_directory_not_found ++ or_dot searchPath))
          else Throw error
      | Normal stat =>
          if negb (isDirectory stat)
          then Normal (Failure (msg_not_a_directory ++ or_dot searchPath))
          else
            let allFiles := collectFiles basePath stat in
            match globToRegex pattern with
            | None => Throw (Error (str "Invalid regular expression"))
            | Some regex =>
                let matchedFiles :=
                  filter (fun file =>
                            let relativeToSearch := Path.relative (cwd fs) basePath file in
                            let normalizedPath := join (str "/") (split path_sep relativeToSearch) in
                            RegExp.test regex normalizedPath) allFiles in
                let results := map (Path.relative (cwd fs) workspace) matchedFiles in
                Normal (Success (sort results))
            end
      end.

(** [glob(workspace)(pattern, searchPath)] *)
Definition glob (fs : FileSystem) (workspace pattern : jsstring)
  (searchPath : option jsstring) : completion (OperationResult (list jsstring)) :=
  try_catch (glob_body fs workspace pattern searchPath)
            (fun error => Normal (Failure (message error))).

(* ================================================================== *)
(** ** grep.ts: options and results *)
(* ================================================================== *)

Inductive OutputMode : Type := mode_content | mode_files_with_matches | mode_count.

(** [GrepOptions]; an absent optional field is [None]. *)
Record GrepOptions : Type := mkOptions {
  opt_pattern : jsstring;
  opt_path : option jsstring;
  opt_glob : option jsstring;
  opt_type : option jsstring;
  opt_output_mode : option OutputMode;
  opt_i : option bool;            (* ['-i'] *)
  opt_n : option bool;            (* ['-n'] *)
  opt_B : option Z;               (* ['-B'] *)
  opt_A : option Z;               (* ['-A'] *)
  opt_C : option Z;               (* ['-C'] *)
  opt_head_limit : option Z;
  opt_multiline : option bool
}.

(** [GrepMatch] *)
Record GrepMatch : Type := mkMatch {
  line : Z;
  content : jsstring;
  column : option Z;
  beforeContext : option (list jsstring);
  afterContext : option (list jsstring)
}.

(** [GrepContentResult] *)
Record GrepContentResult : Type := mkContent {
  content_path : jsstring;
  content_matches : list GrepMatch
}.

(** [GrepCountResult] *)
Record GrepCountResult : Type := mkCount {
  count_path : jsstring;
  count_count : Z
}.

(** [GrepResult]: the [mode] tag with its [data]. *)
Inductive GrepResult : Type :=
| ContentResult (data : list GrepContentResult)
| FilesWithMatchesResult (data : list jsstring)
| CountResult (data : list GrepCountResult).

(* ================================================================== *)
(** ** grep.ts: [buildRipgrepArgs] *)
(* ================================================================== *)

Definition is_true (b : option bool) : bool :=
  match b with Some true => true | _ => false end.

Definition flag_with_number (flag : string) (v : option Z) : list jsstring :=
  match v with Some n => [str flag; show_Z n] | None => [] end.

Definition flag_with_string (flag : string) (v : option jsstring) : list jsstring :=
  match v with Some s => if truthy s then [str flag; s] else [] | None => [] end.

Definition buildRipgrepArgs (options : GrepOptions) (outputMode : OutputMode)
  : list jsstring :=
  (match outputMode with mode_content => [str "--json"] | _ => [] end)
  ++ (if is_true (opt_i options) then [str "--ignore-case"] else [])
  ++ (if is_true (opt_multiline options)
      then [str "--multiline"; str "--multiline-dotall"] else [])
  ++ (match opt_C options with
      | Some n => [str "-C"; show_Z n]
      | None => flag_with_number "-B" (opt_B options)
                ++ flag_with_number "-A" (opt_A options)
      end)
  ++ flag_with_string "--glob" (opt_glob options)
  ++ flag_with_string "--type" (opt_type options)
  ++ flag_with_number "--max-count" (opt_head_limit options)
  ++ (match outputMode with
      | mode_files_with_matches => [str "--files-with-matches"]
      | mode_count => [str "--count"]
      | mode_content => []
      end).

(* ================================================================== *)
(** ** grep.ts: [executeRipgrep] *)
(* ================================================================== *)

(** What the child process emits, in order. *)
Inductive ChildEvent : Type :=
| StdoutData (data : jsstring)       (* [rg.stdout.on("data")] *)
| StderrData (data : jsstring)       (* [rg.stderr.on("data")] *)
| Close (exit_code : option Z)       (* [rg.on("close")]; [None] is [null] *)
| SpawnError (error : JsError).      (* [rg.on("error")] *)

Inductive Promise (A : Type) : Type :=
| Pending
| Resolved (a : A)
| Rejected (e : JsError).
Arguments Pending {A}.
Arguments Resolved {A} a.
Arguments Rejected {A} e.

(** [resolve] and [reject] act on a pending promise only. *)
Definition settle {A} (p outcome : Promise A) : Promise A :=
  match p with Pending => outcome | _ => p end.

Record RgState : Type := mkRg {
  stdout : jsstring;
  stderr : jsstring;
  promise : Promise jsstring
}.

Definition msg_not_installed : jsstring :=
  str "ripgrep (rg) is not installed or not in PATH".

Definition show_code (c : option Z) : jsstring :=
  match c with Some n => show_Z n | None => str "null" end.

Definition exit_message (stderr : jsstring) (c : option Z) : jsstring :=
  if truthy stderr then stderr else str "ripgrep exited with code " ++ show_code c.

Definition is_zero_or_one (c : option Z) : bool :=
  match c with Some n => Z.eqb n 0 || Z.eqb n 1 | None => false end.

Definition has_code (name : string) (e : JsError) : bool :=
  match code e with Some c => str_eqb c (str name) | None => false end.

Definition on_event (st : RgState) (ev : ChildEvent) : RgState :=
  match ev with
  | StdoutData data => mkRg (stdout st ++ data) (stderr st) (promise st)
  | StderrData data => mkRg (stdout st) (stderr st ++ data) (promise st)
  | Close c =>
      mkRg (stdout st) (stderr st)
        (settle (promise st)
           (if is_zero_or_one c then Resolved (stdout st)
            else Rejected (Error (exit_message (stderr st) c))))
  | SpawnError error =>
      mkRg (stdout st) (stderr st)
        (settle (promise st)
           (if has_code "ENOENT" error then Rejected (Error msg_not_installed)
            else Rejected error))
  end.

(** [executeRipgrep(pattern, searchPath, args)], given the events that
    the spawned process emits. *)
Definition executeRipgrep (events : list ChildEvent) : Promise jsstring :=
  promise (fold_left on_event events (mkRg [] [] Pending)).

(* ================================================================== *)
(** ** grep.ts: the three output parsers *)
(* ================================================================== *)

(** [parseFilesWithMatches] *)
Definition parseFilesWithMatches (cwd : jsstring) (lines : list jsstring)
  (workspace : jsstring) : GrepResult :=
  FilesWithMatchesResult
    (flat_map (fun line =>
                 if truthy (trim line) then
                   let absolutePath := Path.resolve cwd [workspace; line] in
                   [Path.relative cwd workspace absolutePath]
                 else []) lines).

(** [s.lastIndexOf(c)]; [None] stands for [-1]. *)
Fixpoint lastIndexOf (c : N) (s : jsstring) : option nat :=
  match s with
  | [] => None
  | x :: s' =>
      match lastIndexOf c s' with
      | Some i => Some (S i)
      | None => if N.eqb x c then Some O else None
      end
  end.

(** [s.substring(a, b)] and [s.substring(a)] for indices within [s]. *)
Definition substring (s : jsstring) (a b : nat) : jsstring := firstn (b - a) (skipn a s).
Definition substring_from (s : jsstring) (a : nat) : jsstring := skipn a s.

Definition is_digit (c : N) : bool := N.leb 48 c && N.leb c 57.

Fixpoint leading_digits (s : jsstring) : jsstring :=
  match s with
  | c :: s' => if is_digit c then c :: leading_digits s' else []
  | [] => []
  end.

Definition digits_value (ds : jsstring) : Z :=
  fold_left (fun acc d => (10 * acc + (Z.of_N d - 48))%Z) ds 0%Z.

(** [parseInt(s, 10)]: leading white space is skipped, a sign is read,
    then the longest run of decimal digits; what follows is ignored.
    [None] stands for [NaN].  The value is the integer the digits denote
    (a JavaScript number holds it exactly up to 2^53). *)
Definition parseInt (s : jsstring) : option Z :=
  let s := trimStart s in
  let '(sign, s) :=
    match s with
    | c :: s' =>
        if N.eqb c (ch "-") then ((-1)%Z, s')
        else if N.eqb c (ch "+") then (1%Z, s')
        else (1%Z, s)
    | [] => (1%Z, s)
    end in
  match leading_digits s with
  | [] => None
  | ds => Some (sign * digits_value ds)%Z
  end.

(** [parseCountOutput] *)
Definition parseCountOutput (cwd : jsstring) (lines : list jsstring)
  (workspace : jsstring) : GrepResult :=
  CountResult
    (flat_map (fun line =>
                 match lastIndexOf (ch ":") line with
                 | None => []
                 | Some lastColonIndex =>
                     let filePath := substring line 0 lastColonIndex in
                     let countStr := substring_from line (lastColonIndex + 1) in
                     match parseInt countStr with
                     | None => []
                     | Some count =>
                         let absolutePath := Path.resolve cwd [workspace; filePath] in
                         let relativePath := Path.relative cwd workspace absolutePath in
                         [mkCount relativePath count]
                     end
                 end) lines).

(** One line of ripgrep's [--json] output, as the loop body of
    [parseContentOutput] reads it: the [type] tag and the fields it
    accesses.  [EvOther] is a line of any other type ([end], [summary]),
    or one on which [JSON.parse] or a field access throws; the [catch]
    skips it. *)
Record Submatch : Type := mkSubmatch { sm_start : Z }.

Inductive RawLine : Type :=
| EvBegin (path_text : jsstring)
| EvMatch (line_number : Z) (lines_text : jsstring) (submatches : option (list Submatch))
| EvContext (line_number : Z) (lines_text : jsstring)
| EvOther.

(** A JavaScript [Map] with string keys: entries in insertion order. *)
Definition JsMap (V : Type) := list (jsstring * V).

Definition map_has {V} (k : jsstring) (m : JsMap V) : bool :=
  match assoc k m with Some _ => true | None => false end.

Fixpoint map_set {V} (k : jsstring) (v : V) (m : JsMap V) : JsMap V :=
  match m with
  | [] => [(k, v)]
  | (k', v') :: m' => if str_eqb k' k then (k', v) :: m' else (k', v') :: map_set k v m'
  end.

(** [map.get(k)!.push(x)]: the array stored under [k] grows in place;
    without an entry the call throws and nothing changes. *)
Fixpoint map_push {V} (k : jsstring) (x : V) (m : JsMap (list V)) : JsMap (list V) :=
  match m with
  | [] => []
  | (k', v') :: m' =>
      if str_eqb k' k then (k', v' ++ [x]) :: m' else (k', v') :: map_push k x m'
  end.

Record ParseState : Type := mkState {
  fileMap : JsMap (list GrepMatch);
  currentFile : option jsstring;
  contextMap : JsMap (list jsstring * list jsstring)
}.

(** [submatches.length > 0 ? submatches[0].start + 1 : 1] after
    [matchData.submatches || []]. *)
Definition match_column (submatches : option (list Submatch)) : Z :=
  match submatches with
  | Some (first :: _) => (sm_start first + 1)%Z
  | _ => 1%Z
  end.

(** [options["-n"] !== false] *)
Definition with_column (options : GrepOptions) : bool :=
  match opt_n options with Some false => false | _ => true end.

Definition make_match (options : GrepOptions) (line_number : Z) (lines_text : jsstring)
  (submatches : option (list Submatch)) : GrepMatch :=
  let lineText := trimEnd lines_text in
  let column := match_column submatches in
  mkMatch line_number lineText
    (if with_column options then Some column else None) None None.

(** One turn of the loop of [parseContentOutput]. *)
Definition handle_line (cwd workspace : jsstring) (options : GrepOptions)
  (st : ParseState) (ev : RawLine) : ParseState :=
  match ev with
  | EvBegin absolutePath =>
      let file := Path.relative cwd workspace absolutePath in
      mkState
        (if map_has file (fileMap st) then fileMap st else map_set file [] (fileMap st))
        (Some file) (contextMap st)
  | EvMatch line_number lines_text submatches =>
      match currentFile st with
      | Some file =>
          if truthy file then
            mkState
              (map_push file (make_match options line_number lines_text submatches)
                 (fileMap st))
              (currentFile st) (contextMap st)
          else st
      | None => st
      end
  | EvContext line_number lines_text =>
      match currentFile st with
      | Some file =>
          if truthy file then
            mkState (fileMap st) (currentFile st)
              (if map_has file (contextMap st) then contextMap st
               else map_set file ([], []) (contextMap st))
          else st
      | None => st
      end
  | EvOther => st
  end.

Definition initial_state : ParseState := mkState [] None [].

Definition run_lines (cwd workspace : jsstring) (options : GrepOptions)
  (lines : list RawLine) : ParseState :=
  fold_left (handle_line cwd workspace options) lines initial_state.

(** The final loop: groups in insertion order, empty ones left out. *)
Definition collect_results (m : JsMap (list GrepMatch)) : list GrepContentResult :=
  flat_map (fun '(filePath, matches) =>
              match matches with
              | [] => []
              | _ => [mkContent filePath matches]
              end) m.

(** [parseContentOutput] *)
Definition parseContentOutput (cwd : jsstring) (lines : list RawLine)
  (workspace : jsstring) (options : GrepOptions) : GrepResult :=
  ContentResult (collect_results (fileMap (run_lines cwd workspace options lines))).

(* ================================================================== *)
(** ** grep.ts: [parseRipgrepOutput] and [grep] *)
(* ================================================================== *)

(** What [grep] takes from its environment:
    - [regexp_syntax_error p]: the message of the [SyntaxError] that
      [new RegExp(p)] throws, if it throws;
    - [spawn argv]: the events emitted by [spawn("rg", argv)];
    - [read_json_line l]: what [JSON.parse(l)] and the field reads of
      [parseContentOutput] make of the line [l];
    - [process_cwd]: [process.cwd()]. *)
Record Runtime : Type := mkRuntime {
  regexp_syntax_error : jsstring -> option jsstring;
  spawn : list jsstring -> list ChildEvent;
  read_json_line : jsstring -> RawLine;
  process_cwd : jsstring
}.

Definition output_lines (output : jsstring) : list jsstring :=
  filter truthy (split 10%N (trim output)).

Definition parseRipgrepOutput (rt : Runtime) (output : jsstring)
  (outputMode : OutputMode) (workspace : jsstring) (options : GrepOptions)
  : GrepResult :=
  let lines := output_lines output in
  match outputMode with
  | mode_files_with_matches => parseFilesWithMatches (process_cwd rt) lines workspace
  | mode_count => parseCountOutput (process_cwd rt) lines workspace
  | mode_content =>
      parseContentOutput (process_cwd rt) (map (read_json_line rt) lines) workspace options
  end.

Definition msg_grep_pattern_required : jsstring := str "pattern is required".
Definition msg_invalid_regex : jsstring := str "Invalid regex pattern: ".
Definition msg_search_path : jsstring := str "Search path must be within workspace".

Definition grep_output_mode (options : GrepOptions) : OutputMode :=
  match opt_output_mode options with
  | Some m => m
  | None => mode_files_with_matches
  end.

Definition grep_searchPath (workspace : jsstring) (options : GrepOptions) : jsstring :=
  match opt_path options with
  | Some p => if truthy p then Path.join_paths [workspace; p] else workspace
  | None => workspace
  end.

(** The security check of [grep]: a test on the two resolved strings. *)
Definition grep_within_workspace (cwd workspace searchPath : jsstring) : bool :=
  startsWith (Path.resolve cwd [searchPath]) (Path.resolve cwd [workspace]).

Definition grep_argv (workspace : jsstring) (options : GrepOptions) : list jsstring :=
  buildRipgrepArgs options (grep_output_mode options)
  ++ [str "--"; opt_pattern options; grep_searchPath workspace options].

(** The body of the [try] of [grep]; a rejected promise is a throw. *)
Definition grep_body (rt : Runtime) (workspace : jsstring) (options : GrepOptions)
  : Promise (OperationResult GrepResult) :=
  let pattern := opt_pattern options in
  let output_mode := grep_output_mode options in
  if negb (truthy pattern) then Resolved (Failure msg_grep_pattern_required)
  else
    match regexp_syntax_error rt pattern with
    | Some detail => Resolved (Failure (msg_invalid_regex ++ detail))
    | None =>
        let searchPath := grep_searchPath workspace options in
        if negb (grep_within_workspace (process_cwd rt) workspace searchPath)
        then Resolved (Failure msg_search_path)
        else
          match executeRipgrep (spawn rt (grep_argv workspace options)) with
          | Pending => Pending
          | Rejected error => Rejected error
          | Resolved rgOutput =>
              Resolved (Success (parseRipgrepOutput rt rgOutput output_mode workspace options))
          end
    end.

(** [grep(workspace)(options)]: the [catch] turns a throw into a
    failure value. *)
Definition grep (rt : Runtime) (workspace : jsstring) (options : GrepOptions)
  : Promise (OperationResult GrepResult) :=
  match grep_body rt workspace options with
  | Rejected error => Resolved (Failure (message error))
  | outcome => outcome
  end.

(* ================================================================== *)
(** ** Containment in the workspace, segment by segment *)
(* ================================================================== *)

Fixpoint is_prefix (a b : list jsstring) : bool :=
  match a, b with
  | [], _ => true
  | _ :: _, [] => false
  | x :: a', y :: b' => str_eqb x y && is_prefix a' b'
  end.

(** [path] resolves to the workspace root or to something below it. *)
Definition inside_workspace (cwd workspace path : jsstring) : bool :=
  is_prefix (Path.segments (Path.resolve cwd [workspace]))
            (Path.segments (Path.resolve cwd [path])).

(* ================================================================== *)
(** ** Vocabulary of the statements *)
(* ================================================================== *)

(** Events of the child process that leave the promise alone. *)
Definition is_data (ev : ChildEvent) : bool :=
  match ev with StdoutData _ | StderrData _ => true | _ => false end.

(** Everything written to standard output, resp. standard error. *)
Definition stdout_of (events : list ChildEvent) : jsstring :=
  flat_map (fun ev => match ev with StdoutData d => d | _ => [] end) events.

Definition stderr_of (events : list ChildEvent) : jsstring :=
  flat_map (fun ev => match ev with StderrData d => d | _ => [] end) events.

(** The [data] of a result, by mode. *)
Definition content_data (r : GrepResult) : list GrepContentResult :=
  match r with ContentResult d => d | _ => [] end.


Definition is_begin (ev : RawLine) : bool :=
  match ev with EvBegin _ => true | _ => false end.

Definition is_context (ev : RawLine) : bool :=
  match ev with EvContext _ _ => true | _ => false end.

(** A match record without its [column]. *)
Definition erase_column (m : GrepMatch) : GrepMatch :=
  mkMatch (line m) (content m) None (beforeContext m) (afterContext m).

Definition erase_columns (g : GrepContentResult) : GrepContentResult :=
  mkContent (content_path g) (map erase_column (content_matches g)).

(** The options with ['-n'] set to [b]. *)
Definition with_n (b : bool) (o : GrepOptions) : GrepOptions :=
  mkOptions (opt_pattern o) (opt_path o) (opt_glob o) (opt_type o) (opt_output_mode o)
    (opt_i o) (Some b) (opt_B o) (opt_A o) (opt_C o) (opt_head_limit o) (opt_multiline o).




(** The context window requested by the options: ['-C'] wins over
    ['-B'] and ['-A']. *)
Definition context_before (o : GrepOptions) : Z :=
  match opt_C o, opt_B o with
  | Some n, _ => n
  | None, Some n => n
  | None, None => 0%Z
  end.

Definition context_after (o : GrepOptions) : Z :=
  match opt_C o, opt_A o with
  | Some n, _ => n
  | None, Some n => n
  | None, None => 0%Z
  end.

(** Line [l] lies in the window before or after the match record [m]. *)
Definition in_window (o : GrepOptions) (m : GrepMatch) (l : Z) : Prop :=
  (line m - context_before o <= l < line m)%Z
  \/ (line m < l <= line m + context_after o)%Z.

(** The record [m] holds the context line [text]. *)
Definition holds_context (m : GrepMatch) (text : jsstring) : Prop :=
  (exists ctx, beforeContext m = Some ctx /\ In (trimEnd text) ctx)
  \/ (exists ctx, afterContext m = Some ctx /\ In (trimEnd text) ctx).

(** A [context] line read while [file] is the current file. *)
Definition context_seen (cwd workspace : jsstring) (o : GrepOptions)
  (lines : list RawLine) (file : jsstring) (l : Z) (text : jsstring) : Prop :=
  exists pre post,
    lines = pre ++ EvContext l text :: post
    /\ currentFile (run_lines cwd workspace o pre) = Some file.

(** The association of context lines with matches that the
    specification describes, in its weakest reading: a context line of a
    file that lies in the window of one of the file's returned matches
    is held by a returned match of that file whose window it lies in. *)
Definition context_associated (cwd workspace : jsstring) (o : GrepOptions)
  (lines : list RawLine) (groups : list GrepContentResult) : Prop :=
  forall file l text g,
    context_seen cwd workspace o lines file l text ->
    In g groups -> content_path g = file ->
    (exists m, In m (content_matches g) /\ in_window o m l) ->
    exists m, In m (content_matches g) /\ in_window o m l /\ holds_context m text.

(** The first character of [s] is [c]. *)
Definition head_is (c : N) (s : jsstring) : bool :=
  match s with x :: _ => N.eqb x c | [] => false end.

Definition no_line_terminator (s : jsstring) : Prop :=
  Forall (fun c => is_line_terminator c = false) s.

(** A file or directory name: not empty, without [/], neither [.] nor
    [..]. *)
Definition clean_segment (s : jsstring) : bool :=
  truthy s
  && forallb (fun c => negb (N.eqb c (ch "/"))) s
  && negb (str_eqb s Path.dot)
  && negb (str_eqb s Path.dotdot).

(** The absolute path with the given segments; [/] for none. *)
Definition absolute (segs : list jsstring) : jsstring :=
  ch "/" :: join Path.slash segs.

(** The optional search path that names the sub-directory [sub] of the
    workspace: absent for the workspace itself. *)
Definition search_path (sub : list jsstring) : option jsstring :=
  match sub with [] => None | _ => Some (join Path.slash sub) end.

(** Every name in the tree is a clean segment. *)
Fixpoint well_named (n : node) : bool :=
  match n with
  | Dir _ entries =>
      (fix each (es : list (jsstring * node)) : bool :=
         match es with
         | [] => true
         | (name, child) :: es' => clean_segment name && well_named child && each es'
         end) entries
  | _ => true
  end.

(** The regular files below a directory, each as the list of names that
    leads to it, in the order of the walk.  Nothing is found below a
    directory that cannot be read. *)
Fixpoint files_under (n : node) : list (list jsstring) :=
  match n with
  | Dir true entries =>
      (fix each (es : list (jsstring * node)) : list (list jsstring) :=
         match es with
         | [] => []
         | (name, child) :: es' =>
             match child with
             | Dir _ _ => map (cons name) (files_under child)
             | File => [[name]]
             | Other => []
             end ++ each es'
         end) entries
  | _ => []
  end.

(** Every record of a map without its [column]. *)
Definition erase_map (m : JsMap (list GrepMatch)) : JsMap (list GrepMatch) :=
  map (fun kv => (fst kv, map erase_column (snd kv))) m.


(** A segment that [normalizeString] drops or keeps as it is. *)
Definition tidy_segment (s : jsstring) : Prop := s = [] \/ clean_segment s = true.

(** Tidy strings: every segment is empty or clean. *)
Definition tidy (path : jsstring) : Prop := Forall tidy_segment (split (ch "/") path).

(** Lists of clean segments. *)
Abbreviation clean_segments segs := (Forall (fun s => clean_segment s = true) segs).

(** The order of [Array.prototype.sort()], as a relation. *)
Definition str_le (a b : jsstring) : Prop := str_leb a b = true.

(* ================================================================== *)
(** ** Vocabulary for the plain-text output of ripgrep *)
(* ================================================================== *)

(** The last character of [s] is white space. *)
Definition ends_with_whitespace (s : jsstring) : bool :=
  match rev s with c :: _ => is_whitespace c | [] => false end.

(** The string holds no line feed. *)
Definition no_line_feed (s : jsstring) : Prop := ~ In 10%N s.

(** What a process prints for a list of lines: each line, then a line
    feed. *)
Definition printed (lines : list jsstring) : jsstring :=
  flat_map (fun l => l ++ [10%N]) lines.

(** A decimal numeral: one digit or more. *)
Definition numeral (ds : jsstring) : bool := truthy ds && forallb is_digit ds.

(* ================================================================== *)
(** ** sdks/langchain/filesystem.ts: the tools that wrap [glob] and [grep] *)
(* ================================================================== *)

(** [text || fallback] *)
Definition or_else (text fallback : jsstring) : jsstring :=
  if truthy text then text else fallback.

(** [String(list.length)] *)
Definition show_length {A} (l : list A) : jsstring := show_N (N.of_nat (length l)).

Definition line_feed : jsstring := [10%N].

(** The [func] of the tool that [createGlobTool(fs)] builds; [fs_glob] is
    [fs.glob], the operation bound to its workspace. *)
Definition createGlobTool_func
  (fs_glob : jsstring -> option jsstring -> completion (OperationResult (list jsstring)))
  (pattern : jsstring) (path : option jsstring) : completion jsstring :=
  match fs_glob pattern path with
  | Throw e => Throw e
  | Normal (Failure error) =>
      Normal (str "Error: " ++ or_else error (str "Failed to find files"))
  | Normal (Success files) =>
      match files with
      | [] => Normal (str "No files found matching pattern: " ++ pattern)
      | _ =>
          Normal (str "Found " ++ show_length files ++ str " file(s):" ++ line_feed
                  ++ join line_feed files)
      end
  end.

(** The arguments of the [search_content] tool, after validation by its
    schema; numbers are integers, as in [GrepOptions]. *)
Record SearchArgs : Type := mkSearchArgs {
  arg_pattern : jsstring;
  arg_path : option jsstring;
  arg_glob : option jsstring;
  arg_type : option jsstring;
  arg_outputMode : option OutputMode;
  arg_caseInsensitive : option bool;
  arg_showLineNumbers : option bool;
  arg_contextBefore : option Z;
  arg_contextAfter : option Z;
  arg_headLimit : option Z;
  arg_multiline : option bool
}.

(** The options object that the tool hands to [fs.grep]; it has no
    ['-C'] key. *)
Definition search_options (a : SearchArgs) : GrepOptions :=
  mkOptions (arg_pattern a) (arg_path a) (arg_glob a) (arg_type a) (arg_outputMode a)
    (arg_caseInsensitive a) (arg_showLineNumbers a) (arg_contextBefore a)
    (arg_contextAfter a) None (arg_headLimit a) (arg_multiline a).

(** One match of the [content] mode. *)
Definition format_match (m : GrepMatch) : jsstring :=
  let indent := map (fun l => str "  " ++ l) in
  let output := str "  Line " ++ show_Z (line m) ++ str ": " ++ content m in
  let output :=
    match beforeContext m with
    | Some ctx => join line_feed (indent ctx) ++ line_feed ++ output
    | None => output
    end in
  match afterContext m with
  | Some ctx => output ++ line_feed ++ join line_feed (indent ctx)
  | None => output
  end.

Definition format_file (file : GrepContentResult) : jsstring :=
  content_path file ++ str ":" ++ line_feed
  ++ join line_feed (map format_match (content_matches file)).

Definition format_count (c : GrepCountResult) : jsstring :=
  count_path c ++ str ": " ++ show_Z (count_count c) ++ str " match(es)".

Definition msg_no_matches : jsstring := str "No matches found".

(** The formatting that follows the call of [fs.grep]. *)
Definition format_grep_result (r : GrepResult) : jsstring :=
  match r with
  | FilesWithMatchesResult files =>
      match files with
      | [] => msg_no_matches
      | _ => str "Found matches in " ++ show_length files ++ str " file(s):" ++ line_feed
             ++ join line_feed files
      end
  | CountResult counts =>
      match counts with
      | [] => msg_no_matches
      | _ => join line_feed (map format_count counts)
      end
  | ContentResult contents =>
      match contents with
      | [] => msg_no_matches
      | _ => join (line_feed ++ line_feed) (map format_file contents)
      end
  end.

(** The [func] of the tool that [createGrepTool(fs)] builds; [fs_grep]
    is [fs.grep]. *)
Definition createGrepTool_func
  (fs_grep : GrepOptions -> Promise (OperationResult GrepResult))
  (a : SearchArgs) : Promise jsstring :=
  match fs_grep (search_options a) with
  | Pending => Pending
  | Rejected e => Rejected e
  | Resolved (Failure error) =>
      Resolved (str "Error: " ++ or_else error (str "Failed to search content"))
  | Resolved (Success grepResult) => Resolved (format_grep_result grepResult)
  end.

(** The arguments with [showLineNumbers] set to [v]. *)
Definition with_showLineNumbers (v : option bool) (a : SearchArgs) : SearchArgs :=
  mkSearchArgs (arg_pattern a) (arg_path a) (arg_glob a) (arg_type a) (arg_outputMode a)
    (arg_caseInsensitive a) v (arg_contextBefore a) (arg_contextAfter a)
    (arg_headLimit a) (arg_multiline a).

(** The [data] of a result is empty. *)
Definition no_data (r : GrepResult) : bool :=
  match r with
  | ContentResult [] | FilesWithMatchesResult [] | CountResult [] => true
  | _ => false
  end.

(* ================================================================== *)
(** ** More of the JavaScript string library *)
(* ================================================================== *)

(** [s.indexOf(sub)]: the least index at which [sub] occurs; [None]
    stands for [-1]. *)
Fixpoint indexOf (s sub : jsstring) : option nat :=
  if startsWith s sub then Some O
  else match s with
       | [] => None
       | _ :: s' => option_map S (indexOf s' sub)
       end.

(** [s.includes(sub)] *)
Definition includes (s sub : jsstring) : bool :=
  match indexOf s sub with Some _ => true | None => false end.

(** [s.split(sep)] for a separator that is not empty: the string is
    scanned from the left; where [sep] starts, the current piece ends,
    the characters of [sep] are passed over ([skip] counts the ones
    still to pass), and the next piece begins.  The first element of the
    result is the piece being read. *)
Fixpoint split_on (sep : jsstring) (skip : nat) (s : jsstring) : list jsstring :=
  match s with
  | [] => [[]]
  | c :: s' =>
      match skip with
      | S k => split_on sep k s'
      | O =>
          if startsWith s sep then [] :: split_on sep (length sep - 1) s'
          else match split_on sep 0 s' with
               | piece :: pieces => (c :: piece) :: pieces
               | [] => [[c]]
               end
      end
  end.

(** [s.split(sep)] for a string [sep]; the empty separator splits
    between all code units. *)
Definition split_string (sep s : jsstring) : list jsstring :=
  match sep with
  | [] => map (fun c => [c]) s
  | _ :: _ => split_on sep 0 s
  end.

(** [sub] occurs in [s]. *)
Definition occurs (sub s : jsstring) : Prop := exists a b, s = a ++ sub ++ b.

(** [sub] occurs in [pre ++ sub] at the end only: in a string that
    starts with [pre ++ sub], the first occurrence of [sub] is the one
    after [pre]. *)
Definition first_occurrence (sub pre : jsstring) : Prop :=
  forall a b, pre ++ sub = a ++ sub ++ b -> b = [].

(** The pieces that the occurrences of [sep] cut [s] into, the
    occurrences being taken from the left and not overlapping. *)
Inductive pieces_of (sep : jsstring) : jsstring -> list jsstring -> Prop :=
| pieces_last : forall s, ~ occurs sep s -> pieces_of sep s [s]
| pieces_cons : forall pre rest ps,
    first_occurrence sep pre -> pieces_of sep rest ps ->
    pieces_of sep (pre ++ sep ++ rest) (pre :: ps).

(* ================================================================== *)
(** ** Node's [path.dirname], POSIX flavour *)
(* ================================================================== *)

(** The backward loop of [dirname], over the characters at the indices
    [length - 1] down to [1], given last first.  Separators at the end
    are passed over, then the characters of the last name; the loop
    stops at the separator before that name and yields its index. *)
Fixpoint dirname_scan (matchedSlash : bool) (r : jsstring) : option nat :=
  match r with
  | [] => None
  | c :: r' =>
      if N.eqb c (ch "/") then
        if matchedSlash then dirname_scan true r' else Some (S (length r'))
      else dirname_scan false r'
  end.

(** [path.dirname(p)] *)
Definition dirname (path : jsstring) : jsstring :=
  match path with
  | [] => Path.dot
  | c0 :: rest =>
      let hasRoot := N.eqb c0 (ch "/") in
      match dirname_scan true (rev rest) with
      | None => if hasRoot then Path.slash else Path.dot
      | Some end_ =>
          if hasRoot && Nat.eqb end_ 1 then str "//" else firstn end_ path
      end
  end.

(* ================================================================== *)
(** ** The environment of [read], [edit], [write] and [list] *)
(* ================================================================== *)

(** [fs.Stats], as far as the operations look at it; [mtime] is a
    [Date], held as its time value. *)
Record Stats : Type := mkStats {
  stats_isFile : bool;
  stats_isDirectory : bool;
  stats_size : Z;
  stats_mtime : Z
}.

(** [fs.Dirent], as [readdir] with [withFileTypes] returns it. *)
Record Dirent : Type := mkDirent { dirent_name : jsstring; dirent_isDirectory : bool }.

(** What the operations take from their environment: the calls made to
    [fs/promises], over a state [World] of the file system that only
    [mkdir] and [writeFile] change, and three facts of the runtime.
    Each call ends normally or throws; a call that changes the state
    returns the new state in both cases.
    - [api_cwd]: [process.cwd()];
    - [api_stat w p]: [await fs.stat(p)];
    - [api_readFile w p]: [await fs.readFile(p, 'utf-8')];
    - [api_readdir w p]: [await fs.readdir(p, { withFileTypes: true })];
    - [api_mkdir w p]: [await fs.mkdir(p, { recursive: true })];
    - [api_writeFile w p text]: [await fs.writeFile(p, text, 'utf-8')];
    - [api_localeCompare a b]: [a.localeCompare(b)], which depends on the
      locale of the host;
    - [api_settles_first errors]: of the rejections [errors] of promises
      awaited together by [Promise.all], the one that settles first. *)
Record FsApi (World : Type) : Type := mkFsApi {
  api_cwd : jsstring;
  api_stat : World -> jsstring -> completion Stats;
  api_readFile : World -> jsstring -> completion jsstring;
  api_readdir : World -> jsstring -> completion (list Dirent);
  api_mkdir : World -> jsstring -> World * completion unit;
  api_writeFile : World -> jsstring -> jsstring -> World * completion unit;
  api_localeCompare : jsstring -> jsstring -> Z;
  api_settles_first : list JsError -> JsError
}.

(* ================================================================== *)
(** ** read.ts: [isPathSafe] and [read] *)
(* ================================================================== *)

Definition isPathSafe (cwd workspace resolvedPath : jsstring) : bool :=
  let normalizedWorkspace := Path.resolve cwd [workspace] in
  let normalizedPath := Path.resolve cwd [resolvedPath] in
  startsWith normalizedPath (normalizedWorkspace ++ [path_sep])
  || str_eqb normalizedPath normalizedWorkspace.

Definition msg_outside_workspace (relativePath : jsstring) : jsstring :=
  str "Path traversal detected: " ++ relativePath ++ str " is outside workspace".

(** The body of the outer [try] of [read]. *)
Definition read_body {World} (api : FsApi World) (w : World)
  (workspace relativePath : jsstring) : completion (OperationResult jsstring) :=
  if Path.isAbsolute relativePath
  then Normal (Failure (msg_outside_workspace relativePath))
  else
    let fullPath := Path.join_paths [workspace; relativePath] in
    if negb (isPathSafe (api_cwd api) workspace fullPath)
    then Normal (Failure (msg_outside_workspace relativePath))
    else
      match api_stat api w fullPath with
      | Throw _ => Normal (Failure (str "File not found: " ++ relativePath))
      | Normal stats =>
          if negb (stats_isFile stats)
          then Normal (Failure (str "Path is not a file: " ++ relativePath))
          else
            match api_readFile api w fullPath with
            | Throw e => Throw e
            | Normal content => Normal (Success content)
            end
      end.

(** [read(workspace)(relativePath)] *)
Definition read {World} (api : FsApi World) (w : World)
  (workspace relativePath : jsstring) : completion (OperationResult jsstring) :=
  try_catch (read_body api w workspace relativePath)
            (fun err => Normal (Failure (message err))).

(* ================================================================== *)
(** ** edit.ts: [edit] *)
(* ================================================================== *)

(** [EditOptions] *)
Record EditOptions : Type := mkEditOptions { replaceAll : option bool }.

(** [options?.replaceAll] as a condition. *)
Definition wants_replaceAll (options : option EditOptions) : bool :=
  match options with Some o => is_true (replaceAll o) | None => false end.

Definition msg_multiple_occurrences : jsstring :=
  str "Multiple occurrences found. Use replaceAll option to replace all occurrences.".

(** [await fs.writeFile(fullPath, newContent, 'utf-8')] followed by the
    [return] of the success value. *)
Definition write_back {World} (api : FsApi World) (w : World)
  (fullPath newContent : jsstring) : World * completion (OperationResult unit) :=
  let (w', r) := api_writeFile api w fullPath newContent in
  (w', match r with Normal _ => Normal (Success tt) | Throw e => Throw e end).

(** The body of the outer [try] of [edit], with the state of the file
    system it leaves.  Where [indexOf] finds nothing, [index] is [-1]:
    [substring(0, -1)] is empty and [substring(-1 + n)] starts at
    [n - 1]. *)
Definition edit_body {World} (api : FsApi World) (w : World)
  (workspace relativePath oldString newString : jsstring) (options : option EditOptions)
  : World * completion (OperationResult unit) :=
  if negb (truthy relativePath)
  then (w, Normal (Failure (str "Relative path is required")))
  else if negb (truthy oldString)
  then (w, Normal (Failure (str "Old string cannot be empty")))
  else if str_eqb oldString newString
  then (w, Normal (Failure (str "Old string and new string are identical")))
  else
    let fullPath := Path.resolve (api_cwd api) [workspace; relativePath] in
    if negb (startsWith fullPath (Path.resolve (api_cwd api) [workspace]))
    then (w, Normal (Failure (str "Path traversal detected - path must be within workspace")))
    else
      match api_readFile api w fullPath with
      | Throw error =>
          if has_code "ENOENT" error
          then (w, Normal (Failure (str "File not found: " ++ relativePath)))
          else if has_code "EISDIR" error
          then (w, Normal (Failure (str "Path is a directory, not a file: " ++ relativePath)))
          else (w, Throw error)
      | Normal content =>
          if negb (includes content oldString)
          then (w, Normal (Failure (str "Old string not found in file")))
          else if wants_replaceAll options
          then write_back api w fullPath (join newString (split_string oldString content))
          else
            let '(before, after) :=
              match indexOf content oldString with
              | Some index => (index, index + length oldString)
              | None => (0, length oldString - 1)
              end in
            let newContent :=
              substring content 0 before ++ newString ++ substring_from content after in
            let remainingContent := substring_from content after in
            if includes remainingContent oldString
            then (w, Normal (Failure msg_multiple_occurrences))
            else write_back api w fullPath newContent
      end.

(** [edit(workspace)(relativePath, oldString, newString, options)] *)
Definition edit {World} (api : FsApi World) (w : World)
  (workspace relativePath oldString newString : jsstring) (options : option EditOptions)
  : World * completion (OperationResult unit) :=
  let (w', r) := edit_body api w workspace relativePath oldString newString options in
  (w', try_catch r (fun error => Normal (Failure (message error)))).

(* ================================================================== *)
(** ** write.ts: [validatePath] and [write] *)
(* ================================================================== *)

Definition validatePath (cwd workspace relativePath : jsstring) : completion jsstring :=
  let absolutePath := Path.resolve cwd [workspace; relativePath] in
  let normalizedWorkspace := Path.resolve cwd [workspace] in
  if negb (startsWith absolutePath normalizedWorkspace)
  then Throw (Error (str "Path escapes workspace"))
  else Normal absolutePath.

(** The body of the [try] of [write]. *)
Definition write_body {World} (api : FsApi World) (w : World)
  (workspace relativePath content : jsstring) : World * completion (OperationResult unit) :=
  match validatePath (api_cwd api) workspace relativePath with
  | Throw e => (w, Throw e)
  | Normal absolutePath =>
      let (w1, made) := api_mkdir api w (dirname absolutePath) in
      match made with
      | Throw e => (w1, Throw e)
      | Normal _ =>
          let (w2, written) := api_writeFile api w1 absolutePath content in
          (w2, match written with
               | Throw e => Throw e
               | Normal _ => Normal (Success tt)
               end)
      end
  end.

(** [write(workspace)(relativePath, content)] *)
Definition write {World} (api : FsApi World) (w : World)
  (workspace relativePath content : jsstring) : World * completion (OperationResult unit) :=
  let (w', r) := write_body api w workspace relativePath content in
  (w', try_catch r (fun error => Normal (Failure (message error)))).

(* ================================================================== *)
(** ** Vocabulary for the outcomes of [edit] and [write] *)
(* ================================================================== *)

(** An operation that ends by writing [text] to [path]: the state that
    the write leaves, with success, or with the message of the error
    that the write threw. *)
Definition after_write {World} (api : FsApi World) (w : World) (path text : jsstring)
  : World * completion (OperationResult unit) :=
  let (w', r) := api_writeFile api w path text in
  (w', Normal (match r with
               | Normal _ => Success tt
               | Throw e => Failure (message e)
               end)).

(** [mkdir] of [dir], then the write. *)
Definition after_mkdir_and_write {World} (api : FsApi World) (w : World)
  (dir path text : jsstring) : World * completion (OperationResult unit) :=
  let (w1, made) := api_mkdir api w dir in
  match made with
  | Throw e => (w1, Normal (Failure (message e)))
  | Normal _ => after_write api w1 path text
  end.

(** The state is left as it was, and the failure [msg] is returned. *)
Definition rejected {World} (w : World) (msg : jsstring)
  : World * completion (OperationResult unit) :=
  (w, Normal (Failure msg)).

(* ================================================================== *)
(** ** Vocabulary for the [--json] stream of ripgrep *)
(* ================================================================== *)

(** The records that the [match] lines of [body] give. *)
Definition matches_of (options : GrepOptions) (body : list RawLine) : list GrepMatch :=
  flat_map (fun ev =>
              match ev with
              | EvMatch n t s => [make_match options n t s]
              | _ => []
              end) body.

(** A stream in blocks: for each file its [begin] line, then the lines
    up to the next [begin]. *)
Definition stream (blocks : list (jsstring * list RawLine)) : list RawLine :=
  flat_map (fun b => EvBegin (fst b) :: snd b) blocks.

(* ================================================================== *)
(** ** list.ts: [list] *)
(* ================================================================== *)

(** [FileInfo] *)
Record FileInfo : Type := mkFileInfo {
  info_name : jsstring;
  info_path : jsstring;
  info_isDirectory : bool;
  info_size : Z;
  info_modifiedTime : Z
}.

(** [await Promise.all(promises)]: the values in the order of the
    promises when all are fulfilled; otherwise the rejection that settles
    first. *)
Definition thrown {A} (r : completion A) : list JsError :=
  match r with Throw e => [e] | Normal _ => [] end.

Fixpoint fulfilled {A} (rs : list (completion A)) : option (list A) :=
  match rs with
  | [] => Some []
  | Normal a :: rs' => option_map (cons a) (fulfilled rs')
  | Throw _ :: _ => None
  end.

Definition Promise_all {A} (settles_first : list JsError -> JsError)
  (rs : list (completion A)) : completion (list A) :=
  match fulfilled rs with
  | Some values => Normal values
  | None => Throw (settles_first (flat_map thrown rs))
  end.

(** [array.sort(compare)] for a consistent [compare]: the sort is
    stable, an element stays before the later ones that compare equal
    to it. *)
Fixpoint insert_by {A} (compare : A -> A -> Z) (x : A) (l : list A) : list A :=
  match l with
  | [] => [x]
  | y :: l' => if (compare x y <=? 0)%Z then x :: l else y :: insert_by compare x l'
  end.

Definition sort_by {A} (compare : A -> A -> Z) (l : list A) : list A :=
  fold_right (insert_by compare) [] l.

(** The comparison of [list]: directories first, then by name. *)
Definition compare_infos (localeCompare : jsstring -> jsstring -> Z) (a b : FileInfo) : Z :=
  if Bool.eqb (info_isDirectory a) (info_isDirectory b)
  then localeCompare (info_name a) (info_name b)
  else if info_isDirectory a then (-1)%Z else 1%Z.

(** The check of [list]: a test on the two normalized strings. *)
Definition list_within_workspace (workspace fullPath : jsstring) : bool :=
  startsWith (Path.normalize fullPath) (Path.normalize workspace).

(** The callback mapped over the entries of the directory. *)
Definition entry_info {World} (api : FsApi World) (w : World)
  (fullPath relativePath : jsstring) (entry : Dirent) : completion FileInfo :=
  let entryPath := Path.join_paths [fullPath; dirent_name entry] in
  match api_stat api w entryPath with
  | Throw e => Throw e
  | Normal stats =>
      Normal (mkFileInfo (dirent_name entry)
                (Path.join_paths [relativePath; dirent_name entry])
                (dirent_isDirectory entry) (stats_size stats) (stats_mtime stats))
  end.

(** The body of the outer [try] of [list]; an absent argument takes the
    default [''] . *)
Definition list_body {World} (api : FsApi World) (w : World)
  (workspace : jsstring) (relativePath : option jsstring)
  : completion (OperationResult (list FileInfo)) :=
  let relativePath := match relativePath with Some p => p | None => [] end in
  let fullPath := Path.join_paths [workspace; relativePath] in
  if negb (list_within_workspace workspace fullPath)
  then Normal (Failure msg_traversal)
  else
    match api_stat api w fullPath with
    | Throw error =>
        if has_code "ENOENT" error
        then Normal (Failure (msg_directory_not_found ++ or_else relativePath Path.dot))
        else Throw error
    | Normal stat =>
        if negb (stats_isDirectory stat)
        then Normal (Failure (msg_not_a_directory ++ or_else relativePath Path.dot))
        else
          match api_readdir api w fullPath with
          | Throw error => Throw error
          | Normal entries =>
              match Promise_all (api_settles_first api)
                      (map (entry_info api w fullPath relativePath) entries) with
              | Throw error => Throw error
              | Normal fileInfos =>
                  Normal (Success (sort_by (compare_infos (api_localeCompare api)) fileInfos))
              end
          end
    end.

(** [list(workspace)(relativePath)] *)
Definition list_directory {World} (api : FsApi World) (w : World)
  (workspace : jsstring) (relativePath : option jsstring)
  : completion (OperationResult (list FileInfo)) :=
  try_catch (list_body api w workspace relativePath)
            (fun error => Normal (Failure (str "Failed to list directory: " ++ message error))).

(** [compare] never puts [a] before [b] and [b] before [a], and is
    transitive: what [sort] asks of its argument. *)
Definition consistent {A} (compare : A -> A -> Z) : Prop :=
  (forall a b, (compare a b < 0)%Z <-> (0 < compare b a)%Z)
  /\ (forall a b c, (compare a b <= 0)%Z -> (compare b c <= 0)%Z -> (compare a c <= 0)%Z).

(** [a] is somewhere before [b] in [l]. *)
Definition comes_before {A} (l : list A) (a b : A) : Prop :=
  exists pre mid post, l = pre ++ a :: mid ++ b :: post.

(* ================================================================== *)
(** ** Sample inputs *)
(* ================================================================== *)

(** The tree of the test suite, next to a sibling of the workspace. *)
Definition test_tree : node :=
  Dir true
    [(str "ws",
      Dir true
        [(str "file1.txt", File);
         (str "README.md", File);
         (str "subdir",
          Dir true
            [(str "code.ts", File);
             (str "nested.json", File);
             (str "deep", Dir true [(str "file.ts", File); (str "data.json", File)])])]);
     (str "ws-evil", Dir true [(str "secret.txt", File)])].

Definition test_fs : FileSystem := mkFS test_tree (str "/home").


Definition no_options (pattern : jsstring) : GrepOptions :=
  mkOptions pattern None None None None None None None None None None None.

Definition with_path (p : jsstring) (o : GrepOptions) : GrepOptions :=
  mkOptions (opt_pattern o) (Some p) (opt_glob o) (opt_type o) (opt_output_mode o)
    (opt_i o) (opt_n o) (opt_B o) (opt_A o) (opt_C o) (opt_head_limit o) (opt_multiline o).

Definition with_C (n : Z) (o : GrepOptions) : GrepOptions :=
  mkOptions (opt_pattern o) (opt_path o) (opt_glob o) (opt_type o) (opt_output_mode o)
    (opt_i o) (opt_n o) (opt_B o) (opt_A o) (Some n) (opt_head_limit o) (opt_multiline o).

(** A backend that writes [output], then closes with [exit_code]. *)
Definition sample_runtime (output : jsstring) (exit_code : Z) : Runtime :=
  mkRuntime (fun _ => None)
            (fun _ => [StdoutData output; Close (Some exit_code)])
            (fun _ => EvOther)
            (str "/").

(** Output of [rg --json -C 1 hit /ws] for a file whose line 4 matches. *)
Definition sample_context_lines : list RawLine :=
  [EvBegin (str "/ws/a.txt");
   EvContext 3 (str "before" ++ [10%N]);
   EvMatch 4 (str "a hit" ++ [10%N]) (Some [mkSubmatch 2]);
   EvContext 5 (str "after" ++ [10%N]);
   EvOther].

(** A workspace with a file and a directory whose names hold a line
    feed. *)
Definition line_feed_name : jsstring := [97; 10; 98]%N.

Definition line_feed_fs : FileSystem :=
  mkFS (Dir true [(str "ws", Dir true
          [(line_feed_name, File);
           ([100; 10]%N, Dir true [(str "c", File)])])])
       (str "/").

(** A file system in memory: the regular files with their text, by
    absolute path, the latest write first.  Nothing else exists, and
    [mkdir] always succeeds.  Names are compared by their first code
    unit, and of several rejections the first listed settles first. *)
Definition memory_api : FsApi (list (jsstring * jsstring)) :=
  mkFsApi (str "/")
    (fun w p =>
       match assoc p w with
       | Some text => Normal (mkStats true false (Z.of_nat (length text)) 0)
       | None => Throw (system_error (str "ENOENT") (str "no such file or directory")
                          (str "stat") p)
       end)
    (fun w p =>
       match assoc p w with
       | Some text => Normal text
       | None => Throw (system_error (str "ENOENT") (str "no such file or directory")
                          (str "open") p)
       end)
    (fun w p => Throw (system_error (str "ENOENT") (str "no such file or directory")
                         (str "scandir") p))
    (fun w p => (w, Normal tt))
    (fun w p text => ((p, text) :: w, Normal tt))
    (fun a b => (Z.of_N (hd 0%N a) - Z.of_N (hd 0%N b))%Z)
    (fun errors => hd (Error []) errors).

(** A workspace [/ws] with one file, next to a sibling with a secret. *)
Definition memory_files : list (jsstring * jsstring) :=
  [(str "/ws/notes.txt", str "one two one");
   (str "/ws-evil/secret.txt", str "secret")].

(** A [--json] stream for two files, the second without a match. *)
Definition sample_blocks : list (jsstring * list RawLine) :=
  [(str "/ws/a.txt",
    [EvContext 3 (str "before" ++ [10%N]);
     EvMatch 4 (str "a hit" ++ [10%N]) (Some [mkSubmatch 2]);
     EvOther]);
   (str "/ws/b.txt", [EvOther])].

(** A directory [/ws] that holds two files and a directory; the entry
    [gone] can be given to [readdir] without being there for [stat]. *)
Definition folder_entries : list Dirent :=
  [mkDirent (str "b.txt") false; mkDirent (str "src") true; mkDirent (str "a.txt") false].

Definition folder_api (entries : list Dirent) : FsApi unit :=
  mkFsApi (str "/")
    (fun _ p =>
       if str_eqb p (str "/ws") || str_eqb p (str "/ws/src")
       then Normal (mkStats false true 64 0)
       else if str_eqb p (str "/ws/a.txt") || str_eqb p (str "/ws/b.txt")
       then Normal (mkStats true false 5 0)
       else Throw (system_error (str "ENOENT") (str "no such file or directory")
                     (str "stat") p))
    (fun _ p => Throw (system_error (str "EISDIR") (str "illegal operation on a directory")
                         (str "read") p))
    (fun _ p =>
       if str_eqb p (str "/ws") then Normal entries
       else Throw (system_error (str "ENOENT") (str "no such file or directory")
                     (str "scandir") p))
    (fun w p => (w, Normal tt))
    (fun w p text => (w, Normal tt))
    (fun a b => (Z.of_N (hd 0%N a) - Z.of_N (hd 0%N b))%Z)
    (fun errors => hd (Error []) errors).

(* ================================================================== *)
(** * Properties *)
(* ================================================================== *)

Unset Implicit Arguments.

(** ** Sample runs of [globToRegex] *)

Example glob_test_1 : glob_test (str "**/*.ts") (str "subdir/deep/file.ts") = Some true.
Proof. reflexivity. Qed.
Example glob_test_2 : glob_test (str "a/**/b") (str "a/b") = Some true.
Proof. reflexivity. Qed.
Example glob_test_3 : glob_test (str "*") (str "subdir/code.ts") = Some false.
Proof. reflexivity. Qed.
Example glob_test_4 : glob_test (str "*.{ts,json}") (str "a.ts") = Some false.
Proof. reflexivity. Qed.
Example glob_test_5 : glob_test (str "*.{ts,json}") (str "a.{ts,json}") = Some true.
Proof. reflexivity. Qed.
Example glob_test_6 : glob_test (str "**") [97; 10; 98]%N = Some false.
Proof. reflexivity. Qed.
Example glob_test_7 : glob_test (str "file?.txt") (str "file1.txt") = Some true.
Proof. reflexivity. Qed.


(** ** Sample runs of [glob] on the tree of the test suite *)

Example glob_run_1 :
  glob test_fs (str "/ws") (str "**/*.ts") None
  = Normal (Success [str "subdir/code.ts"; str "subdir/deep/file.ts"]).
Proof. reflexivity. Qed.

Example glob_run_2 :
  glob test_fs (str "/ws") (str "*") None
  = Normal (Success [str "README.md"; str "file1.txt"]).
Proof. reflexivity. Qed.

Example glob_run_3 :
  glob test_fs (str "/ws") (str "*.ts") (Some (str "subdir"))
  = Normal (Success [str "subdir/code.ts"]).
Proof. reflexivity. Qed.

Example glob_run_4 :
  glob test_fs (str "/ws") (str "*") (Some (str "../../../"))
  = Normal (Failure msg_traversal).
Proof. reflexivity. Qed.

Example glob_run_5 :
  glob test_fs (str "/ws") (str "*") (Some (str "nonexistent"))
  = Normal (Failure (str "Directory not found: nonexistent")).
Proof. reflexivity. Qed.

Example glob_run_6 :
  glob test_fs (str "/ws") (str "*") (Some (str "file1.txt"))
  = Normal (Failure (str "Not a directory: file1.txt")).
Proof. reflexivity. Qed.

Example glob_run_7 :
  glob test_fs (str "/ws") (str "*") (Some (str "../ws-evil"))
  = Normal (Success [str "../ws-evil/secret.txt"]).
Proof. reflexivity. Qed.

(* ================================================================== *)
(** ** [executeRipgrep]: exit codes and launch failures *)
(* ================================================================== *)

Section ExecuteRipgrep.

Lemma fold_on_event_data : forall pre st,
  forallb is_data pre = true ->
  fold_left on_event pre st
  = mkRg (stdout st ++ stdout_of pre) (stderr st ++ stderr_of pre) (promise st).
Proof.
  induction pre as [|ev pre IH]; intros st Hq; simpl.
  - rewrite !app_nil_r. destruct st; reflexivity.
  - simpl in Hq. apply andb_true_iff in Hq as [Hev Hpre].
    rewrite IH by assumption.
    destruct ev; simpl in Hev; try discriminate; simpl;
      rewrite ?app_nil_r, ?app_assoc; reflexivity.
Qed.

Lemma settled_stays : forall events st,
  promise st <> Pending ->
  promise (fold_left on_event events st) = promise st.
Proof.
  induction events as [|ev events IH]; intros st Hs; simpl; [reflexivity|].
  assert (Hp : promise (on_event st ev) = promise st).
  { destruct ev; simpl; try reflexivity;
      destruct (promise st); simpl; congruence. }
  rewrite IH; rewrite Hp; auto.
Qed.

(** The promise is settled by the first [close] or [error] event, from
    the output gathered until then; later events change nothing. *)
Lemma executeRipgrep_first_settling_event : forall pre ev post,
  forallb is_data pre = true ->
  is_data ev = false ->
  executeRipgrep (pre ++ ev :: post)
  = promise (on_event (mkRg (stdout_of pre) (stderr_of pre) Pending) ev).
Proof.
  intros pre ev post Hpre Hev. unfold executeRipgrep.
  rewrite fold_left_app, (fold_on_event_data pre) by assumption. simpl.
  apply settled_stays.
  destruct ev; simpl in *; try discriminate.
  - destruct (is_zero_or_one exit_code); discriminate.
  - destruct (has_code "ENOENT" error); discriminate.
Qed.

Lemma executeRipgrep_close : forall pre c post,
  forallb is_data pre = true ->
  executeRipgrep (pre ++ Close c :: post)
  = if is_zero_or_one c then Resolved (stdout_of pre)
    else Rejected (Error (exit_message (stderr_of pre) c)).
Proof.
  intros. rewrite executeRipgrep_first_settling_event by auto. reflexivity.
Qed.

Lemma executeRipgrep_error : forall pre e post,
  forallb is_data pre = true ->
  executeRipgrep (pre ++ SpawnError e :: post)
  = if has_code "ENOENT" e then Rejected (Error msg_not_installed) else Rejected e.
Proof.
  intros. rewrite executeRipgrep_first_settling_event by auto. reflexivity.
Qed.

Lemma executeRipgrep_pending : forall events,
  forallb is_data events = true -> executeRipgrep events = Pending.
Proof.
  intros. unfold executeRipgrep. rewrite fold_on_event_data by assumption. reflexivity.
Qed.

End ExecuteRipgrep.

Lemma grep_reaches_backend : forall rt workspace options,
  truthy (opt_pattern options) = true ->
  regexp_syntax_error rt (opt_pattern options) = None ->
  grep_within_workspace (process_cwd rt) workspace (grep_searchPath workspace options) = true ->
  grep rt workspace options
  = match executeRipgrep (spawn rt (grep_argv workspace options)) with
    | Pending => Pending
    | Rejected error => Resolved (Failure (message error))
    | Resolved rgOutput =>
        Resolved (Success (parseRipgrepOutput rt rgOutput (grep_output_mode options)
                             workspace options))
    end.
Proof.
  intros rt workspace options Hp Hr Hw. unfold grep, grep_body.
  rewrite Hp, Hr, Hw. simpl.
  destruct (executeRipgrep _); reflexivity.
Qed.

(** C7.  Whatever the backend does, once a search is dispatched (pattern
    present and valid, search path accepted): if the process closes with
    exit code 0 or 1, [grep] succeeds with the parse of everything the
    process wrote to standard output; if it closes with any other code
    (2 or more, or none at all), [grep] fails with the process's standard
    error text, or with "ripgrep exited with code N" when that is empty;
    if the launch fails, [grep] fails, and with the dedicated message
    "ripgrep (rg) is not installed or not in PATH" when the binary is
    missing (ENOENT), a message that no exit-code message equals.  No
    such failure is reported as a success. *)
Theorem grep_exit_code_contract : forall rt workspace options pre post,
  truthy (opt_pattern options) = true ->
  regexp_syntax_error rt (opt_pattern options) = None ->
  grep_within_workspace (process_cwd rt) workspace (grep_searchPath workspace options) = true ->
  forallb is_data pre = true ->
  (forall c, spawn rt (grep_argv workspace options) = pre ++ Close (Some c) :: post ->
     (c = 0 \/ c = 1)%Z ->
     grep rt workspace options
     = Resolved (Success (parseRipgrepOutput rt (stdout_of pre) (grep_output_mode options)
                            workspace options)))
  /\ (forall c, spawn rt (grep_argv workspace options) = pre ++ Close (Some c) :: post ->
        (2 <= c)%Z ->
        grep rt workspace options
        = Resolved (Failure (if truthy (stderr_of pre) then stderr_of pre
                             else str "ripgrep exited with code " ++ show_Z c)))
  /\ (forall c, spawn rt (grep_argv workspace options) = pre ++ Close c :: post ->
        is_zero_or_one c = false ->
        exists error, grep rt workspace options = Resolved (Failure error))
  /\ (forall e, spawn rt (grep_argv workspace options) = pre ++ SpawnError e :: post ->
        code e = Some (str "ENOENT") ->
        grep rt workspace options
        = Resolved (Failure (str "ripgrep (rg) is not installed or not in PATH")))
  /\ (forall e, spawn rt (grep_argv workspace options) = pre ++ SpawnError e :: post ->
        exists error, grep rt workspace options = Resolved (Failure error))
  /\ (forall c, str "ripgrep (rg) is not installed or not in PATH"
                <> str "ripgrep exited with code " ++ show_code c).
Proof.
  intros rt workspace options pre post Hp Hr Hw Hpre.
  pose proof (grep_reaches_backend rt workspace options Hp Hr Hw) as Hg.
  repeat split.
  - intros c Hs Hc. rewrite Hg, Hs, executeRipgrep_close by assumption.
    destruct Hc; subst; reflexivity.
  - intros c Hs Hc. rewrite Hg, Hs, executeRipgrep_close by assumption.
    assert (is_zero_or_one (Some c) = false) as ->.
    { simpl. apply orb_false_iff. split; apply Z.eqb_neq; lia. }
    reflexivity.
  - intros c Hs Hc. rewrite Hg, Hs, executeRipgrep_close by assumption.
    rewrite Hc. eexists; reflexivity.
  - intros e Hs He. rewrite Hg, Hs, executeRipgrep_error by assumption.
    unfold has_code. rewrite He.
    unfold str_eqb. destruct (jsstring_eq_dec _ _); [reflexivity | congruence].
  - intros e Hs. rewrite Hg, Hs, executeRipgrep_error by assumption.
    destruct (has_code "ENOENT" e); eexists; reflexivity.
  - intros c H. cbn in H. discriminate H.
Qed.

Example grep_no_matches :
  grep (sample_runtime [] 1) (str "/ws") (no_options (str "nothing"))
  = Resolved (Success (FilesWithMatchesResult [])).
Proof. reflexivity. Qed.

Example grep_backend_error :
  grep (mkRuntime (fun _ => None)
          (fun _ => [StderrData (str "rg: unrecognized flag"); Close (Some 2%Z)])
          (fun _ => EvOther) (str "/"))
       (str "/ws") (no_options (str "x"))
  = Resolved (Failure (str "rg: unrecognized flag")).
Proof. reflexivity. Qed.

Example grep_backend_missing :
  grep (mkRuntime (fun _ => None)
          (fun _ => [SpawnError (mkError (Some (str "ENOENT")) (str "spawn rg ENOENT"));
                     Close (Some (-2)%Z)])
          (fun _ => EvOther) (str "/"))
       (str "/ws") (no_options (str "x"))
  = Resolved (Failure (str "ripgrep (rg) is not installed or not in PATH")).
Proof. reflexivity. Qed.

Lemma grep_exit_code_contract_witness :
  grep (sample_runtime (str "/ws/file1.txt" ++ [10%N]) 0) (str "/ws") (no_options (str "Hello"))
  = Resolved (Success (FilesWithMatchesResult [str "file1.txt"])).
Proof.
  exact (proj1 (grep_exit_code_contract
                  (sample_runtime (str "/ws/file1.txt" ++ [10%N]) 0) (str "/ws")
                  (no_options (str "Hello"))
                  [StdoutData (str "/ws/file1.txt" ++ [10%N])] []
                  eq_refl eq_refl eq_refl eq_refl)
               0%Z eq_refl (or_introl eq_refl)).
Defined.

(* ================================================================== *)
(** ** JavaScript maps *)
(* ================================================================== *)

Lemma str_eqb_refl : forall a, str_eqb a a = true.
Proof. intros a. unfold str_eqb. destruct (jsstring_eq_dec a a); congruence. Qed.

Lemma str_eqb_eq : forall a b, str_eqb a b = true <-> a = b.
Proof.
  intros a b. unfold str_eqb. destruct (jsstring_eq_dec a b); split; congruence.
Qed.

Lemma str_eqb_neq : forall a b, str_eqb a b = false <-> a <> b.
Proof.
  intros a b. unfold str_eqb. destruct (jsstring_eq_dec a b); split; congruence.
Qed.

Lemma truthy_nonempty : forall s, truthy s = true <-> s <> [].
Proof. destruct s; simpl; split; congruence. Qed.

Section JsMaps.
Variable V : Type.
Implicit Types (m : JsMap V) (k : jsstring).


Lemma map_has_in_keys : forall k m, map_has k m = true <-> In k (map fst m).
Proof.
  intros k m. unfold map_has. induction m as [|[k' v'] m IH]; simpl.
  - split; [discriminate | tauto].
  - destruct (str_eqb k' k) eqn:E.
    + apply str_eqb_eq in E. split; auto.
    + apply str_eqb_neq in E. rewrite IH. split; [auto | intros [H|H]; congruence].
Qed.

Lemma map_set_fresh : forall k v m, map_has k m = false -> map_set k v m = m ++ [(k, v)].
Proof.
  intros k v m. unfold map_has. induction m as [|[k' v'] m IH]; simpl; intros H.
  - reflexivity.
  - destruct (str_eqb k' k); [discriminate|]. rewrite IH by assumption. reflexivity.
Qed.



End JsMaps.

Section JsMapPush.
Variable V : Type.
Implicit Types (m : JsMap (list V)) (k : jsstring).




Lemma map_push_values : forall (P : V -> Prop) k x m,
  P x ->
  Forall (fun kv => Forall P (snd kv)) m ->
  Forall (fun kv => Forall P (snd kv)) (map_push k x m).
Proof.
  intros P k x m Hx. induction m as [|[k' v'] m IH]; simpl; intros H; [constructor|].
  inversion H as [|? ? Hv Hm]; subst. simpl in Hv.
  destruct (str_eqb k' k); constructor; simpl; auto.
  apply Forall_app; auto.
Qed.

End JsMapPush.

(* ================================================================== *)
(** ** [parseContentOutput] *)
(* ================================================================== *)

Section ParseContent.
Variables cwd workspace : jsstring.






(** Every record ever stored comes out of [make_match]. *)
Lemma handle_line_values : forall options (P : GrepMatch -> Prop) st ev,
  (forall n t s, P (make_match options n t s)) ->
  Forall (fun kv => Forall P (snd kv)) (fileMap st) ->
  Forall (fun kv => Forall P (snd kv)) (fileMap (handle_line cwd workspace options st ev)).
Proof.
  intros options P st ev HP H. destruct ev as [p | n t s | n t | ]; simpl; auto.
  - destruct (map_has _ _) eqn:E; auto.
    rewrite map_set_fresh by assumption. apply Forall_app. split; auto.
  - destruct (currentFile st) as [f|]; auto. destruct (truthy f); auto.
    simpl. apply map_push_values; auto.
  - destruct (currentFile st) as [f|]; auto. destruct (truthy f); auto.
Qed.

Lemma run_lines_values : forall options (P : GrepMatch -> Prop) lines,
  (forall n t s, P (make_match options n t s)) ->
  Forall (fun kv => Forall P (snd kv)) (fileMap (run_lines cwd workspace options lines)).
Proof.
  intros options P lines HP. unfold run_lines.
  assert (H0 : Forall (fun kv => Forall P (snd kv)) (fileMap initial_state)) by constructor.
  revert H0. generalize initial_state.
  induction lines as [|ev lines IH]; intros st H; simpl; auto.
  apply IH. apply handle_line_values; auto.
Qed.







Lemma collect_results_In : forall m f ms,
  In (mkContent f ms) (collect_results m) <-> In (f, ms) m /\ ms <> [].
Proof.
  intros m f ms. unfold collect_results. rewrite in_flat_map. split.
  - intros [[k v] [Hin H]]. destruct v as [|x v]; [destruct H|].
    destruct H as [H|[]]. inversion H; subst. split; [assumption | discriminate].
  - intros [Hin Hne]. exists (f, ms). split; [assumption|].
    destruct ms; [congruence | now left].
Qed.

Lemma collect_results_nonempty : forall m,
  Forall (fun g => content_matches g <> []) (collect_results m).
Proof.
  intros m. apply Forall_forall. intros [f ms] H.
  apply collect_results_In in H. simpl. tauto.
Qed.




(** *** The column and the options *)

Lemma erase_make_match : forall o1 o2 n t s,
  erase_column (make_match o1 n t s) = erase_column (make_match o2 n t s).
Proof. reflexivity. Qed.

Lemma assoc_erase_map : forall k m,
  assoc k (erase_map m) = option_map (map erase_column) (assoc k m).
Proof.
  intros k m. induction m as [|[k' v'] m IH]; simpl; [reflexivity|].
  destruct (str_eqb k' k); auto.
Qed.

Lemma map_has_erase_map : forall k m, map_has k (erase_map m) = map_has k m.
Proof.
  intros. unfold map_has. rewrite assoc_erase_map. now destruct (assoc k m).
Qed.

Lemma erase_map_set : forall k m,
  erase_map (map_set k [] m) = map_set k [] (erase_map m).
Proof.
  intros k m. induction m as [|[k' v'] m IH]; simpl; [reflexivity|].
  destruct (str_eqb k' k); simpl; congruence.
Qed.

Lemma erase_map_push : forall k x m,
  erase_map (map_push k x m) = map_push k (erase_column x) (erase_map m).
Proof.
  intros k x m. induction m as [|[k' v'] m IH]; simpl; [reflexivity|].
  destruct (str_eqb k' k); simpl; [|congruence].
  now rewrite map_app.
Qed.

Lemma handle_line_erase : forall o1 o2 st1 st2 ev,
  currentFile st1 = currentFile st2 ->
  erase_map (fileMap st1) = erase_map (fileMap st2) ->
  currentFile (handle_line cwd workspace o1 st1 ev)
  = currentFile (handle_line cwd workspace o2 st2 ev)
  /\ erase_map (fileMap (handle_line cwd workspace o1 st1 ev))
     = erase_map (fileMap (handle_line cwd workspace o2 st2 ev)).
Proof.
  intros o1 o2 st1 st2 ev Hc Hm. destruct ev as [p | n t s | n t | ]; simpl.
  - split; [reflexivity|].
    rewrite <- (map_has_erase_map _ (fileMap st1)), <- (map_has_erase_map _ (fileMap st2)), Hm.
    destruct (map_has _ _); [assumption|].
    now rewrite !erase_map_set, Hm.
  - rewrite <- Hc.
    destruct (currentFile st1) as [f|] eqn:E; [|simpl; split; congruence].
    destruct (truthy f); [|simpl; split; congruence]. simpl. split; [congruence|].
    now rewrite !erase_map_push, Hm.
  - rewrite <- Hc.
    destruct (currentFile st1) as [f|] eqn:E; [|simpl; split; congruence].
    destruct (truthy f); simpl; split; congruence.
  - split; assumption.
Qed.

Lemma fold_handle_erase : forall o1 o2 lines st1 st2,
  currentFile st1 = currentFile st2 ->
  erase_map (fileMap st1) = erase_map (fileMap st2) ->
  erase_map (fileMap (fold_left (handle_line cwd workspace o1) lines st1))
  = erase_map (fileMap (fold_left (handle_line cwd workspace o2) lines st2)).
Proof.
  induction lines as [|ev lines IH]; simpl; intros st1 st2 Hc Hm; [assumption|].
  destruct (handle_line_erase o1 o2 st1 st2 ev Hc Hm). apply IH; assumption.
Qed.

Lemma collect_results_erase : forall m,
  map erase_columns (collect_results m) = collect_results (erase_map m).
Proof.
  induction m as [|[k v] m IH]; simpl; [reflexivity|].
  rewrite map_app, IH. destruct v; reflexivity.
Qed.

Lemma erase_column_id : forall m, column m = None -> erase_column m = m.
Proof. intros [l c col b a]; simpl; intros ->; reflexivity. Qed.

Lemma all_matches_forall : forall (P : GrepMatch -> Prop) m,
  Forall (fun kv => Forall P (snd kv)) m ->
  Forall (fun g => Forall P (content_matches g)) (collect_results m).
Proof.
  intros P m H. apply Forall_forall. intros [f ms] Hin.
  apply collect_results_In in Hin as [Hin _].
  rewrite Forall_forall in H. exact (H _ Hin).
Qed.

(** C10.  The options reach a match record through its [column] alone:
    (1) two runs on the same lines under any two option sets agree on
        paths, order, [line], [content] and context fields of every
        record; they can differ in [column] only;
    (2) under ['-n': false] the result is the result under any other
        options with every [column] removed;
    (3) a record has no [column] exactly when ['-n'] is [false]; with
        ['-n'] unset or [true] every record has one. *)
Theorem parseContentOutput_line_number_option : forall options options' lines,
  map erase_columns (content_data (parseContentOutput cwd lines workspace options))
  = map erase_columns (content_data (parseContentOutput cwd lines workspace options'))
  /\ content_data (parseContentOutput cwd lines workspace (with_n false options'))
     = map erase_columns (content_data (parseContentOutput cwd lines workspace options'))
  /\ Forall (fun g =>
               Forall (fun m =>
                         (column m = None <-> opt_n options = Some false)
                         /\ (opt_n options = None \/ opt_n options = Some true ->
                             exists c, column m = Some c))
                      (content_matches g))
            (content_data (parseContentOutput cwd lines workspace options)).
Proof.
  intros options options' lines.
  assert (Herase : forall o1 o2,
             map erase_columns (content_data (parseContentOutput cwd lines workspace o1))
             = map erase_columns (content_data (parseContentOutput cwd lines workspace o2))).
  { intros o1 o2. simpl. rewrite !collect_results_erase. f_equal.
    unfold run_lines. apply fold_handle_erase; reflexivity. }
  assert (Hcol : forall o,
             Forall (fun g =>
                       Forall (fun m =>
                                 (column m = None <-> opt_n o = Some false)
                                 /\ (opt_n o = None \/ opt_n o = Some true ->
                                     exists c, column m = Some c))
                              (content_matches g))
                    (content_data (parseContentOutput cwd lines workspace o))).
  { intros o. simpl. apply all_matches_forall. apply run_lines_values.
    intros n t s. unfold make_match, with_column. simpl.
    destruct (opt_n o) as [[|]|]; simpl; split;
      try (split; congruence); try (intros [?|?]; try discriminate; eauto). }
  split; [apply Herase|]. split; [|apply Hcol].
  rewrite <- (Herase (with_n false options') options').
  symmetry. rewrite <- (map_id (content_data _)) at 2.
  apply map_ext_in. intros [f ms] Hin. unfold erase_columns. simpl. f_equal.
  rewrite <- (map_id ms) at 2. apply map_ext_in. intros m Hm.
  apply erase_column_id.
  pose proof (Hcol (with_n false options')) as H.
  rewrite Forall_forall in H. specialize (H _ Hin). simpl in H.
  rewrite Forall_forall in H. apply (H _ Hm). reflexivity.
Qed.

(** *** Context lines *)

Lemma handle_line_context : forall options st l t,
  fileMap (handle_line cwd workspace options st (EvContext l t)) = fileMap st
  /\ currentFile (handle_line cwd workspace options st (EvContext l t)) = currentFile st.
Proof.
  intros. simpl. destruct (currentFile st) as [f|] eqn:E; [|auto].
  destruct (truthy f); simpl; split; congruence.
Qed.

(** [fileMap] and [currentFile] evolve without looking at [contextMap]. *)
Lemma handle_line_frame : forall options st1 st2 ev,
  fileMap st1 = fileMap st2 -> currentFile st1 = currentFile st2 ->
  fileMap (handle_line cwd workspace options st1 ev)
  = fileMap (handle_line cwd workspace options st2 ev)
  /\ currentFile (handle_line cwd workspace options st1 ev)
     = currentFile (handle_line cwd workspace options st2 ev).
Proof.
  intros options st1 st2 ev Hm Hc. destruct ev as [p | n t s | n t | ]; simpl.
  - rewrite Hm. auto.
  - rewrite <- Hc, <- Hm.
    destruct (currentFile st1) as [f|] eqn:E; [|split; congruence].
    destruct (truthy f); simpl; split; congruence.
  - rewrite <- Hc.
    destruct (currentFile st1) as [f|] eqn:E; [|split; congruence].
    destruct (truthy f); simpl; split; congruence.
  - auto.
Qed.

Lemma fold_handle_without_context : forall options lines st1 st2,
  fileMap st1 = fileMap st2 -> currentFile st1 = currentFile st2 ->
  fileMap (fold_left (handle_line cwd workspace options) lines st1)
  = fileMap (fold_left (handle_line cwd workspace options)
               (filter (fun ev => negb (is_context ev)) lines) st2).
Proof.
  induction lines as [|ev lines IH]; simpl; intros st1 st2 Hm Hc; [assumption|].
  destruct (is_context ev) eqn:Ectx; simpl.
  - destruct ev; try discriminate.
    destruct (handle_line_context options st1 line_number lines_text) as [H1 H2].
    apply IH; congruence.
  - destruct (handle_line_frame options st1 st2 ev Hm Hc). apply IH; assumption.
Qed.

(** C6, as the code has it.  Context lines are read and dropped: the
    result is the result for the same lines with every [context] line
    removed, and no returned match record has a [beforeContext] or an
    [afterContext], whatever window the options ask for. *)
Theorem parseContentOutput_ignores_context : forall options lines,
  parseContentOutput cwd lines workspace options
  = parseContentOutput cwd (filter (fun ev => negb (is_context ev)) lines) workspace options
  /\ Forall (fun g =>
               Forall (fun m => beforeContext m = None /\ afterContext m = None)
                      (content_matches g))
            (content_data (parseContentOutput cwd lines workspace options)).
Proof.
  intros options lines. split.
  - unfold parseContentOutput, run_lines. f_equal. f_equal.
    apply fold_handle_without_context; reflexivity.
  - simpl. apply all_matches_forall. apply run_lines_values.
    intros n t s. split; reflexivity.
Qed.

(** *** Match lines *)



End ParseContent.



(** C6, as the specification has it, fails on the output of a search
    with one line of context around a single match: the context lines
    before and after the match lie in its window, and the one record
    returned holds neither. *)
Lemma parseContentOutput_context_counterexample :
  parseContentOutput (str "/") sample_context_lines (str "/ws")
    (with_C 1 (no_options (str "hit")))
  = ContentResult [mkContent (str "a.txt") [mkMatch 4 (str "a hit") (Some 3%Z) None None]]
  /\ ~ context_associated (str "/") (str "/ws") (with_C 1 (no_options (str "hit")))
         sample_context_lines
         (content_data (parseContentOutput (str "/") sample_context_lines (str "/ws")
                          (with_C 1 (no_options (str "hit"))))).
Proof.
  split; [reflexivity|].
  intros H.
  specialize (H (str "a.txt") 3%Z (str "before" ++ [10%N])
                (mkContent (str "a.txt") [mkMatch 4 (str "a hit") (Some 3%Z) None None])).
  destruct H as [m [Hin [_ Hholds]]].
  - exists [EvBegin (str "/ws/a.txt")].
    exists [EvMatch 4 (str "a hit" ++ [10%N]) (Some [mkSubmatch 2]);
            EvContext 5 (str "after" ++ [10%N]); EvOther].
    split; reflexivity.
  - left. reflexivity.
  - reflexivity.
  - eexists. split; [left; reflexivity|].
    left. simpl. unfold context_before. simpl. lia.
  - destruct Hin as [<-|[]].
    destruct Hholds as [[ctx [Hc _]]|[ctx [Hc _]]]; discriminate.
Qed.

(* ================================================================== *)
(** ** [parseCountOutput] *)
(* ================================================================== *)

Section ParseCount.



Lemma substring_prefix : forall (p : jsstring) rest, substring (p ++ rest) 0 (length p) = p.
Proof.
  intros. unfold substring. simpl. rewrite Nat.sub_0_r.
  rewrite firstn_app, Nat.sub_diag, firstn_all. simpl. now rewrite app_nil_r.
Qed.









Variables cwd workspace : jsstring.



End ParseCount.



(* ================================================================== *)
(** ** Failures of [glob] and [grep] *)
(* ================================================================== *)

Lemma glob_never_throws : forall fs workspace pattern searchPath,
  exists r, glob fs workspace pattern searchPath = Normal r.
Proof.
  intros. unfold glob, try_catch.
  destruct (glob_body fs workspace pattern searchPath); eexists; reflexivity.
Qed.


Lemma truthy_false_empty : forall s, truthy s = false <-> s = [].
Proof. destruct s; simpl; split; congruence. Qed.




(* ================================================================== *)
(** ** The traversal checks compare strings, not path segments *)
(* ================================================================== *)

(** C2 at [workspace = "/ws"], [searchPath = "../ws-evil"].  The search
    path resolves to [/ws-evil], a sibling of the workspace and outside
    it; as a string it starts with "/ws", so both checks let it through:
    [glob] succeeds and returns a path that leaves the workspace, and
    [grep] runs the backend on the sibling directory and succeeds. *)
Theorem traversal_check_accepts_sibling :
  Path.resolve (str "/") [glob_basePath (str "/ws") (Some (str "../ws-evil"))]
  = str "/ws-evil"
  /\ inside_workspace (str "/") (str "/ws")
       (glob_basePath (str "/ws") (Some (str "../ws-evil"))) = false
  /\ glob test_fs (str "/ws") (str "*") (Some (str "../ws-evil"))
     = Normal (Success [str "../ws-evil/secret.txt"])
  /\ inside_workspace (str "/") (str "/ws")
       (Path.resolve (str "/") [str "/ws"; str "../ws-evil/secret.txt"]) = false
  /\ grep (sample_runtime (str "/ws-evil/secret.txt" ++ [10%N]) 0) (str "/ws")
          (with_path (str "../ws-evil") (no_options (str "key")))
     = Resolved (Success (FilesWithMatchesResult [str "../ws-evil/secret.txt"])).
Proof. repeat split; reflexivity. Qed.

(** A path that climbs out without sharing the prefix is rejected by both. *)
Example traversal_check_rejects_parent :
  glob test_fs (str "/ws") (str "*") (Some (str "../../../"))
  = Normal (Failure msg_traversal)
  /\ grep (sample_runtime [] 1) (str "/ws") (with_path (str "../other") (no_options (str "key")))
     = Resolved (Failure msg_search_path).
Proof. split; reflexivity. Qed.

(* ================================================================== *)
(** ** [globToRegex]: from the pattern to the regular expression *)
(* ================================================================== *)

Section GlobCompile.

(** Induction along the scan of the pattern. *)
Lemma glob_pattern_ind : forall P : jsstring -> Prop,
  P [] ->
  (forall p3, P p3 -> P (ch "*" :: ch "*" :: ch "/" :: p3)) ->
  (forall p2, head_is (ch "/") p2 = false -> P p2 -> P (ch "*" :: ch "*" :: p2)) ->
  (forall p1, head_is (ch "*") p1 = false -> P p1 -> P (ch "*" :: p1)) ->
  (forall c p1, c <> ch "*" -> P p1 -> P (c :: p1)) ->
  forall p, P p.
Proof.
  intros P Hnil Hgs Hg Hs Hc p.
  assert (H : forall n p, length p <= n -> P p).
  { induction n as [|n IH]; intros q Hq.
    - destruct q; [exact Hnil | simpl in Hq; lia].
    - destruct q as [|c q]; [exact Hnil|]. simpl in Hq.
      destruct (N.eq_dec c (ch "*")) as [->|Hne].
      + destruct q as [|c1 q]; [apply Hs; [reflexivity | exact Hnil]|]. simpl in Hq.
        destruct (N.eq_dec c1 (ch "*")) as [->|Hne1].
        * destruct q as [|c2 q]; [apply Hg; [reflexivity | exact Hnil]|]. simpl in Hq.
          destruct (N.eq_dec c2 (ch "/")) as [->|Hne2].
          -- apply Hgs. apply IH. lia.
          -- apply Hg; [simpl; now apply N.eqb_neq | apply IH; simpl; lia].
        * apply Hs; [simpl; now apply N.eqb_neq | apply IH; simpl; lia].
      + apply Hc; [assumption | apply IH; lia]. }
  apply (H (length p)). lia.
Qed.

Lemma loop_globstar_slash : forall p3,
  globToRegex_loop (ch "*" :: ch "*" :: ch "/" :: p3) = str "(?:.*/)?" ++ globToRegex_loop p3.
Proof. reflexivity. Qed.

Lemma loop_globstar : forall p2,
  head_is (ch "/") p2 = false ->
  globToRegex_loop (ch "*" :: ch "*" :: p2) = str ".*" ++ globToRegex_loop p2.
Proof.
  intros [|c2 p3] H; [reflexivity|]. unfold head_is in H.
  cbn [globToRegex_loop]. change (N.eqb (ch "*") (ch "*")) with true. cbv iota.
  now rewrite H.
Qed.

Lemma loop_star : forall p1,
  head_is (ch "*") p1 = false ->
  globToRegex_loop (ch "*" :: p1) = str "[^/]*" ++ globToRegex_loop p1.
Proof.
  intros [|c1 p2] H; [reflexivity|]. unfold head_is in H.
  cbn [globToRegex_loop]. change (N.eqb (ch "*") (ch "*")) with true. cbv iota.
  now rewrite H.
Qed.

Lemma loop_other : forall c p1,
  c <> ch "*" ->
  globToRegex_loop (c :: p1)
  = if N.eqb c (ch "?") then str "[^/]" ++ globToRegex_loop p1
    else if regex_special c then ch "\" :: c :: globToRegex_loop p1
    else c :: globToRegex_loop p1.
Proof.
  intros c p1 H. apply N.eqb_neq in H. cbn [globToRegex_loop]. now rewrite H.
Qed.

Lemma tokens_globstar_slash : forall p3,
  glob_tokens (ch "*" :: ch "*" :: ch "/" :: p3) = GGlobstarSlash :: glob_tokens p3.
Proof. reflexivity. Qed.

Lemma tokens_globstar : forall p2,
  head_is (ch "/") p2 = false ->
  glob_tokens (ch "*" :: ch "*" :: p2) = GGlobstar :: glob_tokens p2.
Proof.
  intros [|c2 p3] H; [reflexivity|]. unfold head_is in H.
  cbn [glob_tokens]. change (N.eqb (ch "*") (ch "*")) with true. cbv iota.
  now rewrite H.
Qed.

Lemma tokens_star : forall p1,
  head_is (ch "*") p1 = false ->
  glob_tokens (ch "*" :: p1) = GStar :: glob_tokens p1.
Proof.
  intros [|c1 p2] H; [reflexivity|]. unfold head_is in H.
  cbn [glob_tokens]. change (N.eqb (ch "*") (ch "*")) with true. cbv iota.
  now rewrite H.
Qed.

Lemma tokens_other : forall c p1,
  c <> ch "*" ->
  glob_tokens (c :: p1)
  = (if N.eqb c (ch "?") then GQuestion else GChar c) :: glob_tokens p1.
Proof.
  intros c p1 H. apply N.eqb_neq in H. cbn [glob_tokens]. rewrite H.
  now destruct (N.eqb c (ch "?")).
Qed.

(** The escaping branch covers every syntax character that the two
    wildcard branches leave. *)
Lemma syntax_char_split : forall c,
  RegExp.syntax_char c = regex_special c || N.eqb c (ch "*") || N.eqb c (ch "?").
Proof.
  intros c. unfold RegExp.syntax_char, regex_special. cbn.
  repeat match goal with
         | |- context [N.eqb c ?k] =>
             destruct (N.eqb_spec c k); [subst; reflexivity|]
         end.
  reflexivity.
Qed.

Lemma tokenize_group : forall r,
  RegExp.tokenize (str "(?:.*/)?" ++ r)
  = option_map (app (tokens_of GGlobstarSlash)) (RegExp.tokenize r).
Proof. intros r. cbn. destruct (RegExp.tokenize r); reflexivity. Qed.

Lemma tokenize_dot_star : forall r,
  RegExp.tokenize (str ".*" ++ r) = option_map (app (tokens_of GGlobstar)) (RegExp.tokenize r).
Proof. intros r. cbn. destruct (RegExp.tokenize r); reflexivity. Qed.

Lemma tokenize_class_star : forall r,
  RegExp.tokenize (str "[^/]*" ++ r) = option_map (app (tokens_of GStar)) (RegExp.tokenize r).
Proof. intros r. cbn. destruct (RegExp.tokenize r); reflexivity. Qed.

Lemma tokenize_class : forall r,
  RegExp.tokenize (str "[^/]" ++ r) = option_map (app (tokens_of GQuestion)) (RegExp.tokenize r).
Proof. intros r. cbn. destruct (RegExp.tokenize r); reflexivity. Qed.

Lemma tokenize_escaped : forall c r,
  regex_special c = true ->
  RegExp.tokenize (ch "\" :: c :: r) = option_map (cons (RegExp.TChar c)) (RegExp.tokenize r).
Proof.
  intros c r H. cbn [RegExp.tokenize].
  change (N.eqb (ch "\") (ch "\")) with true. cbv iota.
  now rewrite syntax_char_split, H.
Qed.

Lemma regex_special_chars : forall c,
  regex_special c = false ->
  N.eqb c (ch "\") = false /\ N.eqb c (ch ".") = false /\ N.eqb c (ch "^") = false
  /\ N.eqb c (ch "$") = false /\ N.eqb c (ch ")") = false /\ N.eqb c (ch "(") = false
  /\ N.eqb c (ch "[") = false.
Proof.
  intros c H. unfold regex_special in H. cbn in H.
  repeat match type of H with
         | (_ || _) = false => apply orb_false_iff in H; destruct H as [? H]
         end.
  repeat split; assumption.
Qed.

Lemma tokenize_plain : forall c r,
  c <> ch "*" -> c <> ch "?" -> regex_special c = false ->
  RegExp.tokenize (c :: r) = option_map (cons (RegExp.TChar c)) (RegExp.tokenize r).
Proof.
  intros c r Hs Hq H.
  assert (Hsyn : RegExp.syntax_char c = false).
  { rewrite syntax_char_split, H. apply N.eqb_neq in Hs, Hq. now rewrite Hs, Hq. }
  destruct (regex_special_chars c H) as (H1 & H2 & H3 & H4 & H5 & H6 & H7).
  apply N.eqb_neq in Hs, Hq.
  cbn [RegExp.tokenize]. now rewrite H1, H2, Hs, Hq, H3, H4, H5, H6, H7, Hsyn.
Qed.

(** The text built by the loop lexes as the tokens of the pattern. *)
Lemma tokenize_loop : forall p r ts,
  RegExp.tokenize r = Some ts ->
  RegExp.tokenize (globToRegex_loop p ++ r)
  = Some (flat_map tokens_of (glob_tokens p) ++ ts).
Proof.
  intros p r ts Hr. induction p as [| p3 IH | p2 Hh IH | p1 Hh IH | c p1 Hc IH]
    using glob_pattern_ind.
  - exact Hr.
  - rewrite loop_globstar_slash, tokens_globstar_slash, <- app_assoc, tokenize_group, IH.
    reflexivity.
  - rewrite loop_globstar, tokens_globstar, <- app_assoc, tokenize_dot_star, IH by assumption.
    reflexivity.
  - rewrite loop_star, tokens_star, <- app_assoc, tokenize_class_star, IH by assumption.
    reflexivity.
  - rewrite loop_other, tokens_other by assumption.
    destruct (N.eqb_spec c (ch "?")) as [->|Hq].
    + rewrite <- app_assoc, tokenize_class, IH. reflexivity.
    + destruct (regex_special c) eqn:Hsp.
      * simpl app. rewrite tokenize_escaped, IH by assumption. reflexivity.
      * simpl app. rewrite tokenize_plain, IH by assumption. reflexivity.
Qed.

Lemma tokens_no_quantifier_first : forall toks,
  RegExp.starts_with_quantifier (flat_map tokens_of toks) = false.
Proof. intros [|[| | | |c] toks]; reflexivity. Qed.

(** The tokens parse as one term per pattern token. *)
Lemma parse_tokens : forall toks,
  RegExp.parse_terms None (flat_map tokens_of toks) = Some (map term_of toks).
Proof.
  induction toks as [|t toks IH]; [reflexivity|].
  pose proof (tokens_no_quantifier_first toks) as Hq.
  destruct t; cbn [flat_map tokens_of app map term_of RegExp.parse_terms RegExp.atom_of].
  - rewrite Hq, IH. reflexivity.
  - rewrite Hq. cbn [rev app]. rewrite IH. reflexivity.
  - rewrite Hq, IH. reflexivity.
  - destruct (flat_map tokens_of toks) as [|t' ts'] eqn:E.
    + simpl in IH. injection IH as <-. reflexivity.
    + destruct t'; try discriminate; rewrite IH; reflexivity.
  - destruct (flat_map tokens_of toks) as [|t' ts'] eqn:E.
    + simpl in IH. injection IH as <-. reflexivity.
    + destruct t'; try discriminate; rewrite IH; reflexivity.
Qed.

(** [split] then [join] with the same separator gives the string back:
    on POSIX the normalization of the pattern changes nothing. *)
Lemma split_nonempty : forall sep s, split sep s <> [].
Proof.
  intros sep s. destruct s as [|c s]; simpl; [discriminate|].
  destruct (N.eqb c sep); [discriminate|]. destruct (split sep s); discriminate.
Qed.

Lemma join_cons : forall sep p ps,
  ps <> [] -> join sep (p :: ps) = p ++ sep ++ join sep ps.
Proof. intros sep p [|q ps] H; [congruence | reflexivity]. Qed.

Lemma join_split : forall sep s, join [sep] (split sep s) = s.
Proof.
  intros sep s. induction s as [|c s IH]; [reflexivity|].
  cbn [split]. destruct (N.eqb_spec c sep) as [->|Hne].
  - rewrite join_cons by apply split_nonempty. now rewrite IH.
  - pose proof (split_nonempty sep s) as Hs.
    destruct (split sep s) as [|w ws]; [congruence|].
    destruct ws as [|w' ws].
    + simpl in *. now subst.
    + rewrite join_cons in * by discriminate. simpl. now rewrite <- IH.
Qed.

Lemma pattern_normalization : forall p, join (str "/") (split path_sep p) = p.
Proof. intros. apply join_split. Qed.

(** The source text always compiles, to the terms of the tokens. *)
Lemma globToRegex_compiles : forall pattern,
  globToRegex pattern = Some (map term_of (glob_tokens pattern)).
Proof.
  intros pattern. unfold globToRegex, globToRegex_source, RegExp.compile.
  rewrite pattern_normalization.
  change (str "^" ++ globToRegex_loop pattern ++ str "$")
    with (ch "^" :: globToRegex_loop pattern ++ str "$").
  cbn [RegExp.tokenize].
  change (N.eqb (ch "^") (ch "\")) with false.
  change (N.eqb (ch "^") (ch ".")) with false.
  change (N.eqb (ch "^") (ch "*")) with false.
  change (N.eqb (ch "^") (ch "?")) with false.
  change (N.eqb (ch "^") (ch "^")) with true. cbv iota.
  rewrite (tokenize_loop pattern (str "$") [RegExp.TDollar]) by reflexivity.
  cbn [option_map]. rewrite rev_app_distr. cbn [rev app].
  rewrite rev_involutive. apply parse_tokens.
Qed.

Lemma glob_test_matches : forall pattern path,
  glob_test pattern path = Some (RegExp.match_terms (map term_of (glob_tokens pattern)) path).
Proof. intros. unfold glob_test. rewrite globToRegex_compiles. reflexivity. Qed.

(** Compiling is total: whatever the pattern, the text that
    [globToRegex] builds is a regular expression of the fragment, with
    one term per token of the pattern, brackets and braces being
    literal characters. *)
Theorem globToRegex_total : forall pattern,
  globToRegex pattern = Some (map term_of (glob_tokens pattern))
  /\ (forall path, exists b, glob_test pattern path = Some b)
  /\ term_of (GChar (ch "[")) = RegExp.Atom (RegExp.Lit (ch "[")) RegExp.Once
  /\ glob_tokens (str "{a,b}[c]")
     = map GChar (str "{a,b}[c]").
Proof.
  intros pattern. split; [apply globToRegex_compiles|].
  split; [|split; reflexivity].
  intros path. rewrite glob_test_matches. eexists; reflexivity.
Qed.

End GlobCompile.

(* ================================================================== *)
(** ** [globToRegex]: what the regular expression accepts *)
(* ================================================================== *)

Section GlobMatch.

Lemma match_star_spec : forall a k s,
  RegExp.match_star a k s = true
  <-> exists run rest,
        s = run ++ rest
        /\ Forall (fun c => RegExp.atom_accepts a c = true) run
        /\ k rest = true.
Proof.
  intros a k s. induction s as [|c s IH]; cbn [RegExp.match_star].
  - rewrite orb_false_r. split.
    + intros H. exists [], []. repeat split; [constructor | assumption].
    + intros (run & rest & Hs & _ & Hk). symmetry in Hs.
      apply app_eq_nil in Hs as [_ ->]. assumption.
  - rewrite orb_true_iff, andb_true_iff, IH. split.
    + intros [Hk | [Hc (run & rest & -> & Hrun & Hk)]].
      * exists [], (c :: s). repeat split; [constructor | assumption].
      * exists (c :: run), rest. repeat split; [constructor; assumption | assumption].
    + intros (run & rest & Hs & Hrun & Hk). destruct run as [|d run].
      * left. simpl in Hs. now subst.
      * right. simpl in Hs. injection Hs as <- ->.
        inversion Hrun; subst. split; [assumption|].
        exists run, rest. repeat split; assumption.
Qed.

Lemma not_slash_accepts : forall run,
  Forall (fun c => RegExp.atom_accepts RegExp.NotSlash c = true) run <-> no_slash run.
Proof.
  intros run. unfold no_slash. rewrite !Forall_forall.
  split; intros H c Hc; specialize (H c Hc); simpl in *.
  - apply negb_true_iff, N.eqb_neq in H. assumption.
  - apply negb_true_iff, N.eqb_neq. assumption.
Qed.

Section Segments.
Variable wild : N -> bool.
Hypothesis wild_slash : wild (ch "/") = true.

(** A run that ends in [/] is a sequence of complete segments. *)
Lemma segments_of_run : forall w,
  Forall (fun c => wild c = true) w ->
  exists seg segs,
    Forall (segment wild) (seg :: segs) /\ concat (seg :: segs) = w ++ [ch "/"].
Proof.
  induction w as [|c w IH]; intros Hw.
  - exists [ch "/"], []. split; [|reflexivity].
    constructor; [|constructor]. exists []. repeat split; constructor.
  - inversion Hw as [|? ? Hc Hw']; subst.
    destruct (IH Hw') as (seg & segs & Hsegs & Hcat).
    inversion Hsegs as [|? ? Hseg Hrest]; subst.
    destruct (N.eq_dec c (ch "/")) as [->|Hne].
    + exists [ch "/"], (seg :: segs). split.
      * constructor; [|assumption]. exists []. repeat split; constructor.
      * cbn [concat app] in *. now rewrite Hcat.
    + destruct Hseg as (run & -> & Hns & Hwr).
      exists ((c :: run) ++ [ch "/"]), segs. split.
      * constructor; [|assumption]. exists (c :: run).
        repeat split; constructor; assumption.
      * cbn [concat app] in *. now rewrite Hcat.
Qed.

Lemma run_of_segments : forall segs,
  Forall (segment wild) segs -> segs <> [] ->
  exists w, concat segs = w ++ [ch "/"] /\ Forall (fun c => wild c = true) w.
Proof.
  induction segs as [|seg segs IH]; intros H Hne; [congruence|].
  inversion H as [|? ? (run & -> & Hns & Hwr) Hsegs]; subst.
  destruct segs as [|seg' segs].
  - exists run. simpl. rewrite app_nil_r. split; [reflexivity | assumption].
  - destruct (IH Hsegs) as (w & Hcat & Hw); [discriminate|].
    exists (run ++ [ch "/"] ++ w). split.
    + cbn [concat] in *. rewrite Hcat. now rewrite <- !app_assoc.
    + apply Forall_app; split; [assumption|].
      apply Forall_app; split; [repeat constructor; assumption | assumption].
Qed.

End Segments.

Lemma wild_in_code_slash : wild_in_code (ch "/") = true.
Proof. reflexivity. Qed.

(** The optional group [(?:.*/)?]. *)
Lemma match_group_spec : forall k s,
  RegExp.match_body [(RegExp.AnyChar, RegExp.Star); (RegExp.Lit (ch "/"), RegExp.Once)] k s
  || k s = true
  <-> exists segs rest,
        s = concat segs ++ rest /\ Forall (segment wild_in_code) segs /\ k rest = true.
Proof.
  intros k s. rewrite orb_true_iff.
  cbn [RegExp.match_body RegExp.match_quantified fst snd].
  rewrite match_star_spec. split.
  - intros [(run & rest & -> & Hrun & Hk) | Hk].
    + destruct rest as [|c rest]; [discriminate|].
      cbn [RegExp.atom_accepts] in Hk. apply andb_true_iff in Hk as [Hc Hk].
      apply N.eqb_eq in Hc. subst c.
      destruct (segments_of_run wild_in_code run Hrun)
        as (seg & segs & Hsegs & Hcat).
      exists (seg :: segs), rest. split; [|split; assumption].
      rewrite Hcat, <- app_assoc. reflexivity.
    + exists [], s. repeat split; [constructor | assumption].
  - intros (segs & rest & -> & Hsegs & Hk). destruct segs as [|seg segs].
    + right. assumption.
    + left. destruct (run_of_segments wild_in_code wild_in_code_slash (seg :: segs) Hsegs)
        as (w & Hcat & Hw); [discriminate|].
      exists w, (ch "/" :: rest). split; [|split; [assumption|]].
      * rewrite Hcat, <- app_assoc. reflexivity.
      * cbn [RegExp.atom_accepts]. now rewrite N.eqb_refl.
Qed.

(** The compiled expression accepts exactly what the tokens generate
    when [**] stands for characters other than line terminators. *)
Lemma match_terms_generates : forall toks path,
  RegExp.match_terms (map term_of toks) path = true
  <-> generates wild_in_code toks path.
Proof.
  induction toks as [|t toks IH]; intros path.
  - simpl. split.
    + destruct path; [constructor | discriminate].
    + intros H. inversion H. reflexivity.
  - destruct t; cbn [map term_of RegExp.match_terms RegExp.match_quantified fst snd].
    + rewrite match_star_spec. split.
      * intros (run & rest & -> & Hrun & Hk).
        constructor; [now apply not_slash_accepts | now apply IH].
      * intros H. inversion H; subst. eexists _, _.
        split; [reflexivity|]. split; [now apply not_slash_accepts | now apply IH].
    + rewrite match_group_spec. split.
      * intros (segs & rest & -> & Hsegs & Hk). constructor; [assumption | now apply IH].
      * intros H. inversion H; subst. eexists _, _.
        split; [reflexivity|]. split; [assumption | now apply IH].
    + rewrite match_star_spec. split.
      * intros (run & rest & -> & Hrun & Hk). constructor; [assumption | now apply IH].
      * intros H. inversion H; subst. eexists _, _.
        split; [reflexivity|]. split; [assumption | now apply IH].
    + split.
      * destruct path as [|c rest]; [discriminate|]. intros H.
        apply andb_true_iff in H as [Hc Hk]. simpl in Hc.
        apply negb_true_iff, N.eqb_neq in Hc.
        constructor; [assumption | now apply IH].
      * intros H. inversion H; subst. apply andb_true_iff. split.
        -- simpl. now apply negb_true_iff, N.eqb_neq.
        -- now apply IH.
    + split.
      * destruct path as [|d rest]; [discriminate|]. intros H.
        apply andb_true_iff in H as [Hc Hk]. simpl in Hc. apply N.eqb_eq in Hc. subst d.
        constructor. now apply IH.
      * intros H. inversion H; subst. apply andb_true_iff. split.
        -- simpl. apply N.eqb_refl.
        -- now apply IH.
Qed.

Lemma segment_weaken : forall (w1 w2 : N -> bool) seg,
  (forall c, w1 c = true -> w2 c = true) -> segment w1 seg -> segment w2 seg.
Proof.
  intros w1 w2 seg Hw (run & -> & Hns & Hr). exists run. repeat split; [assumption|].
  eapply Forall_impl; [|exact Hr]. exact Hw.
Qed.

Lemma generates_weaken : forall (w1 w2 : N -> bool) toks path,
  (forall c, w1 c = true -> w2 c = true) ->
  generates w1 toks path -> generates w2 toks path.
Proof.
  intros w1 w2 toks path Hw H. induction H; constructor; auto.
  - eapply Forall_impl; [|eassumption]. intros seg. now apply segment_weaken.
  - eapply Forall_impl; [|eassumption]. exact Hw.
Qed.

Lemma no_line_terminator_app : forall a b,
  no_line_terminator (a ++ b) <-> no_line_terminator a /\ no_line_terminator b.
Proof. intros. apply Forall_app. Qed.

Lemma no_line_terminator_wild : forall s,
  no_line_terminator s -> Forall (fun c => wild_in_code c = true) s.
Proof.
  intros s H. eapply Forall_impl; [|exact H].
  intros c Hc. unfold wild_in_code. now rewrite Hc.
Qed.

Lemma segments_restrict : forall segs,
  no_line_terminator (concat segs) ->
  Forall (segment wild_in_grammar) segs -> Forall (segment wild_in_code) segs.
Proof.
  induction segs as [|seg segs IH]; intros Hnl H; [constructor|].
  inversion H as [|? ? (run & -> & Hns & _) Hsegs]; subst.
  cbn [concat] in Hnl. apply no_line_terminator_app in Hnl as [Hseg Hrest].
  apply no_line_terminator_app in Hseg as [Hrun _].
  constructor; [|now apply IH].
  exists run. repeat split; [assumption | now apply no_line_terminator_wild].
Qed.

(** On a path without line terminators the restriction is void. *)
Lemma generates_restrict : forall toks path,
  no_line_terminator path ->
  generates wild_in_grammar toks path -> generates wild_in_code toks path.
Proof.
  intros toks path Hnl H. induction H.
  - constructor.
  - apply no_line_terminator_app in Hnl as [_ Hrest]. constructor; auto.
  - apply no_line_terminator_app in Hnl as [Hsegs Hrest].
    constructor; [now apply segments_restrict | auto].
  - apply no_line_terminator_app in Hnl as [Hrun Hrest].
    constructor; [now apply no_line_terminator_wild | auto].
  - inversion Hnl; subst. constructor; auto.
  - inversion Hnl; subst. constructor; auto.
Qed.

(** The matcher produced by [globToRegex], exactly: it accepts the
    paths that the grammar generates with [*] a run without [/], [?] one
    character other than [/], [**/] zero or more complete segments, [**]
    any run, every other character itself, the whole path being
    consumed, provided that the characters that [**/] and [**] stand for
    are not line terminators; and on paths without line terminators it
    accepts exactly the paths of the grammar. *)
Theorem globToRegex_accepts : forall pattern path,
  (glob_test pattern path = Some true
   <-> generates wild_in_code (glob_tokens pattern) path)
  /\ (no_line_terminator path ->
      (glob_test pattern path = Some true <-> glob_grammar pattern path)).
Proof.
  intros pattern path.
  assert (H : glob_test pattern path = Some true
              <-> generates wild_in_code (glob_tokens pattern) path).
  { rewrite glob_test_matches. rewrite <- match_terms_generates.
    split; [intros [= ->]; reflexivity | intros ->; reflexivity]. }
  split; [exact H|].
  intros Hnl. rewrite H. unfold glob_grammar. rewrite pattern_normalization. split.
  - apply generates_weaken. reflexivity.
  - now apply generates_restrict.
Qed.

End GlobMatch.

Lemma globToRegex_accepts_witness :
  glob_test (str "a/**/b") (str "a/x/y/b") = Some true
  <-> glob_grammar (str "a/**/b") (str "a/x/y/b").
Proof.
  apply (proj2 (globToRegex_accepts (str "a/**/b") (str "a/x/y/b"))).
  repeat constructor.
Defined.

(** C1 at the pattern [**] and the path "a", line feed, "b" (a file
    name may hold a line feed).  The grammar generates the path, [**]
    standing for any characters, and the pattern [*] accepts it; the
    expression compiled for [**] is [^.*$], which rejects it.  In a
    workspace that holds a file of that name and a file [c] in a
    directory named "d", line feed, [glob] finds the first with [*],
    nothing with [**], and with [**/*] the first only. *)
Theorem globstar_rejects_line_terminator :
  glob_grammar (str "**") line_feed_name
  /\ globToRegex_source (str "**") = str "^.*$"
  /\ glob_test (str "**") line_feed_name = Some false
  /\ glob_test (str "*") line_feed_name = Some true
  /\ glob_test (str "**/*") (line_feed_name ++ str "/c") = Some false
  /\ glob line_feed_fs (str "/ws") (str "*") None = Normal (Success [line_feed_name])
  /\ glob line_feed_fs (str "/ws") (str "**") None = Normal (Success [])
  /\ glob line_feed_fs (str "/ws") (str "**/*") None = Normal (Success [line_feed_name]).
Proof.
  split; [|repeat split; reflexivity].
  unfold glob_grammar. rewrite pattern_normalization.
  change (glob_tokens (str "**")) with [GGlobstar].
  rewrite <- (app_nil_r line_feed_name).
  constructor; [repeat constructor | constructor].
Qed.

(* ================================================================== *)
(** ** Paths made of clean segments *)
(* ================================================================== *)

Section CleanPaths.

Lemma clean_segment_facts : forall s,
  clean_segment s = true ->
  s <> [] /\ no_slash s /\ str_eqb s [] = false
  /\ str_eqb s Path.dot = false /\ str_eqb s Path.dotdot = false.
Proof.
  intros s H. unfold clean_segment in H.
  apply andb_true_iff in H as [H Hdd]. apply andb_true_iff in H as [H Hd].
  apply andb_true_iff in H as [Ht Hs].
  apply negb_true_iff in Hd, Hdd. apply truthy_nonempty in Ht.
  repeat split; try assumption.
  - unfold no_slash. rewrite Forall_forall. rewrite forallb_forall in Hs.
    intros c Hc. specialize (Hs c Hc). now apply negb_true_iff, N.eqb_neq in Hs.
  - now apply str_eqb_neq.
Qed.

Lemma clean_no_slash : forall segs,
  Forall (fun s => clean_segment s = true) segs -> Forall no_slash segs.
Proof.
  intros segs H. eapply Forall_impl; [|exact H].
  intros s Hs. now apply clean_segment_facts in Hs.
Qed.

Lemma split_app : forall sep a b,
  split sep (a ++ sep :: b) = split sep a ++ split sep b.
Proof.
  intros sep a b. induction a as [|c a IH]; cbn [app split].
  - now rewrite N.eqb_refl.
  - destruct (N.eqb c sep); [now rewrite IH|].
    rewrite IH. pose proof (split_nonempty sep a) as Hne.
    destruct (split sep a); [congruence | reflexivity].
Qed.

Lemma split_no_sep : forall s, no_slash s -> split (ch "/") s = [s].
Proof.
  intros s H. induction H as [|c s Hc Hs IH]; [reflexivity|].
  cbn [split]. apply N.eqb_neq in Hc. now rewrite Hc, IH.
Qed.

Lemma split_join_slash : forall parts,
  parts <> [] -> Forall no_slash parts ->
  split (ch "/") (join Path.slash parts) = parts.
Proof.
  induction parts as [|p parts IH]; intros Hne H; [congruence|].
  inversion H as [|? ? Hp Hps]; subst.
  destruct parts as [|q parts].
  - simpl. now apply split_no_sep.
  - rewrite join_cons by discriminate.
    change (p ++ Path.slash ++ join Path.slash (q :: parts))
      with (p ++ ch "/" :: join Path.slash (q :: parts)).
    rewrite split_app, split_no_sep, IH by (assumption || discriminate). reflexivity.
Qed.

Lemma filter_truthy_clean : forall segs,
  Forall (fun s => clean_segment s = true) segs -> filter truthy segs = segs.
Proof.
  intros segs H. induction H as [|s segs Hs Hsegs IH]; [reflexivity|].
  simpl. apply clean_segment_facts in Hs as (Hne & _).
  apply truthy_nonempty in Hne. now rewrite Hne, IH.
Qed.

Lemma segments_app : forall a b,
  Path.segments (a ++ ch "/" :: b) = Path.segments a ++ Path.segments b.
Proof. intros. unfold Path.segments. now rewrite split_app, filter_app. Qed.

Lemma segments_join : forall segs,
  Forall (fun s => clean_segment s = true) segs ->
  Path.segments (join Path.slash segs) = segs.
Proof.
  intros segs H. unfold Path.segments. destruct segs as [|s segs]; [reflexivity|].
  rewrite split_join_slash by (discriminate || now apply clean_no_slash).
  now apply filter_truthy_clean.
Qed.

Lemma segments_absolute : forall segs,
  Forall (fun s => clean_segment s = true) segs ->
  Path.segments (absolute segs) = segs.
Proof.
  intros segs H. unfold absolute.
  change (ch "/" :: join Path.slash segs) with ([] ++ ch "/" :: join Path.slash segs).
  rewrite segments_app, segments_join by assumption. reflexivity.
Qed.

Lemma tidy_app : forall a b, tidy a -> tidy b -> tidy (a ++ ch "/" :: b).
Proof. intros a b Ha Hb. unfold tidy. rewrite split_app. now apply Forall_app. Qed.

Lemma tidy_nil : tidy [].
Proof. repeat constructor. Qed.

Lemma tidy_join : forall segs,
  Forall (fun s => clean_segment s = true) segs -> tidy (join Path.slash segs).
Proof.
  intros segs H. unfold tidy. destruct segs as [|s segs].
  - repeat constructor.
  - rewrite split_join_slash by (discriminate || now apply clean_no_slash).
    eapply Forall_impl; [|exact H]. intros x Hx. now right.
Qed.

Lemma tidy_absolute : forall segs,
  Forall (fun s => clean_segment s = true) segs -> tidy (absolute segs).
Proof.
  intros segs H. unfold absolute.
  change (ch "/" :: join Path.slash segs) with ([] ++ ch "/" :: join Path.slash segs).
  apply tidy_app; [apply tidy_nil | now apply tidy_join].
Qed.

Lemma normalize_segments_tidy : forall allow segs stack,
  Forall tidy_segment segs ->
  Path.normalize_segments allow stack segs = rev stack ++ filter truthy segs.
Proof.
  intros allow segs. induction segs as [|s segs IH]; intros stack H.
  - simpl. now rewrite app_nil_r.
  - inversion H as [|? ? Hs Hsegs]; subst. cbn [Path.normalize_segments filter].
    destruct Hs as [-> | Hs].
    + simpl. now apply IH.
    + apply clean_segment_facts in Hs as (Hne & _ & He & Hd & Hdd).
      rewrite He, Hd, Hdd. simpl orb. cbv iota.
      apply truthy_nonempty in Hne. rewrite Hne.
      rewrite IH by assumption. simpl. now rewrite <- app_assoc.
Qed.

Lemma normalizeString_tidy : forall path allow,
  tidy path -> Path.normalizeString path allow = join Path.slash (Path.segments path).
Proof.
  intros path allow H. unfold Path.normalizeString, Path.segments.
  now rewrite normalize_segments_tidy.
Qed.

Lemma join_snoc : forall sep segs s,
  segs <> [] -> join sep (segs ++ [s]) = join sep segs ++ sep ++ s.
Proof.
  intros sep segs s. induction segs as [|p segs IH]; intros Hne; [congruence|].
  destruct segs as [|q segs]; [reflexivity|].
  change ((p :: q :: segs) ++ [s]) with (p :: (q :: segs) ++ [s]).
  rewrite join_cons by discriminate. rewrite IH by discriminate.
  rewrite (join_cons sep p (q :: segs)) by discriminate. now rewrite <- !app_assoc.
Qed.

Lemma join_app_prefix : forall sep a b, exists rest, join sep (a ++ b) = join sep a ++ rest.
Proof.
  intros sep a b. induction a as [|p a IH]; [eexists; reflexivity|].
  destruct a as [|q a].
  - destruct b as [|x b]; [exists []; simpl; now rewrite app_nil_r|].
    eexists. simpl app. rewrite join_cons by discriminate. reflexivity.
  - destruct IH as [rest IH].
    change ((p :: q :: a) ++ b) with (p :: (q :: a) ++ b).
    rewrite join_cons by discriminate. rewrite IH.
    rewrite (join_cons sep p (q :: a)) by discriminate. exists rest. now rewrite <- !app_assoc.
Qed.

Lemma startsWith_app : forall x y, startsWith (x ++ y) x = true.
Proof.
  induction x as [|c x IH]; intros y; [now destruct y|].
  simpl. now rewrite N.eqb_refl, IH.
Qed.

Lemma join_clean_nonempty : forall segs,
  Forall (fun s => clean_segment s = true) segs -> segs <> [] ->
  join Path.slash segs <> [].
Proof.
  intros segs H Hne. destruct H as [|s segs Hs Hsegs]; [congruence|].
  apply clean_segment_facts in Hs as (Hs & _).
  destruct s as [|c s]; [congruence|].
  destruct segs; simpl; discriminate.
Qed.

(** A path that ends with a clean segment has no trailing slash. *)
Lemma no_trailing_slash : forall prefix s,
  clean_segment s = true -> Path.has_trailing_slash (prefix ++ s) = false.
Proof.
  intros prefix s Hs. apply clean_segment_facts in Hs as (Hne & Hns & _).
  destruct (exists_last Hne) as (s' & c & ->).
  unfold Path.has_trailing_slash. rewrite app_assoc, rev_app_distr. simpl.
  unfold no_slash in Hns. rewrite Forall_forall in Hns.
  apply N.eqb_neq. apply Hns. apply in_or_app. right. now left.
Qed.

Lemma ends_with_clean : forall segs,
  Forall (fun s => clean_segment s = true) segs -> segs <> [] ->
  exists prefix s, join Path.slash segs = prefix ++ s /\ clean_segment s = true.
Proof.
  intros segs H Hne. destruct (exists_last Hne) as (init & s & ->).
  apply Forall_app in H as [_ Hs]. inversion Hs; subst.
  destruct init as [|p init].
  - exists [], s. split; [reflexivity | assumption].
  - rewrite join_snoc by discriminate.
    exists (join Path.slash (p :: init) ++ Path.slash), s.
    split; [now rewrite <- app_assoc | assumption].
Qed.

(** [path.normalize] of the workspace path joined with a relative path
    of clean segments. *)
Lemma normalize_absolute_join : forall a b,
  Forall (fun s => clean_segment s = true) a ->
  Forall (fun s => clean_segment s = true) b -> b <> [] ->
  Path.normalize (absolute a ++ ch "/" :: join Path.slash b) = absolute (a ++ b).
Proof.
  intros a b Ha Hb Hne.
  assert (Htidy : tidy (absolute a ++ ch "/" :: join Path.slash b))
    by (apply tidy_app; [now apply tidy_absolute | now apply tidy_join]).
  assert (Hsegs : Path.segments (absolute a ++ ch "/" :: join Path.slash b) = a ++ b)
    by (now rewrite segments_app, segments_absolute, segments_join).
  assert (Hab : join Path.slash (a ++ b) <> []).
  { apply join_clean_nonempty; [now apply Forall_app|].
    intros H. apply app_eq_nil in H as [_ H]. congruence. }
  destruct (ends_with_clean b Hb Hne) as (prefix & s & Hjoin & Hs).
  unfold Path.normalize.
  change (absolute a ++ ch "/" :: join Path.slash b)
    with (ch "/" :: join Path.slash a ++ ch "/" :: join Path.slash b) at 1.
  cbv iota.
  rewrite normalizeString_tidy, Hsegs by assumption.
  assert (Htrail : Path.has_trailing_slash (absolute a ++ ch "/" :: join Path.slash b) = false).
  { rewrite Hjoin.
    replace (absolute a ++ ch "/" :: prefix ++ s)
      with ((absolute a ++ ch "/" :: prefix) ++ s) by (now rewrite <- app_assoc).
    now apply no_trailing_slash. }
  rewrite Htrail.
  change (Path.isAbsolute (absolute a ++ ch "/" :: join Path.slash b)) with true.
  unfold absolute.
  destruct (join Path.slash (a ++ b)) as [|c rest] eqn:E; [congruence|].
  reflexivity.
Qed.

Lemma normalize_absolute : forall segs,
  Forall (fun s => clean_segment s = true) segs ->
  Path.normalize (absolute segs) = absolute segs.
Proof.
  intros segs H. destruct segs as [|s segs]; [reflexivity|].
  unfold Path.normalize. unfold absolute at 1. cbv iota.
  rewrite normalizeString_tidy, segments_absolute by (assumption || now apply tidy_absolute).
  destruct (ends_with_clean (s :: segs) H) as (prefix & l & Hjoin & Hl); [discriminate|].
  assert (Htrail : Path.has_trailing_slash (absolute (s :: segs)) = false).
  { unfold absolute. rewrite Hjoin.
    change (ch "/" :: prefix ++ l) with ((ch "/" :: prefix) ++ l).
    now apply no_trailing_slash. }
  rewrite Htrail.
  change (Path.isAbsolute (absolute (s :: segs))) with true.
  pose proof (join_clean_nonempty (s :: segs) H) as Hne.
  unfold absolute.
  destruct (join Path.slash (s :: segs)) as [|c rest] eqn:E; [exfalso; apply Hne; [discriminate | reflexivity]|].
  reflexivity.
Qed.

Lemma join_paths_absolute : forall a b,
  Forall (fun s => clean_segment s = true) a ->
  Forall (fun s => clean_segment s = true) b -> b <> [] ->
  Path.join_paths [absolute a; join Path.slash b] = absolute (a ++ b).
Proof.
  intros a b Ha Hb Hne. unfold Path.join_paths.
  pose proof (join_clean_nonempty b Hb Hne) as Hj.
  apply truthy_nonempty in Hj.
  cbn [filter]. change (truthy (absolute a)) with true. cbv iota. rewrite Hj.
  change (join Path.slash [absolute a; join Path.slash b])
    with (absolute a ++ ch "/" :: join Path.slash b).
  now apply normalize_absolute_join.
Qed.

Lemma join_paths_name : forall segs name,
  Forall (fun s => clean_segment s = true) segs -> clean_segment name = true ->
  Path.join_paths [absolute segs; name] = absolute (segs ++ [name]).
Proof.
  intros segs name Hsegs Hname.
  apply (join_paths_absolute segs [name]); [assumption | now constructor | discriminate].
Qed.

Lemma resolve_absolute : forall cwd segs,
  Forall (fun s => clean_segment s = true) segs ->
  Path.resolve cwd [absolute segs] = absolute segs.
Proof.
  intros cwd segs H. unfold Path.resolve. cbn [rev app Path.resolve_loop].
  change (truthy (absolute segs)) with true. cbv iota.
  change (Path.isAbsolute (absolute segs)) with (N.eqb (ch "/") (ch "/")).
  change (N.eqb (ch "/") (ch "/")) with true. cbv iota. cbn [negb].
  change (absolute segs ++ Path.slash ++ []) with (absolute segs ++ ch "/" :: []).
  rewrite normalizeString_tidy by (apply tidy_app; [now apply tidy_absolute | apply tidy_nil]).
  rewrite segments_app, segments_absolute by assumption.
  change (Path.segments []) with (@nil jsstring). now rewrite app_nil_r.
Qed.

Lemma strip_common_prefix : forall a r, Path.strip_common a (a ++ r) = ([], r).
Proof.
  induction a as [|x a IH]; intros r; [now destruct r|].
  simpl. now rewrite str_eqb_refl.
Qed.

(** [path.relative] from a directory to something below it. *)
Lemma relative_absolute : forall cwd a r,
  Forall (fun s => clean_segment s = true) a ->
  Forall (fun s => clean_segment s = true) r ->
  Path.relative cwd (absolute a) (absolute (a ++ r)) = join Path.slash r.
Proof.
  intros cwd a r Ha Hr.
  assert (Har : Forall (fun s => clean_segment s = true) (a ++ r)) by now apply Forall_app.
  assert (Heq : absolute a = absolute (a ++ r) -> r = []).
  { intros H. apply (f_equal Path.segments) in H.
    rewrite !segments_absolute in H by assumption.
    rewrite <- (app_nil_r a) in H at 1. now apply app_inv_head in H. }
  unfold Path.relative.
  destruct (str_eqb (absolute a) (absolute (a ++ r))) eqn:E1.
  - apply str_eqb_eq in E1. now rewrite (Heq E1).
  - rewrite !resolve_absolute by assumption. rewrite E1.
    rewrite !segments_absolute by assumption.
    now rewrite strip_common_prefix.
Qed.

Lemma glob_within_workspace_absolute : forall a b,
  Forall (fun s => clean_segment s = true) a ->
  Forall (fun s => clean_segment s = true) b ->
  glob_within_workspace (absolute a) (absolute (a ++ b)) = true.
Proof.
  intros a b Ha Hb. unfold glob_within_workspace.
  rewrite !normalize_absolute by (assumption || now apply Forall_app).
  unfold absolute. destruct (join_app_prefix Path.slash a b) as [rest ->].
  change (ch "/" :: join Path.slash a ++ rest) with ((ch "/" :: join Path.slash a) ++ rest).
  apply startsWith_app.
Qed.

Lemma locate_absolute : forall fs segs,
  Forall (fun s => clean_segment s = true) segs ->
  locate fs (absolute segs) = walk (root fs) segs.
Proof.
  intros fs segs H. unfold locate.
  now rewrite resolve_absolute, segments_absolute.
Qed.

Lemma glob_basePath_absolute : forall a sub,
  Forall (fun s => clean_segment s = true) a ->
  Forall (fun s => clean_segment s = true) sub ->
  glob_basePath (absolute a) (search_path sub) = absolute (a ++ sub).
Proof.
  intros a sub Ha Hsub. destruct sub as [|s sub].
  - simpl. now rewrite app_nil_r.
  - unfold search_path, glob_basePath.
    pose proof (join_clean_nonempty (s :: sub) Hsub) as Hj.
    assert (Ht : truthy (join Path.slash (s :: sub)) = true)
      by (apply truthy_nonempty, Hj; discriminate).
    rewrite Ht. apply join_paths_absolute; [assumption | assumption | discriminate].
Qed.

End CleanPaths.

(* ================================================================== *)
(** ** [collectFiles] and [glob] on a tree *)
(* ================================================================== *)

Section GlobOnTree.

(** The walk returns the absolute path of every regular file below the
    directory. *)
Lemma collectFiles_absolute : forall n segs,
  well_named n = true -> clean_segments segs ->
  collectFiles (absolute segs) n = map (fun r => absolute (segs ++ r)) (files_under n).
Proof.
  fix IH 1. intros n segs Hwn Hsegs.
  destruct n as [| | rd entries]; [reflexivity | reflexivity |].
  destruct rd; [|reflexivity].
  cbn [collectFiles files_under]. cbn [well_named] in Hwn.
  induction entries as [|[name child] entries IHe]; [reflexivity|].
  apply andb_true_iff in Hwn as [Hwn Hrest]. apply andb_true_iff in Hwn as [Hname Hchild].
  rewrite map_app, <- (IHe Hrest). f_equal.
  rewrite (join_paths_name segs name Hsegs Hname).
  assert (Hsegs' : clean_segments (segs ++ [name]))
    by (apply Forall_app; split; [assumption | now constructor]).
  pose proof (IH child (segs ++ [name]) Hchild Hsegs') as IHc.
  destruct child as [| | rd' es'].
  - reflexivity.
  - reflexivity.
  - rewrite IHc, map_map. apply map_ext. intros r. now rewrite <- app_assoc.
Qed.

Lemma files_under_clean : forall n r,
  well_named n = true -> In r (files_under n) -> clean_segments r /\ r <> [].
Proof.
  fix IH 1. intros n r Hwn Hin.
  destruct n as [| | rd entries]; [destruct Hin | destruct Hin |].
  destruct rd; [|destruct Hin].
  cbn [files_under] in Hin. cbn [well_named] in Hwn.
  induction entries as [|[name child] entries IHe]; [destruct Hin|].
  apply andb_true_iff in Hwn as [Hwn Hrest]. apply andb_true_iff in Hwn as [Hname Hchild].
  apply in_app_or in Hin as [Hin | Hin]; [|exact (IHe Hrest Hin)].
  pose proof (IH child) as IHc.
  destruct child as [| | rd' es'].
  - destruct Hin as [<-|[]]. split; [now repeat constructor | discriminate].
  - destruct Hin.
  - apply in_map_iff in Hin as (r' & <- & Hr').
    destruct (IHc r' Hchild Hr') as [Hc _].
    split; [now constructor | discriminate].
Qed.

Lemma insert_sorted_In : forall x y l, In x (insert_sorted y l) <-> x = y \/ In x l.
Proof.
  intros x y l. induction l as [|z l IH]; simpl.
  - intuition.
  - destruct (str_leb y z); simpl; [intuition|]. rewrite IH. intuition.
Qed.

(** Sorting keeps the elements. *)
Lemma sort_In : forall x l, In x (sort l) <-> In x l.
Proof.
  intros x l. induction l as [|y l IH]; simpl; [tauto|].
  rewrite insert_sorted_In, IH. intuition.
Qed.

Lemma filter_map_comm : forall (A B : Type) (f : B -> bool) (g : A -> B) l,
  filter f (map g l) = map g (filter (fun a => f (g a)) l).
Proof.
  intros A B f g l. induction l as [|a l IH]; simpl; [reflexivity|].
  destruct (f (g a)); simpl; now rewrite IH.
Qed.

(** [glob] on a directory of the workspace, computed on the tree. *)
Lemma glob_on_tree_run : forall fs wsegs sub pattern n,
  clean_segments wsegs -> clean_segments sub -> pattern <> [] ->
  walk (root fs) (wsegs ++ sub) = Found n -> isDirectory n = true ->
  well_named n = true ->
  glob fs (absolute wsegs) pattern (search_path sub)
  = Normal (Success
      (sort (map (fun r => join Path.slash (sub ++ r))
               (filter (fun r => RegExp.match_terms (map term_of (glob_tokens pattern))
                                   (join Path.slash r))
                       (files_under n))))).
Proof.
  intros fs wsegs sub pattern n Hw Hsub Hp Hwalk Hdir Hwn.
  assert (Hbase : clean_segments (wsegs ++ sub)) by now apply Forall_app.
  unfold glob, glob_body.
  apply truthy_nonempty in Hp. rewrite Hp. cbn [negb].
  rewrite glob_basePath_absolute by assumption.
  rewrite glob_within_workspace_absolute by assumption. cbn [negb].
  unfold fs_stat. rewrite locate_absolute, Hwalk by assumption.
  rewrite Hdir. cbn [negb].
  rewrite globToRegex_compiles.
  rewrite collectFiles_absolute by assumption.
  unfold try_catch. do 3 f_equal.
  rewrite filter_map_comm, map_map.
  rewrite (filter_ext_in
             (fun a => RegExp.test (map term_of (glob_tokens pattern))
                         (join (str "/")
                            (split path_sep
                               (Path.relative (cwd fs) (absolute (wsegs ++ sub))
                                  (absolute ((wsegs ++ sub) ++ a))))))
             (fun r => RegExp.match_terms (map term_of (glob_tokens pattern))
                         (join Path.slash r))).
  - apply map_ext_in. intros r Hr. apply filter_In in Hr as [Hr _].
    destruct (files_under_clean n r Hwn Hr) as [Hc _].
    rewrite <- app_assoc. apply relative_absolute; [assumption | now apply Forall_app].
  - intros r Hr. destruct (files_under_clean n r Hwn Hr) as [Hc _].
    rewrite relative_absolute by assumption.
    unfold RegExp.test. f_equal. apply pattern_normalization.
Qed.


Lemma str_leb_total : forall a b, str_leb a b = false -> str_leb b a = true.
Proof.
  induction a as [|x a IH]; intros b H; [discriminate|].
  destruct b as [|y b]; [reflexivity|]. simpl in *.
  apply orb_false_iff in H as [Hlt H]. apply N.ltb_ge in Hlt.
  destruct (N.eqb_spec x y) as [->|Hne].
  - simpl in H. rewrite N.eqb_refl, (IH b H). apply orb_true_r.
  - assert (Hyx : (y <? x)%N = true) by (apply N.ltb_lt; lia).
    now rewrite Hyx.
Qed.

Lemma insert_sorted_HdRel : forall x y l,
  str_le y x -> Sorted.HdRel str_le y l -> Sorted.HdRel str_le y (insert_sorted x l).
Proof.
  intros x y l Hyx H. destruct l as [|z l]; simpl; [now constructor|].
  destruct (str_leb x z); constructor; [assumption|]. now inversion H.
Qed.

Lemma insert_sorted_Sorted : forall x l,
  Sorted.Sorted str_le l -> Sorted.Sorted str_le (insert_sorted x l).
Proof.
  intros x l H. induction H as [|y l Hl IH Hhd]; simpl; [repeat constructor|].
  destruct (str_leb x y) eqn:E.
  - constructor; [now constructor | now constructor].
  - constructor; [assumption|].
    apply insert_sorted_HdRel; [now apply str_leb_total | assumption].
Qed.

(** [sort] puts its argument in order. *)
Lemma sort_Sorted : forall l, Sorted.Sorted str_le (sort l).
Proof.
  induction l as [|x l IH]; simpl; [constructor | now apply insert_sorted_Sorted].
Qed.

(** [glob] on a directory of the workspace, in a tree of clean names,
    for a non-empty pattern: the call succeeds; the paths returned are
    in order (code units, left to right); a path is returned exactly
    when it is the search path followed by the path from the directory
    to a regular file below it, that path being accepted by the compiled
    pattern.  Nothing below a directory that cannot be read is
    returned. *)
Theorem glob_on_tree : forall fs wsegs sub pattern n,
  clean_segments wsegs -> clean_segments sub -> pattern <> [] ->
  walk (root fs) (wsegs ++ sub) = Found n -> isDirectory n = true ->
  well_named n = true ->
  exists found,
    glob fs (absolute wsegs) pattern (search_path sub) = Normal (Success found)
    /\ Sorted.Sorted str_le found
    /\ (forall p,
          In p found
          <-> exists r,
                In r (files_under n)
                /\ glob_test pattern (join Path.slash r) = Some true
                /\ p = join Path.slash (sub ++ r)).
Proof.
  intros fs wsegs sub pattern n Hw Hsub Hp Hwalk Hdir Hwn.
  eexists. split; [apply glob_on_tree_run; eassumption|].
  split; [apply sort_Sorted|].
  intros p. rewrite sort_In, in_map_iff. split.
  - intros (r & <- & Hr). apply filter_In in Hr as [Hr Hm].
    exists r. split; [assumption|]. split; [|reflexivity].
    rewrite glob_test_matches. now f_equal.
  - intros (r & Hr & Hm & ->). exists r. split; [reflexivity|].
    apply filter_In. split; [assumption|].
    rewrite glob_test_matches in Hm. now injection Hm.
Qed.

End GlobOnTree.

(* ================================================================== *)
(** ** The patterns [*] and [**/*] *)
(* ================================================================== *)

Section StarPatterns.

Lemma star_accepts : forall path,
  RegExp.match_terms (map term_of (glob_tokens (str "*"))) path = true <-> no_slash path.
Proof.
  intros path. rewrite match_terms_generates.
  change (glob_tokens (str "*")) with [GStar]. split.
  - intros H. inversion H as [|run ts rest Hrun Hrest| | | |]; subst.
    inversion Hrest; subst. now rewrite app_nil_r.
  - intros H. rewrite <- (app_nil_r path). constructor; [assumption | constructor].
Qed.

Lemma join_two_has_slash : forall p q segs, In (ch "/") (join Path.slash (p :: q :: segs)).
Proof.
  intros. rewrite join_cons by discriminate.
  apply in_or_app. right. now left.
Qed.

Lemma join_no_slash_single : forall r,
  clean_segments r -> r <> [] ->
  (no_slash (join Path.slash r) <-> exists name, r = [name]).
Proof.
  intros r Hr Hne. split.
  - intros H. destruct r as [|p [|q r]]; [congruence | now exists p |].
    exfalso. unfold no_slash in H. rewrite Forall_forall in H.
    exact (H _ (join_two_has_slash p q r) eq_refl).
  - intros [name ->]. inversion Hr; subst. simpl.
    now apply clean_segment_facts.
Qed.

(** A path of clean segments as complete segments and a last name. *)
Lemma join_as_segments : forall init last,
  join Path.slash (init ++ [last])
  = concat (map (fun s => s ++ [ch "/"]) init) ++ last.
Proof.
  induction init as [|s init IH]; intros last; [reflexivity|].
  change ((s :: init) ++ [last]) with (s :: init ++ [last]).
  rewrite join_cons by (destruct init; discriminate).
  rewrite IH. cbn [map concat]. now rewrite <- !app_assoc.
Qed.

Lemma globstar_star_grammar : forall r,
  clean_segments r -> r <> [] -> glob_grammar (str "**/*") (join Path.slash r).
Proof.
  intros r Hr Hne. destruct (exists_last Hne) as (init & last & ->).
  apply Forall_app in Hr as [Hinit Hlast]. inversion Hlast; subst.
  unfold glob_grammar. rewrite pattern_normalization.
  change (glob_tokens (str "**/*")) with [GGlobstarSlash; GStar].
  rewrite join_as_segments. constructor.
  - apply Forall_forall. intros seg Hseg. apply in_map_iff in Hseg as (s & <- & Hs).
    rewrite Forall_forall in Hinit. specialize (Hinit s Hs).
    exists s. repeat split; [now apply clean_segment_facts|].
    apply Forall_forall. reflexivity.
  - rewrite <- (app_nil_r last). constructor; [now apply clean_segment_facts | constructor].
Qed.

Lemma globstar_star_accepts : forall r,
  clean_segments r -> r <> [] -> no_line_terminator (join Path.slash r) ->
  RegExp.match_terms (map term_of (glob_tokens (str "**/*"))) (join Path.slash r) = true.
Proof.
  intros r Hr Hne Hnl. apply match_terms_generates.
  apply generates_restrict; [assumption|].
  pose proof (globstar_star_grammar r Hr Hne) as H.
  unfold glob_grammar in H. now rewrite pattern_normalization in H.
Qed.

Lemma files_under_nonempty : forall n, ~ In [] (files_under n).
Proof.
  fix IH 1. intros n Hin.
  destruct n as [| | rd entries]; [destruct Hin | destruct Hin |].
  destruct rd; [|destruct Hin].
  cbn [files_under] in Hin.
  induction entries as [|[name child] entries IHe]; [destruct Hin|].
  apply in_app_or in Hin as [Hin | Hin]; [|exact (IHe Hin)].
  destruct child as [| | rd' es'].
  - destruct Hin as [Hin|[]]; discriminate.
  - destruct Hin.
  - apply in_map_iff in Hin as (r & Hr & _). discriminate.
Qed.

(** The files found directly in a directory. *)
Lemma direct_files : forall entries name,
  In [name] (files_under (Dir true entries)) <-> In (name, File) entries.
Proof.
  intros entries name. cbn [files_under].
  induction entries as [|[name' child] entries IH]; [simpl; tauto|].
  rewrite in_app_iff, IH. cbn [In]. split.
  - intros [H | H]; [|now right]. left.
    destruct child as [| | rd es].
    + destruct H as [H | []]. now injection H as ->.
    + destruct H.
    + apply in_map_iff in H as (r & Heq & Hr). injection Heq as -> ->.
      exfalso. exact (files_under_nonempty _ Hr).
  - intros [H | H]; [left | now right].
    injection H as -> ->. now left.
Qed.

(** C5, as the code has it.  Let the workspace be an absolute path of
    clean segments, the base directory be the workspace or a
    sub-directory of it named by a search path of clean segments, and
    the base be a readable directory in a tree of clean names. Then
    (1) [glob] with [*] succeeds with exactly the regular files that are
        direct entries of the base, each named by the search path
        followed by the file name: a returned path has no [/] after the
        search path, and no [/] at all when the base is the workspace;
    (2) [glob] with [**/*] succeeds, and returns every regular file
        below the base whose path from the base holds no line
        terminator; for a file in a sub-directory the returned path
        contains [/];
    (3) whatever the pattern, every path returned is the search path
        followed by the path from the base to a regular file below it:
        it is relative to the workspace root, and joined to the
        workspace it names that file. *)
Theorem glob_star_patterns : forall fs wsegs sub entries,
  clean_segments wsegs -> clean_segments sub ->
  walk (root fs) (wsegs ++ sub) = Found (Dir true entries) ->
  well_named (Dir true entries) = true ->
  (exists found,
      glob fs (absolute wsegs) (str "*") (search_path sub) = Normal (Success found)
      /\ (forall p, In p found
                    <-> exists name, In (name, File) entries
                                     /\ p = join Path.slash (sub ++ [name]))
      /\ (sub = [] -> forall p, In p found -> no_slash p))
  /\ (exists found,
        glob fs (absolute wsegs) (str "**/*") (search_path sub) = Normal (Success found)
        /\ (forall r, In r (files_under (Dir true entries)) ->
                      no_line_terminator (join Path.slash r) ->
                      In (join Path.slash (sub ++ r)) found)
        /\ (forall r, In r (files_under (Dir true entries)) -> 2 <= length r ->
                      In (ch "/") (join Path.slash (sub ++ r))))
  /\ (forall pattern found,
        glob fs (absolute wsegs) pattern (search_path sub) = Normal (Success found) ->
        forall p, In p found ->
        exists r, In r (files_under (Dir true entries))
                  /\ p = join Path.slash (sub ++ r)
                  /\ Path.join_paths [absolute wsegs; p] = absolute ((wsegs ++ sub) ++ r)).
Proof.
  intros fs wsegs sub entries Hw Hsub Hwalk Hwn.
  pose proof (fun pattern Hp =>
                glob_on_tree_run fs wsegs sub pattern (Dir true entries)
                  Hw Hsub Hp Hwalk eq_refl Hwn) as Hglob.
  split; [|split].
  - eexists. split; [apply Hglob; discriminate|]. split.
    + intros p. rewrite sort_In, in_map_iff. split.
      * intros (r & <- & Hr). apply filter_In in Hr as [Hr Hm].
        destruct (files_under_clean _ r Hwn Hr) as [Hc Hne].
        apply star_accepts in Hm. apply join_no_slash_single in Hm as [name ->]; try assumption.
        exists name. split; [now apply direct_files | reflexivity].
      * intros (name & Hin & ->). exists [name]. split; [reflexivity|].
        apply direct_files in Hin. apply filter_In. split; [assumption|].
        destruct (files_under_clean _ [name] Hwn Hin) as [Hc Hne].
        apply star_accepts. apply join_no_slash_single; [assumption | assumption | now exists name].
    + intros -> p Hp. rewrite sort_In, in_map_iff in Hp.
      destruct Hp as (r & <- & Hr). apply filter_In in Hr as [Hr Hm].
      now apply star_accepts in Hm.
  - eexists. split; [apply Hglob; discriminate|]. split.
    + intros r Hr Hnl. rewrite sort_In, in_map_iff. exists r. split; [reflexivity|].
      apply filter_In. split; [assumption|].
      destruct (files_under_clean _ r Hwn Hr) as [Hc Hne].
      now apply globstar_star_accepts.
    + intros r Hr Hlen. destruct r as [|p [|q r]]; simpl in Hlen; try lia.
      destruct sub as [|s sub]; [apply join_two_has_slash|].
      change ((s :: sub) ++ p :: q :: r) with (s :: sub ++ p :: q :: r).
      destruct (sub ++ p :: q :: r) as [|x xs] eqn:E;
        [apply app_eq_nil in E as [_ E]; discriminate|].
      apply join_two_has_slash.
  - intros pattern found Hfound p Hp.
    destruct pattern as [|c pattern]; [discriminate|].
    rewrite Hglob in Hfound by discriminate. injection Hfound as <-.
    rewrite sort_In, in_map_iff in Hp. destruct Hp as (r & <- & Hr).
    apply filter_In in Hr as [Hr _].
    destruct (files_under_clean _ r Hwn Hr) as [Hc Hne].
    exists r. split; [assumption|]. split; [reflexivity|].
    rewrite <- app_assoc. apply join_paths_absolute; [assumption | now apply Forall_app |].
    intros H. apply app_eq_nil in H as [_ H]. congruence.
Qed.

End StarPatterns.

Lemma glob_star_patterns_witness :
  exists found,
    glob test_fs (str "/ws") (str "*") (Some (str "subdir")) = Normal (Success found)
    /\ (forall p, In p found
                  <-> exists name,
                        In (name, File)
                           [(str "code.ts", File);
                            (str "nested.json", File);
                            (str "deep",
                             Dir true [(str "file.ts", File); (str "data.json", File)])]
                        /\ p = join Path.slash ([str "subdir"] ++ [name]))
    /\ ([str "subdir"] = [] -> forall p, In p found -> no_slash p).
Proof.
  assert (Hw : Forall (fun s => clean_segment s = true) [str "ws"])
    by (repeat constructor).
  assert (Hs : Forall (fun s => clean_segment s = true) [str "subdir"])
    by (repeat constructor).
  exact (proj1 (glob_star_patterns test_fs [str "ws"] [str "subdir"] _ Hw Hs eq_refl eq_refl)).
Defined.

(** C5, as the specification has it, fails when the base directory is
    a sub-directory: the paths are named from the workspace root, so
    those that [*] returns contain [/]. *)
Lemma glob_star_subdirectory_counterexample :
  glob test_fs (str "/ws") (str "*") (Some (str "subdir"))
  = Normal (Success [str "subdir/code.ts"; str "subdir/nested.json"])
  /\ In (ch "/") (str "subdir/code.ts").
Proof.
  split; [reflexivity|]. simpl. tauto.
Qed.

Lemma glob_on_tree_witness :
  exists found,
    glob test_fs (str "/ws") (str "**/*.ts") (Some (str "subdir")) = Normal (Success found)
    /\ Sorted.Sorted str_le found
    /\ (forall p,
          In p found
          <-> exists r,
                In r (files_under
                        (Dir true
                           [(str "code.ts", File);
                            (str "nested.json", File);
                            (str "deep",
                             Dir true [(str "file.ts", File); (str "data.json", File)])]))
                /\ glob_test (str "**/*.ts") (join Path.slash r) = Some true
                /\ p = join Path.slash ([str "subdir"] ++ r)).
Proof.
  assert (Hw : clean_segments [str "ws"]) by (repeat constructor).
  assert (Hs : clean_segments [str "subdir"]) by (repeat constructor).
  assert (Hp : str "**/*.ts" <> []) by discriminate.
  exact (glob_on_tree test_fs [str "ws"] [str "subdir"] (str "**/*.ts") _
           Hw Hs Hp eq_refl eq_refl eq_refl).
Defined.

(* ================================================================== *)
(** ** When the relative path is empty *)
(* ================================================================== *)

Section RelativeEmpty.

Lemma strip_common_same : forall a b,
  Path.strip_common a b = ([], []) <-> a = b.
Proof.
  induction a as [|x a IH]; intros b.
  - destruct b; simpl; split; congruence.
  - destruct b as [|y b]; simpl; [split; congruence|].
    destruct (str_eqb x y) eqn:E.
    + apply str_eqb_eq in E. subst. rewrite IH. split; congruence.
    + apply str_eqb_neq in E. split; congruence.
Qed.

Lemma strip_common_truthy : forall a b,
  Forall (fun s => truthy s = true) a -> Forall (fun s => truthy s = true) b ->
  Forall (fun s => truthy s = true) (fst (Path.strip_common a b))
  /\ Forall (fun s => truthy s = true) (snd (Path.strip_common a b)).
Proof.
  induction a as [|x a IH]; intros b Ha Hb.
  - destruct b; simpl; auto.
  - destruct b as [|y b]; simpl; [auto|].
    destruct (str_eqb x y); simpl; [|auto].
    inversion Ha; inversion Hb; subst. now apply IH.
Qed.

Lemma join_truthy_empty : forall l,
  Forall (fun s => truthy s = true) l -> join Path.slash l = [] -> l = [].
Proof.
  intros l H Hj. destruct H as [|x l Hx Hl]; [reflexivity|].
  destruct x as [|c x]; [discriminate|].
  destruct l; discriminate.
Qed.

Lemma segments_truthy : forall path, Forall (fun s => truthy s = true) (Path.segments path).
Proof.
  intros. unfold Path.segments. apply Forall_forall. intros s Hs.
  now apply filter_In in Hs.
Qed.

(** The path of a file relative to the workspace is empty exactly when
    the file path resolves to the workspace itself. *)
Lemma relative_empty : forall cwd workspace p,
  Path.relative cwd workspace p = []
  <-> Path.segments (Path.resolve cwd [workspace]) = Path.segments (Path.resolve cwd [p]).
Proof.
  intros cwd workspace p. unfold Path.relative.
  destruct (str_eqb workspace p) eqn:E1.
  { apply str_eqb_eq in E1. subst. tauto. }
  destruct (str_eqb (Path.resolve cwd [workspace]) (Path.resolve cwd [p])) eqn:E2.
  { apply str_eqb_eq in E2. rewrite E2. tauto. }
  pose proof (strip_common_truthy _ _ (segments_truthy (Path.resolve cwd [workspace]))
                (segments_truthy (Path.resolve cwd [p]))) as [Hup Hdown].
  pose proof (strip_common_same (Path.segments (Path.resolve cwd [workspace]))
                (Path.segments (Path.resolve cwd [p]))) as Hsame.
  destruct (Path.strip_common _ _) as [up down]. simpl in Hup, Hdown.
  rewrite <- Hsame. split.
  - intros H. apply join_truthy_empty in H.
    + apply app_eq_nil in H as [H1 H2]. apply map_eq_nil in H1. congruence.
    + apply Forall_app. split; [|assumption].
      apply Forall_forall. intros s Hs. apply in_map_iff in Hs as (? & <- & _). reflexivity.
  - intros [= -> ->]. reflexivity.
Qed.

End RelativeEmpty.

(* ================================================================== *)
(** ** [parseRipgrepOutput]: the lines of the plain-text modes *)
(* ================================================================== *)

Section OutputLines.

Lemma trimStart_head : forall c s, is_whitespace c = false -> trimStart (c :: s) = c :: s.
Proof. intros c s H. simpl. now rewrite H. Qed.

Lemma trimStart_blank : forall s, forallb is_whitespace s = true -> trimStart s = [].
Proof.
  induction s as [|c s IH]; intros H; [reflexivity|].
  simpl in H. apply andb_true_iff in H as [Hc Hs]. simpl. rewrite Hc. auto.
Qed.

Lemma trimEnd_snoc : forall s c, is_whitespace c = true -> trimEnd (s ++ [c]) = trimEnd s.
Proof.
  induction s as [|x s IH]; intros c Hc.
  - simpl. now rewrite Hc.
  - cbn [app trimEnd]. now rewrite IH.
Qed.

Lemma ends_with_whitespace_cons : forall c s,
  s <> [] -> ends_with_whitespace (c :: s) = ends_with_whitespace s.
Proof.
  intros c s Hne. unfold ends_with_whitespace. cbn [rev].
  destruct (rev s) as [|x r] eqn:E; [|reflexivity].
  apply (f_equal (@rev N)) in E. rewrite rev_involutive in E. contradiction.
Qed.

Lemma ends_with_whitespace_app : forall a b,
  b <> [] -> ends_with_whitespace (a ++ b) = ends_with_whitespace b.
Proof.
  induction a as [|c a IH]; intros b Hne; [reflexivity|].
  cbn [app]. rewrite ends_with_whitespace_cons; [now apply IH|].
  intros H. apply app_eq_nil in H as [_ H]. contradiction.
Qed.

Lemma trimEnd_fixed : forall s, ends_with_whitespace s = false -> trimEnd s = s.
Proof.
  induction s as [|c s IH]; intros H; [reflexivity|].
  destruct s as [|d s].
  - unfold ends_with_whitespace in H. simpl in H. simpl. now rewrite H.
  - rewrite ends_with_whitespace_cons in H by discriminate.
    cbn [trimEnd]. cbn [trimEnd] in IH. rewrite (IH H). reflexivity.
Qed.

Lemma split_without : forall sep s, ~ In sep s -> split sep s = [s].
Proof.
  intros sep s. induction s as [|c s IH]; intros H; [reflexivity|].
  cbn [split].
  destruct (N.eqb c sep) eqn:E.
  - apply N.eqb_eq in E. subst. exfalso. apply H. now left.
  - rewrite IH; [reflexivity|]. intros Hin. apply H. now right.
Qed.

Lemma split_join : forall sep parts,
  parts <> [] -> Forall (fun p => ~ In sep p) parts ->
  split sep (join [sep] parts) = parts.
Proof.
  induction parts as [|p parts IH]; intros Hne H; [congruence|].
  inversion H as [|? ? Hp Hps]; subst.
  destruct parts as [|q parts].
  - simpl. now apply split_without.
  - rewrite join_cons by discriminate.
    change (p ++ [sep] ++ join [sep] (q :: parts))
      with (p ++ sep :: join [sep] (q :: parts)).
    rewrite split_app, split_without, IH by (assumption || discriminate). reflexivity.
Qed.

Lemma printed_join : forall l lines,
  printed (l :: lines) = join [10%N] (l :: lines) ++ [10%N].
Proof.
  intros l lines. revert l. induction lines as [|m lines IH]; intros l.
  - simpl. now rewrite app_nil_r.
  - rewrite join_cons by discriminate.
    change (printed (l :: m :: lines)) with ((l ++ [10%N]) ++ printed (m :: lines)).
    rewrite IH, <- !app_assoc. reflexivity.
Qed.

Lemma last_cons : forall (A : Type) (x y : A) l d, last (x :: y :: l) d = last (y :: l) d.
Proof. reflexivity. Qed.

Lemma ends_with_whitespace_join : forall sep lines,
  Forall (fun l => l <> []) lines ->
  ends_with_whitespace (join sep lines) = ends_with_whitespace (last lines []).
Proof.
  intros sep lines H. induction H as [|l lines Hl Hls IH]; [reflexivity|].
  destruct lines as [|m lines]; [reflexivity|].
  rewrite join_cons by discriminate. rewrite last_cons.
  inversion Hls as [|? ? Hm _]; subst.
  assert (Hne : join sep (m :: lines) <> []).
  { destruct lines as [|n lines]; [exact Hm|].
    rewrite join_cons by discriminate.
    intros E. apply app_eq_nil in E as [E _]. contradiction. }
  rewrite app_assoc, ends_with_whitespace_app by assumption. exact IH.
Qed.

(** Lines that start with a character other than white space, hold no
    line feed, and of which the last does not end in white space, come
    back from the text that prints them. *)
Lemma output_lines_printed : forall lines,
  Forall (fun l => exists c r, l = c :: r /\ is_whitespace c = false) lines ->
  Forall no_line_feed lines ->
  ends_with_whitespace (last lines []) = false ->
  output_lines (printed lines) = lines.
Proof.
  intros lines Hhead Hlf Hlast. destruct lines as [|l lines]; [reflexivity|].
  assert (Hne : Forall (fun l => l <> []) (l :: lines)).
  { eapply Forall_impl; [|exact Hhead]. intros a (c & r & -> & _). discriminate. }
  unfold output_lines. rewrite printed_join. unfold trim.
  inversion Hhead as [|? ? (c & r & -> & Hc) _]; subst.
  assert (Hstart : exists rest, join [10%N] ((c :: r) :: lines) = c :: rest).
  { destruct lines; [now exists r|]. rewrite join_cons by discriminate. now eexists. }
  destruct Hstart as (rest & Hstart).
  unfold jsstring in *. rewrite Hstart. cbn [app]. rewrite trimStart_head by assumption.
  change (c :: rest ++ [10%N]) with ((c :: rest) ++ [10%N]).
  rewrite trimEnd_snoc by reflexivity. rewrite <- Hstart.
  rewrite trimEnd_fixed by (now rewrite ends_with_whitespace_join).
  rewrite split_join by (discriminate || exact Hlf).
  clear -Hne. induction Hne as [|a l Ha Hl IH]; [reflexivity|].
  simpl. apply truthy_nonempty in Ha. now rewrite Ha, IH.
Qed.

Lemma output_lines_blank : forall output,
  forallb is_whitespace output = true -> output_lines output = [].
Proof.
  intros output H. unfold output_lines, trim. now rewrite trimStart_blank.
Qed.

End OutputLines.

(* ================================================================== *)
(** ** Paths below an absolute workspace *)
(* ================================================================== *)

Section PathsBelow.

Lemma trimEnd_nonempty : forall c s, is_whitespace c = false -> trimEnd (c :: s) <> [].
Proof.
  intros c s Hc. cbn [trimEnd]. rewrite Hc. destruct (trimEnd s); discriminate.
Qed.

Lemma trim_absolute_truthy : forall segs, truthy (trim (absolute segs)) = true.
Proof.
  intros segs. unfold trim, absolute. rewrite trimStart_head by reflexivity.
  apply truthy_nonempty. now apply trimEnd_nonempty.
Qed.

Lemma in_join : forall c sep parts,
  In c (join sep parts) -> In c sep \/ exists p, In p parts /\ In c p.
Proof.
  intros c sep parts. induction parts as [|p parts IH]; intros H; [contradiction|].
  destruct parts as [|q parts].
  - right. exists p. split; [now left | exact H].
  - rewrite join_cons in H by discriminate.
    apply in_app_or in H as [H|H]; [right; exists p; split; [now left | exact H]|].
    apply in_app_or in H as [H|H]; [now left|].
    destruct (IH H) as [Hs | (p' & Hp' & Hc)]; [now left|].
    right. exists p'. split; [now right | exact Hc].
Qed.

Lemma no_line_feed_absolute : forall segs,
  Forall no_line_feed segs -> no_line_feed (absolute segs).
Proof.
  intros segs H Hin. unfold absolute in Hin.
  destruct Hin as [Hin|Hin]; [discriminate|].
  apply in_join in Hin as [Hin | (p & Hp & Hc)].
  - destruct Hin as [Hin|[]]; discriminate.
  - rewrite Forall_forall in H. exact (H p Hp Hc).
Qed.

Lemma join_app_suffix : forall sep (a b : list jsstring),
  b <> [] -> exists pre, join sep (a ++ b) = pre ++ join sep b.
Proof.
  intros sep a b Hne. induction a as [|x a (pre & IH)]; [now exists []|].
  cbn [app]. rewrite join_cons.
  - rewrite IH. exists (x ++ sep ++ pre). now rewrite <- !app_assoc.
  - intros H. apply app_eq_nil in H as [_ H]. contradiction.
Qed.

Lemma ends_with_whitespace_absolute : forall a b,
  clean_segments b -> b <> [] ->
  ends_with_whitespace (absolute (a ++ b)) = ends_with_whitespace (join Path.slash b).
Proof.
  intros a b Hb Hne. unfold absolute.
  destruct (join_app_suffix Path.slash a b Hne) as (pre & ->).
  change (ch "/" :: pre ++ join Path.slash b) with ((ch "/" :: pre) ++ join Path.slash b).
  apply ends_with_whitespace_app. now apply join_clean_nonempty.
Qed.

(** [path.resolve(w, p)] for an absolute [p]: the first argument is not
    looked at. *)
Lemma resolve_to_absolute : forall cwd w segs,
  clean_segments segs -> Path.resolve cwd [w; absolute segs] = absolute segs.
Proof.
  intros cwd w segs H. unfold Path.resolve. cbn [rev app Path.resolve_loop].
  change (truthy (absolute segs)) with true. cbv iota.
  change (Path.isAbsolute (absolute segs)) with (N.eqb (ch "/") (ch "/")).
  change (N.eqb (ch "/") (ch "/")) with true. cbv iota. cbn [negb].
  change (absolute segs ++ Path.slash ++ []) with (absolute segs ++ ch "/" :: []).
  rewrite normalizeString_tidy by (apply tidy_app; [now apply tidy_absolute | apply tidy_nil]).
  rewrite segments_app, segments_absolute by assumption.
  change (Path.segments []) with (@nil jsstring). now rewrite app_nil_r.
Qed.

Lemma relative_not_absolute : forall b,
  clean_segments b -> Path.isAbsolute (join Path.slash b) = false.
Proof.
  intros b Hb. destruct Hb as [|s b Hs Hb]; [reflexivity|].
  apply clean_segment_facts in Hs as (Hne & Hslash & _).
  destruct s as [|c s]; [congruence|].
  inversion Hslash as [|? ? Hc _]; subst.
  assert (E : exists rest, join Path.slash ((c :: s) :: b) = c :: rest).
  { destruct b; [now exists s|]. rewrite join_cons by discriminate. now eexists. }
  destruct E as (rest & E). unfold jsstring in *. rewrite E. simpl. now apply N.eqb_neq.
Qed.

(** [path.resolve(w, p)] for a workspace [w] and a path [p] of plain
    names relative to it. *)
Lemma resolve_below : forall cwd a b,
  clean_segments a -> clean_segments b ->
  Path.resolve cwd [absolute a; join Path.slash b] = absolute (a ++ b).
Proof.
  intros cwd a b Ha Hb. destruct b as [|s b].
  - rewrite app_nil_r. unfold Path.resolve. cbn [rev app Path.resolve_loop join truthy].
    change (truthy (absolute a)) with true. cbv iota.
    change (Path.isAbsolute (absolute a)) with true. cbv iota. cbn [negb].
    change (absolute a ++ Path.slash ++ []) with (absolute a ++ ch "/" :: []).
    rewrite normalizeString_tidy by (apply tidy_app; [now apply tidy_absolute | apply tidy_nil]).
    rewrite segments_app, segments_absolute by assumption.
    change (Path.segments []) with (@nil jsstring). now rewrite app_nil_r.
  - assert (Hne : s :: b <> []) by discriminate.
    pose proof (join_clean_nonempty (s :: b) Hb Hne) as Hj.
    apply truthy_nonempty in Hj.
    unfold Path.resolve. cbn [rev app Path.resolve_loop].
    rewrite Hj, (relative_not_absolute (s :: b) Hb).
    change (truthy (absolute a)) with true. cbv iota.
    change (Path.isAbsolute (absolute a)) with true. cbv iota. cbn [negb].
    change (absolute a ++ Path.slash ++ join Path.slash (s :: b) ++ Path.slash ++ [])
      with (absolute a ++ ch "/" :: (join Path.slash (s :: b) ++ ch "/" :: [])).
    rewrite normalizeString_tidy
      by (apply tidy_app; [now apply tidy_absolute
                          | apply tidy_app; [now apply tidy_join | apply tidy_nil]]).
    rewrite !segments_app, segments_absolute, segments_join by assumption.
    change (Path.segments []) with (@nil jsstring). now rewrite app_nil_r.
Qed.

Lemma last_map : forall (A B : Type) (g : A -> B) x l d d',
  last (map g (x :: l)) d = g (last (x :: l) d').
Proof.
  intros A B g x l d d'. revert x. induction l as [|y l IH]; intros x; [reflexivity|].
  change (last (map g (x :: y :: l)) d) with (last (map g (y :: l)) d).
  rewrite IH. reflexivity.
Qed.

End PathsBelow.

(* ================================================================== *)
(** ** [parseRipgrepOutput] on what ripgrep prints *)
(* ================================================================== *)

Section PlainOutput.

Variable rt : Runtime.

Lemma parseFilesWithMatches_below : forall cwd wsegs files,
  clean_segments wsegs ->
  Forall (fun f => clean_segments f) files ->
  parseFilesWithMatches cwd (map (fun f => absolute (wsegs ++ f)) files) (absolute wsegs)
  = FilesWithMatchesResult (map (join Path.slash) files).
Proof.
  intros cwd wsegs files Hw Hfiles. unfold parseFilesWithMatches. f_equal.
  induction Hfiles as [|f files Hf Hfiles IH]; [reflexivity|].
  cbn [map flat_map]. rewrite IH, trim_absolute_truthy.
  rewrite resolve_to_absolute by (now apply Forall_app).
  now rewrite relative_absolute.
Qed.

(** Output that holds white space only, the empty output among it,
    parses to no data, in each of the three modes. *)
Theorem parseRipgrepOutput_blank : forall output mode workspace options,
  forallb is_whitespace output = true ->
  parseRipgrepOutput rt output mode workspace options
  = match mode with
    | mode_content => ContentResult []
    | mode_files_with_matches => FilesWithMatchesResult []
    | mode_count => CountResult []
    end.
Proof.
  intros output mode workspace options H. unfold parseRipgrepOutput.
  rewrite output_lines_blank by assumption. destruct mode; reflexivity.
Qed.

(** In [files_with_matches] mode, when ripgrep prints one line per file,
    each the absolute path of a file below the workspace, the result
    lists the same files in the same order, each by its path relative to
    the workspace.  The names hold no line feed, and the last path
    printed does not end in white space. *)
Theorem parseRipgrepOutput_files_below_workspace : forall wsegs files options,
  clean_segments wsegs -> Forall no_line_feed wsegs ->
  Forall (fun f => f <> [] /\ clean_segments f /\ Forall no_line_feed f) files ->
  ends_with_whitespace (join Path.slash (last files [])) = false ->
  parseRipgrepOutput rt (printed (map (fun f => absolute (wsegs ++ f)) files))
    mode_files_with_matches (absolute wsegs) options
  = FilesWithMatchesResult (map (join Path.slash) files).
Proof.
  intros wsegs files options Hw Hwlf Hfiles Hlast. unfold parseRipgrepOutput.
  rewrite output_lines_printed.
  - apply parseFilesWithMatches_below; [assumption|].
    eapply Forall_impl; [|exact Hfiles]. now intros f (_ & H & _).
  - apply Forall_map. apply Forall_forall. intros f _.
    exists (ch "/"), (join Path.slash (wsegs ++ f)). split; reflexivity.
  - apply Forall_map. eapply Forall_impl; [|exact Hfiles].
    intros f (_ & _ & Hf). apply no_line_feed_absolute. now apply Forall_app.
  - destruct files as [|f files]; [reflexivity|].
    erewrite last_map with (d' := []).
    assert (Hin : In (last (f :: files) []) (f :: files)).
    { clear. revert f. induction files as [|g files IH]; intros f; [now left|].
      right. apply IH. }
    rewrite Forall_forall in Hfiles. destruct (Hfiles _ Hin) as (Hne & Hclean & _).
    now rewrite ends_with_whitespace_absolute.
Qed.

(** *** Decimal numerals *)

Lemma show_pos_fuel_digits : forall fuel n acc,
  forallb is_digit acc = true -> forallb is_digit (show_pos_fuel fuel n acc) = true.
Proof.
  induction fuel as [|fuel IH]; intros n acc Hacc; [exact Hacc|].
  cbn [show_pos_fuel].
  assert (Hd : forallb is_digit (digit_char (n mod 10) :: acc) = true).
  { cbn [forallb]. rewrite Hacc, andb_true_r. unfold is_digit, digit_char.
    assert (H : (n mod 10 < 10)%N) by (apply N.mod_upper_bound; discriminate).
    revert H. generalize (n mod 10)%N. intros m Hm. apply andb_true_iff.
    split; apply N.leb_le; lia. }
  destruct (N.ltb n 10); [exact Hd | now apply IH].
Qed.

Lemma show_pos_fuel_truthy : forall fuel n acc,
  truthy (show_pos_fuel (S fuel) n acc) = true.
Proof.
  intros fuel n acc. cbn [show_pos_fuel].
  destruct (N.ltb n 10); [reflexivity|].
  generalize (digit_char (n mod 10)) (n / 10)%N. clear.
  revert acc. induction fuel as [|fuel IH]; intros acc d m; [reflexivity|].
  cbn [show_pos_fuel]. destruct (N.ltb m 10); [reflexivity | apply IH].
Qed.


Lemma show_N_numeral : forall n, numeral (show_N n) = true.
Proof.
  intros n. unfold numeral, show_N.
  now rewrite show_pos_fuel_truthy, show_pos_fuel_digits.
Qed.


Lemma numeral_facts : forall ds,
  numeral ds = true -> ds <> [] /\ Forall (fun c => is_digit c = true) ds.
Proof.
  intros ds H. unfold numeral in H. apply andb_true_iff in H as [H1 H2].
  split; [now apply truthy_nonempty|].
  apply Forall_forall. intros c Hc. rewrite forallb_forall in H2. now apply H2.
Qed.


Lemma numeral_not_in : forall c ds,
  is_digit c = false -> numeral ds = true -> ~ In c ds.
Proof.
  intros c ds Hc Hds Hin. apply numeral_facts in Hds as [_ Hds].
  rewrite Forall_forall in Hds. specialize (Hds c Hin). congruence.
Qed.




End PlainOutput.

(* ================================================================== *)
(** ** The LangChain tools over [glob] and [grep] *)
(* ================================================================== *)

Section Tools.

Lemma in_join_part : forall c sep (p : jsstring) parts,
  In p parts -> In c p -> In c (join sep parts).
Proof.
  intros c sep p parts. induction parts as [|q parts IH]; intros Hp Hc; [contradiction|].
  destruct parts as [|r parts].
  - destruct Hp as [->|[]]. exact Hc.
  - rewrite join_cons by discriminate. apply in_or_app.
    destruct Hp as [->|Hp]; [now left|].
    right. apply in_or_app. right. now apply IH.
Qed.

Lemma not_in_existsb : forall c (s : jsstring), existsb (N.eqb c) s = false -> ~ In c s.
Proof.
  intros c s H Hin.
  assert (E : existsb (N.eqb c) s = true)
    by (apply existsb_exists; exists c; split; [assumption | apply N.eqb_refl]).
  congruence.
Qed.

Lemma show_length_not_in : forall (A : Type) (l : list A) c,
  is_digit c = false -> ~ In c (show_length l).
Proof. intros A l c Hc. apply numeral_not_in; [assumption | apply show_N_numeral]. Qed.

(** The answer of [find_files].  The tool never throws.  Its answer
    starts with "Error: " exactly when [glob] fails, and then carries
    the error message of [glob]; without a matching file it names the
    pattern; otherwise, when no path holds a line feed, the answer is a
    header line with the number of files followed by one line per file,
    in the order of [glob]. *)
Theorem find_files_answer : forall fs workspace pattern path,
  exists out,
    createGlobTool_func (glob fs workspace) pattern path = Normal out
    /\ (startsWith out (str "Error: ") = true
        <-> exists e, glob fs workspace pattern path = Normal (Failure e))
    /\ (forall e, glob fs workspace pattern path = Normal (Failure e) -> e <> [] ->
          out = str "Error: " ++ e)
    /\ (glob fs workspace pattern path = Normal (Success []) ->
          out = str "No files found matching pattern: " ++ pattern)
    /\ (forall files,
          glob fs workspace pattern path = Normal (Success files) ->
          files <> [] -> Forall no_line_feed files ->
          split 10%N out = (str "Found " ++ show_length files ++ str " file(s):") :: files).
Proof.
  intros fs workspace pattern path. unfold createGlobTool_func.
  destruct (glob_never_throws fs workspace pattern path) as (r & Hr). rewrite Hr.
  destruct r as [files|e].
  - destruct files as [|f files].
    + eexists. split; [reflexivity|]. split.
      { split; [discriminate|]. intros (e & He). discriminate. }
      split; [discriminate|]. split; [reflexivity|].
      intros files' H Hne. injection H as <-. congruence.
    + eexists. split; [reflexivity|]. split.
      { split; [discriminate|]. intros (e & He). discriminate. }
      split; [discriminate|]. split; [discriminate|].
      intros files' H _ Hlf. injection H as <-.
      change (str "Found " ++ show_length (f :: files) ++ str " file(s):" ++ line_feed
              ++ join line_feed (f :: files))
        with (str "Found " ++ show_length (f :: files) ++ str " file(s):" ++ 10%N
              :: join [10%N] (f :: files)).
      rewrite !app_assoc. rewrite split_app.
      rewrite split_join by (discriminate || exact Hlf).
      rewrite split_without; [now rewrite <- !app_assoc|].
      intros Hin. apply in_app_or in Hin as [Hin|Hin].
      * apply in_app_or in Hin as [Hin|Hin].
        -- revert Hin. now apply not_in_existsb.
        -- revert Hin. now apply show_length_not_in.
      * revert Hin. now apply not_in_existsb.
  - eexists. split; [reflexivity|]. split.
    { split; [intros _; now exists e | intros _; apply startsWith_app]. }
    split.
    { intros e' H Hne. injection H as <-. unfold or_else.
      apply truthy_nonempty in Hne. now rewrite Hne. }
    split; [discriminate|]. discriminate.
Qed.


Lemma format_file_erase : forall g, format_file (erase_columns g) = format_file g.
Proof.
  intros g. unfold format_file, erase_columns. simpl. rewrite map_map.
  do 3 f_equal.
Qed.

Lemma format_content_erase : forall d,
  format_grep_result (ContentResult (map erase_columns d))
  = format_grep_result (ContentResult d).
Proof.
  intros d. destruct d as [|g d]; [reflexivity|].
  cbn [map format_grep_result]. f_equal.
  rewrite format_file_erase. f_equal.
  rewrite map_map. apply map_ext. intros x. apply format_file_erase.
Qed.

Lemma parseContentOutput_erase : forall cwd workspace o1 o2 lines,
  map erase_columns (content_data (parseContentOutput cwd lines workspace o1))
  = map erase_columns (content_data (parseContentOutput cwd lines workspace o2)).
Proof.
  intros cwd workspace o1 o2 lines. simpl. rewrite !collect_results_erase. f_equal.
  unfold run_lines. apply fold_handle_erase; reflexivity.
Qed.

(** The [showLineNumbers] argument of [search_content] has no effect on
    the answer: it reaches neither the command line of ripgrep nor the
    text that the tool prints. *)
Theorem search_content_ignores_showLineNumbers : forall rt workspace a v,
  createGrepTool_func (grep rt workspace) (with_showLineNumbers v a)
  = createGrepTool_func (grep rt workspace) a.
Proof.
  intros rt workspace a v. unfold createGrepTool_func, grep, grep_body.
  change (opt_pattern (search_options (with_showLineNumbers v a)))
    with (opt_pattern (search_options a)).
  change (grep_searchPath workspace (search_options (with_showLineNumbers v a)))
    with (grep_searchPath workspace (search_options a)).
  change (grep_argv workspace (search_options (with_showLineNumbers v a)))
    with (grep_argv workspace (search_options a)).
  change (grep_output_mode (search_options (with_showLineNumbers v a)))
    with (grep_output_mode (search_options a)).
  destruct (negb (truthy (opt_pattern (search_options a)))); [reflexivity|].
  destruct (regexp_syntax_error rt (opt_pattern (search_options a))); [reflexivity|].
  destruct (negb (grep_within_workspace _ _ _)); [reflexivity|].
  destruct (executeRipgrep _) as [|output|e]; try reflexivity.
  f_equal. unfold parseRipgrepOutput.
  destruct (grep_output_mode (search_options a)); try reflexivity.
  set (lines := map (read_json_line rt) (output_lines output)).
  pose proof (parseContentOutput_erase (process_cwd rt) workspace
                (search_options (with_showLineNumbers v a)) (search_options a) lines) as H.
  unfold parseContentOutput in *. simpl in H.
  rewrite <- format_content_erase, H. apply format_content_erase.
Qed.

(** [search_content] answers "No matches found" exactly when [grep]
    succeeds with no data: no failure and no result with data is reported
    in these words. *)
Theorem search_content_no_matches : forall rt workspace a,
  createGrepTool_func (grep rt workspace) a = Resolved (str "No matches found")
  <-> exists r, grep rt workspace (search_options a) = Resolved (Success r)
                /\ no_data r = true.
Proof.
  intros rt workspace a. unfold createGrepTool_func.
  destruct (grep rt workspace (search_options a)) as [|[r|e]|e].
  - split; [discriminate | intros (r & H & _); discriminate].
  - split.
    + intros H. exists r. split; [reflexivity|]. injection H as H.
      destruct r as [[|g d]|[|f d]|[|c d]]; try reflexivity; exfalso.
      * assert (Hin : In 10%N (format_grep_result (ContentResult (g :: d)))).
        { apply (in_join_part _ _ (format_file g)); [now left|].
          unfold format_file. apply in_or_app. right. apply in_or_app. right.
          apply in_or_app. left. now left. }
        rewrite H in Hin. revert Hin. now apply not_in_existsb.
      * discriminate H.
      * assert (Hin : In (ch "(") (format_grep_result (CountResult (c :: d)))).
        { apply (in_join_part _ _ (format_count c)); [now left|].
          unfold format_count. apply in_or_app. right. apply in_or_app. right.
          apply in_or_app. right. cbn. repeat (first [left; reflexivity | right]). }
        rewrite H in Hin. revert Hin. now apply not_in_existsb.
    + intros (r' & H & Hr). injection H as <-.
      destruct r as [[|g d]|[|f d]|[|c d]]; try discriminate; reflexivity.
  - split; [discriminate | intros (r & H & _); discriminate].
  - split; [discriminate | intros (r & H & _); discriminate].
Qed.

End Tools.

(* ================================================================== *)
(** ** Searching and splitting strings *)
(* ================================================================== *)

Section StringSearch.

Lemma startsWith_iff : forall a b, startsWith a b = true <-> exists r, a = b ++ r.
Proof.
  intros a b. revert a. induction b as [|y b IH]; intros a.
  - split; [intros _; now exists a | destruct a; reflexivity].
  - destruct a as [|x a]; simpl.
    + split; [discriminate | intros (r & H); discriminate].
    + rewrite andb_true_iff, N.eqb_eq, IH. split.
      * intros (-> & r & ->). now exists r.
      * intros (r & H). injection H as -> ->. split; [reflexivity | now exists r].
Qed.

(** Two prefixes of one string: the shorter is a prefix of the longer. *)
Lemma prefix_of_prefix : forall (x y r1 r2 : jsstring),
  x ++ r1 = y ++ r2 -> length y <= length x -> exists b, x = y ++ b.
Proof.
  intros x y. revert x. induction y as [|c y IH]; intros x r1 r2 H Hlen.
  - now exists x.
  - destruct x as [|d x]; [simpl in Hlen; lia|].
    simpl in H. injection H as -> H. simpl in Hlen.
    destruct (IH x r1 r2 H) as (b & ->); [lia|]. now exists b.
Qed.

Lemma first_occurrence_nil : forall sub, first_occurrence sub [].
Proof.
  intros sub a b H. apply (f_equal (@length N)) in H.
  rewrite !length_app in H. simpl in H. destruct b; [reflexivity | simpl in H; lia].
Qed.

Lemma first_occurrence_tail : forall sub c pre,
  first_occurrence sub (c :: pre) -> first_occurrence sub pre.
Proof.
  intros sub c pre H a b E. apply (H (c :: a) b). simpl. now rewrite E.
Qed.

Lemma first_occurrence_cons : forall sub c pre rest,
  startsWith (c :: pre ++ sub ++ rest) sub = false ->
  first_occurrence sub pre -> first_occurrence sub (c :: pre).
Proof.
  intros sub c pre rest Hs H a b E. destruct a as [|d a].
  - exfalso.
    assert (Hstart : startsWith (c :: pre ++ sub ++ rest) sub = true).
    { apply startsWith_iff. exists (b ++ rest).
      change (c :: pre ++ sub ++ rest) with ((c :: pre) ++ sub ++ rest).
      rewrite app_assoc, E. cbn [app]. now rewrite <- app_assoc. }
    congruence.
  - simpl in E. injection E as -> E. now apply (H a b).
Qed.

Lemma first_occurrence_start : forall sub c pre rest,
  first_occurrence sub (c :: pre) -> startsWith (c :: pre ++ sub ++ rest) sub = false.
Proof.
  intros sub c pre rest H.
  destruct (startsWith (c :: pre ++ sub ++ rest) sub) eqn:E; [|reflexivity].
  apply startsWith_iff in E as (r & E). exfalso.
  change (c :: pre ++ sub ++ rest) with ((c :: pre) ++ sub ++ rest) in E.
  rewrite app_assoc in E.
  destruct (prefix_of_prefix ((c :: pre) ++ sub) sub rest r E) as (b & Hb).
  { rewrite length_app. simpl. lia. }
  specialize (H [] b Hb). subst b. rewrite app_nil_r in Hb.
  apply (f_equal (@length N)) in Hb. rewrite length_app in Hb. simpl in Hb. lia.
Qed.

Lemma occurs_cons : forall sub c s,
  occurs sub (c :: s) -> startsWith (c :: s) sub = true \/ occurs sub s.
Proof.
  intros sub c s (a & b & E). destruct a as [|d a].
  - left. apply startsWith_iff. now exists b.
  - right. simpl in E. injection E as _ E. now exists a, b.
Qed.

Lemma occurs_tail : forall sub c s, occurs sub s -> occurs sub (c :: s).
Proof. intros sub c s (a & b & ->). now exists (c :: a), b. Qed.

(** [indexOf] finds the first occurrence, and fails only when there
    is none. *)
Lemma indexOf_some : forall sub s i,
  indexOf s sub = Some i ->
  exists pre post, s = pre ++ sub ++ post /\ length pre = i /\ first_occurrence sub pre.
Proof.
  intros sub s. induction s as [|c s IH]; intros i H.
  - cbn [indexOf] in H. destruct (startsWith [] sub) eqn:E; [|discriminate].
    injection H as <-. apply startsWith_iff in E as (r & E).
    exists [], r. split; [exact E|]. split; [reflexivity | apply first_occurrence_nil].
  - cbn [indexOf] in H. destruct (startsWith (c :: s) sub) eqn:E.
    + injection H as <-. apply startsWith_iff in E as (r & E).
      exists [], r. split; [exact E|]. split; [reflexivity | apply first_occurrence_nil].
    + destruct (indexOf s sub) as [j|] eqn:Ej; [|discriminate].
      injection H as <-. destruct (IH j eq_refl) as (pre & post & -> & <- & Hfirst).
      exists (c :: pre), post. split; [reflexivity|]. split; [reflexivity|].
      now apply (first_occurrence_cons sub c pre post).
Qed.

Lemma indexOf_none : forall sub s, indexOf s sub = None -> ~ occurs sub s.
Proof.
  intros sub s. induction s as [|c s IH]; intros H Hocc.
  - cbn [indexOf] in H. destruct (startsWith [] sub) eqn:E; [discriminate|].
    destruct Hocc as (a & b & Hab). assert (startsWith [] sub = true); [|congruence].
    apply startsWith_iff. destruct a; [|discriminate]. now exists b.
  - cbn [indexOf] in H. destruct (startsWith (c :: s) sub) eqn:E; [discriminate|].
    destruct (indexOf s sub) eqn:Ej; [discriminate|].
    apply occurs_cons in Hocc as [Hs|Hs]; [congruence | now apply IH].
Qed.

Lemma indexOf_first : forall sub pre post,
  first_occurrence sub pre -> indexOf (pre ++ sub ++ post) sub = Some (length pre).
Proof.
  intros sub pre post. induction pre as [|c pre IH]; intros H.
  - assert (E : startsWith (sub ++ post) sub = true) by (apply startsWith_iff; now exists post).
    cbn [app]. destruct (sub ++ post); cbn [indexOf]; now rewrite E.
  - cbn [app indexOf]. rewrite (first_occurrence_start sub c pre post H).
    rewrite IH by (now apply first_occurrence_tail with c). reflexivity.
Qed.

Lemma same_length_prefix : forall (a b x y : jsstring),
  length a = length b -> a ++ x = b ++ y -> a = b.
Proof.
  induction a as [|c a IH]; intros b x y Hlen E.
  - destruct b; [reflexivity | discriminate].
  - destruct b as [|d b]; [discriminate|].
    simpl in E. injection E as -> E. simpl in Hlen. f_equal.
    apply (IH b x y); [lia | assumption].
Qed.

(** A test for [first_occurrence] that can be run. *)
Lemma first_occurrence_found : forall (sub pre : jsstring),
  indexOf (pre ++ sub) sub = Some (length pre) -> first_occurrence sub pre.
Proof.
  intros sub pre H. apply indexOf_some in H as (pre' & post' & E & Hlen & Hfirst).
  now rewrite (same_length_prefix pre' pre (sub ++ post') sub Hlen (eq_sym E)) in Hfirst.
Qed.

Lemma includes_iff : forall s sub, includes s sub = true <-> occurs sub s.
Proof.
  intros s sub. unfold includes. destruct (indexOf s sub) as [i|] eqn:E.
  - split; [intros _|reflexivity].
    apply indexOf_some in E as (pre & post & -> & _). now exists pre, post.
  - split; [discriminate|]. intros H. now apply indexOf_none in E.
Qed.

Lemma includes_false : forall s sub, includes s sub = false <-> ~ occurs sub s.
Proof.
  intros s sub. rewrite <- includes_iff. destruct (includes s sub); split; congruence.
Qed.

(** *** [split] with a string separator *)

Lemma split_on_skip : forall sep (a s : jsstring),
  split_on sep (length a) (a ++ s) = split_on sep 0 s.
Proof. intros sep a s. induction a as [|c a IH]; [reflexivity | exact IH]. Qed.

Lemma split_on_nonempty : forall sep k s, split_on sep k s <> [].
Proof.
  intros sep k s. revert k. induction s as [|c s IH]; intros k; [discriminate|].
  cbn [split_on]. destruct k; [|apply IH].
  destruct (startsWith (c :: s) sep); [discriminate|].
  destruct (split_on sep 0 s); discriminate.
Qed.

Lemma split_on_match : forall sep rest,
  sep <> [] -> split_on sep 0 (sep ++ rest) = [] :: split_on sep 0 rest.
Proof.
  intros sep rest Hne. destruct sep as [|c sep]; [congruence|].
  cbn [app split_on].
  assert (E : startsWith (c :: sep ++ rest) (c :: sep) = true)
    by (apply startsWith_iff; now exists rest).
  rewrite E. cbn [length]. rewrite Nat.sub_succ, Nat.sub_0_r.
  now rewrite split_on_skip.
Qed.

Lemma split_on_step : forall sep c s,
  startsWith (c :: s) sep = false ->
  exists p ps, split_on sep 0 s = p :: ps /\ split_on sep 0 (c :: s) = (c :: p) :: ps.
Proof.
  intros sep c s H. cbn [split_on]. rewrite H.
  destruct (split_on sep 0 s) as [|p ps] eqn:E; [now apply split_on_nonempty in E|].
  now exists p, ps.
Qed.

Lemma pieces_of_cons_char : forall sep c s p ps,
  startsWith (c :: s) sep = false ->
  pieces_of sep s (p :: ps) -> pieces_of sep (c :: s) ((c :: p) :: ps).
Proof.
  intros sep c s p ps Hs H. inversion H as [s0 Hno | pre rest ps0 Hfirst Hrest]; subst.
  - apply pieces_last. intros Hocc. apply occurs_cons in Hocc as [E|E]; [congruence | auto].
  - change (c :: p ++ sep ++ rest) with ((c :: p) ++ sep ++ rest).
    apply pieces_cons; [|assumption]. now apply (first_occurrence_cons sep c p rest).
Qed.

(** The result of [split] is the cut of the string at the occurrences
    of the separator, taken from the left. *)
Lemma split_on_pieces : forall sep s, sep <> [] -> pieces_of sep s (split_on sep 0 s).
Proof.
  intros sep s Hne.
  remember (length s) as n eqn:Hn. revert s Hn.
  induction n as [n IH] using lt_wf_ind. intros s Hn.
  destruct s as [|c s].
  - apply pieces_last. intros (a & b & E). destruct a; [|discriminate].
    destruct sep; [congruence | discriminate].
  - destruct (startsWith (c :: s) sep) eqn:E.
    + apply startsWith_iff in E as (rest & E). rewrite E, split_on_match by assumption.
      change (sep ++ rest) with ([] ++ sep ++ rest).
      apply pieces_cons; [apply first_occurrence_nil|].
      apply (IH (length rest)); [|reflexivity].
      subst n. rewrite E, length_app. destruct sep; [congruence | simpl; lia].
    + destruct (split_on_step sep c s E) as (p & ps & Hs & ->).
      apply pieces_of_cons_char; [assumption|]. rewrite <- Hs.
      apply (IH (length s)); [subst n; simpl; lia | reflexivity].
Qed.

Lemma split_on_none : forall sep s, ~ occurs sep s -> split_on sep 0 s = [s].
Proof.
  intros sep s. induction s as [|c s IH]; intros H; [reflexivity|].
  assert (E : startsWith (c :: s) sep = false).
  { destruct (startsWith (c :: s) sep) eqn:E; [|reflexivity].
    exfalso. apply H. apply startsWith_iff in E as (r & E). now exists [], r. }
  cbn [split_on]. rewrite E, IH; [reflexivity|].
  intros Hocc. apply H. now apply occurs_tail.
Qed.

Lemma split_on_first : forall sep pre rest,
  sep <> [] -> first_occurrence sep pre ->
  split_on sep 0 (pre ++ sep ++ rest) = pre :: split_on sep 0 rest.
Proof.
  intros sep pre rest Hne. induction pre as [|c pre IH]; intros H.
  - cbn [app]. now apply split_on_match.
  - cbn [app split_on]. rewrite (first_occurrence_start sep c pre rest H).
    rewrite IH by (now apply first_occurrence_tail with c). reflexivity.
Qed.

(** The cut is unique: [split] is determined by [pieces_of]. *)
Lemma pieces_of_unique : forall sep s ps,
  sep <> [] -> pieces_of sep s ps -> split_on sep 0 s = ps.
Proof.
  intros sep s ps Hne H. induction H as [s Hno | pre rest ps Hfirst Hrest IH].
  - now apply split_on_none.
  - rewrite split_on_first by assumption. now rewrite IH.
Qed.

Lemma pieces_of_nonempty : forall sep s ps, pieces_of sep s ps -> ps <> [].
Proof. intros sep s ps H. destruct H; discriminate. Qed.

Lemma pieces_of_join : forall sep s ps, pieces_of sep s ps -> join sep ps = s.
Proof.
  intros sep s ps H. induction H as [s Hno | pre rest ps Hfirst Hrest IH]; [reflexivity|].
  rewrite join_cons by (now apply pieces_of_nonempty in Hrest). now rewrite IH.
Qed.

(** With a separator of one code unit, [split_string] is the [split]
    used for lines and path segments. *)
Lemma split_string_char : forall c s, split_string [c] s = split c s.
Proof.
  intros c s. unfold split_string. induction s as [|x s IH]; [reflexivity|].
  cbn [split_on split startsWith length].
  replace (startsWith s []) with true by (now destruct s).
  rewrite andb_true_r. change (1 - 1) with 0.
  destruct (N.eqb x c); [now rewrite <- IH | now rewrite IH].
Qed.

End StringSearch.

(* ================================================================== *)
(** ** The shape of resolved paths *)
(* ================================================================== *)

Section ResolvedPaths.

Lemma split_parts_without : forall sep s, Forall (fun p => ~ In sep p) (split sep s).
Proof.
  intros sep s. induction s as [|c s IH]; [constructor; [intros []|constructor]|].
  cbn [split]. destruct (N.eqb_spec c sep) as [->|Hne].
  - constructor; [intros []|exact IH].
  - destruct (split sep s) as [|w ws]; [constructor; [|constructor]|].
    + intros [H|[]]. congruence.
    + inversion IH as [|? ? Hw Hws]; subst. constructor; [|assumption].
      intros [H|H]; [congruence | contradiction].
Qed.

Lemma clean_segment_intro : forall s,
  ~ In (ch "/") s -> str_eqb s [] = false -> str_eqb s Path.dot = false ->
  str_eqb s Path.dotdot = false -> clean_segment s = true.
Proof.
  intros s Hslash Hnil Hdot Hdd. unfold clean_segment.
  rewrite Hdot, Hdd. simpl. rewrite !andb_true_r.
  apply andb_true_iff. split.
  - apply truthy_nonempty. now apply str_eqb_neq in Hnil.
  - apply forallb_forall. intros c Hc. apply negb_true_iff, N.eqb_neq.
    intros ->. contradiction.
Qed.

(** Below the root, [normalizeString] keeps plain names only. *)
Lemma normalize_segments_clean : forall segs stack,
  Forall (fun p => ~ In (ch "/") p) segs -> clean_segments stack ->
  clean_segments (Path.normalize_segments false stack segs).
Proof.
  induction segs as [|s segs IH]; intros stack Hsegs Hstack.
  - simpl. now apply Forall_rev.
  - inversion Hsegs as [|? ? Hs Hrest]; subst. cbn [Path.normalize_segments].
    destruct (str_eqb s [] || str_eqb s Path.dot) eqn:E1; [now apply IH|].
    apply orb_false_iff in E1 as [Hnil Hdot].
    destruct (str_eqb s Path.dotdot) eqn:E2.
    + destruct stack as [|top stack]; [now apply IH|].
      inversion Hstack; subst.
      destruct (str_eqb top Path.dotdot); now apply IH.
    + apply IH; [assumption|]. constructor; [|assumption].
      now apply clean_segment_intro.
Qed.

Lemma resolve_loop_absolute : forall cwd cands acc,
  Path.isAbsolute cwd = true ->
  exists resolvedPath, Path.resolve_loop (cands ++ [cwd]) acc = (resolvedPath, true).
Proof.
  intros cwd cands. induction cands as [|p cands IH]; intros acc Hcwd.
  - cbn [app Path.resolve_loop]. rewrite Hcwd.
    destruct cwd as [|c cwd]; [discriminate|]. cbn [truthy]. now eexists.
  - cbn [app Path.resolve_loop]. destruct (truthy p); [|now apply IH].
    destruct (Path.isAbsolute p); [now eexists | now apply IH].
Qed.

(** With an absolute working directory, [path.resolve] yields the root
    followed by plain names. *)
Lemma resolve_shape : forall cwd paths,
  Path.isAbsolute cwd = true ->
  exists segs, clean_segments segs /\ Path.resolve cwd paths = absolute segs.
Proof.
  intros cwd paths Hcwd. unfold Path.resolve.
  destruct (resolve_loop_absolute cwd (rev paths) [] Hcwd) as (rp & ->).
  exists (Path.normalize_segments false [] (split (ch "/") rp)).
  split; [|reflexivity].
  apply normalize_segments_clean; [apply split_parts_without | constructor].
Qed.

Lemma is_prefix_iff : forall a b, is_prefix a b = true <-> exists r, b = a ++ r.
Proof.
  induction a as [|x a IH]; intros b.
  - split; [intros _; now exists b | reflexivity].
  - destruct b as [|y b]; simpl.
    + split; [discriminate | intros (r & H); discriminate].
    + rewrite andb_true_iff, str_eqb_eq, IH. split.
      * intros (-> & r & ->). now exists r.
      * intros (r & H). injection H as -> ->. split; [reflexivity | now exists r].
Qed.

Lemma join_app : forall sep (a b : list jsstring),
  a <> [] -> b <> [] -> join sep (a ++ b) = join sep a ++ sep ++ join sep b.
Proof.
  intros sep a b Ha Hb. induction a as [|x a IH]; [congruence|].
  destruct a as [|y a].
  - cbn [app]. now rewrite join_cons.
  - change ((x :: y :: a) ++ b) with (x :: (y :: a) ++ b).
    rewrite join_cons by discriminate. rewrite IH by discriminate.
    rewrite (join_cons sep x (y :: a)) by discriminate.
    now rewrite <- !app_assoc.
Qed.

Lemma absolute_below : forall a r,
  a <> [] -> r <> [] -> absolute (a ++ r) = absolute a ++ ch "/" :: join Path.slash r.
Proof. intros a r Ha Hr. unfold absolute. now rewrite join_app. Qed.

(** For a workspace other than the root, "equal to the workspace or
    starting with the workspace and a separator" is containment segment
    by segment. *)
Lemma separator_check_exact : forall a b,
  clean_segments a -> clean_segments b -> a <> [] ->
  startsWith (absolute b) (absolute a ++ [path_sep]) || str_eqb (absolute b) (absolute a)
  = is_prefix a b.
Proof.
  intros a b Ha Hb Hne. apply eq_true_iff_eq.
  rewrite orb_true_iff, startsWith_iff, str_eqb_eq, is_prefix_iff. split.
  - intros [(r & H) | H].
    + apply (f_equal Path.segments) in H.
      rewrite <- app_assoc in H. change ([path_sep] ++ r) with (ch "/" :: r) in H.
      rewrite segments_app, (segments_absolute a Ha), (segments_absolute b Hb) in H.
      exists (Path.segments r). exact H.
    + apply (f_equal Path.segments) in H.
      rewrite (segments_absolute a Ha), (segments_absolute b Hb) in H.
      exists []. now rewrite app_nil_r.
  - intros (r & ->). destruct r as [|s r].
    + right. now rewrite app_nil_r.
    + left. exists (join Path.slash (s :: r)).
      rewrite absolute_below by (assumption || discriminate).
      now rewrite <- app_assoc.
Qed.

(** The plain string test never rejects what lies in the workspace. *)
Lemma prefix_check_complete : forall a b,
  clean_segments a -> clean_segments b ->
  is_prefix a b = true -> startsWith (absolute b) (absolute a) = true.
Proof.
  intros a b Ha Hb H. apply is_prefix_iff in H as (r & ->).
  apply startsWith_iff. destruct a as [|x a].
  - exists (join Path.slash r). reflexivity.
  - destruct r as [|s r].
    + exists []. now rewrite !app_nil_r.
    + exists (ch "/" :: join Path.slash (s :: r)).
      now rewrite absolute_below by discriminate.
Qed.

End ResolvedPaths.

(* ================================================================== *)
(** ** read.ts *)
(* ================================================================== *)

Section Read.

(** The check of [read] is exact.  For a workspace that is not the root
    of the file system, [isPathSafe] accepts a path exactly when the
    path, once resolved, is the workspace or lies below it, segment by
    segment: a sibling directory whose name extends the name of the
    workspace is rejected. *)
Theorem isPathSafe_exact : forall cwd workspace path,
  Path.isAbsolute cwd = true ->
  Path.resolve cwd [workspace] <> str "/" ->
  isPathSafe cwd workspace path = inside_workspace cwd workspace path.
Proof.
  intros cwd workspace path Hcwd Hroot.
  unfold isPathSafe, inside_workspace.
  destruct (resolve_shape cwd [workspace] Hcwd) as (a & Ha & Ea).
  destruct (resolve_shape cwd [path] Hcwd) as (b & Hb & Eb).
  rewrite Ea, Eb in *. rewrite !segments_absolute by assumption.
  apply separator_check_exact; try assumption.
  intros ->. now apply Hroot.
Qed.

End Read.

Section ReadOp.

Variable World : Type.
Variable api : FsApi World.

(** [read] on a workspace that is not the root of the file system.  It
    never throws.  It succeeds exactly when the path given is relative,
    the joined path lies in the workspace segment by segment, [stat]
    reports a regular file there and [readFile] returns; the data is
    then what [readFile] returned.  A path that is absolute or leaves
    the workspace is answered with the traversal message, whatever the
    file system holds.  Every failure of [stat] is reported as "File not
    found". *)
Theorem read_outcomes : forall w workspace relativePath,
  Path.isAbsolute (api_cwd api) = true ->
  Path.resolve (api_cwd api) [workspace] <> str "/" ->
  let fullPath := Path.join_paths [workspace; relativePath] in
  (exists r, read api w workspace relativePath = Normal r)
  /\ (forall content,
        read api w workspace relativePath = Normal (Success content)
        <-> Path.isAbsolute relativePath = false
            /\ inside_workspace (api_cwd api) workspace fullPath = true
            /\ (exists stats, api_stat api w fullPath = Normal stats
                              /\ stats_isFile stats = true)
            /\ api_readFile api w fullPath = Normal content)
  /\ (Path.isAbsolute relativePath = true
      \/ inside_workspace (api_cwd api) workspace fullPath = false ->
      read api w workspace relativePath
      = Normal (Failure (str "Path traversal detected: " ++ relativePath
                         ++ str " is outside workspace")))
  /\ (Path.isAbsolute relativePath = false ->
      inside_workspace (api_cwd api) workspace fullPath = true ->
      forall e, api_stat api w fullPath = Throw e ->
      read api w workspace relativePath
      = Normal (Failure (str "File not found: " ++ relativePath))).
Proof.
  intros w workspace relativePath Hcwd Hroot fullPath.
  assert (Hsafe : isPathSafe (api_cwd api) workspace fullPath
                  = inside_workspace (api_cwd api) workspace fullPath).
  { unfold isPathSafe, inside_workspace.
    destruct (resolve_shape (api_cwd api) [workspace] Hcwd) as (a & Ha & Ea).
    destruct (resolve_shape (api_cwd api) [fullPath] Hcwd) as (b & Hb & Eb).
    rewrite Ea, Eb in *. rewrite (segments_absolute a Ha), (segments_absolute b Hb).
    apply separator_check_exact; try assumption. intros ->. now apply Hroot. }
  unfold read, read_body, try_catch. fold fullPath. rewrite Hsafe.
  destruct (Path.isAbsolute relativePath) eqn:Eabs.
  { split; [now eexists|]. split.
    - intros content. split; [discriminate | intros (H & _); discriminate].
    - split; [reflexivity | discriminate]. }
  destruct (inside_workspace (api_cwd api) workspace fullPath) eqn:Ein; cbn [negb].
  2:{ split; [now eexists|]. split.
      - intros content. split; [discriminate | intros (_ & H & _); discriminate].
      - split; [reflexivity | discriminate]. }
  destruct (api_stat api w fullPath) as [stats|e] eqn:Estat.
  2:{ split; [now eexists|]. split.
      - intros content. split; [discriminate|].
        intros (_ & _ & (stats & H & _) & _). discriminate.
      - split; [intros [H|H]; discriminate | reflexivity]. }
  destruct (stats_isFile stats) eqn:Efile; cbn [negb].
  2:{ split; [now eexists|]. split.
      - intros content. split; [discriminate|].
        intros (_ & _ & (stats' & H & H') & _). injection H as <-. congruence.
      - split; [intros [H|H]; discriminate | discriminate]. }
  destruct (api_readFile api w fullPath) as [content|e] eqn:Eread.
  - split; [now eexists|]. split.
    + intros content'. split.
      * intros H. injection H as <-. repeat split; try reflexivity. now exists stats.
      * intros (_ & _ & _ & H). now injection H as <-.
    + split; [intros [H|H]; discriminate | discriminate].
  - split; [now eexists|]. split.
    + intros content. split; [discriminate | intros (_ & _ & _ & H); discriminate].
    + split; [intros [H|H]; discriminate | discriminate].
Qed.

End ReadOp.

(* ================================================================== *)
(** ** edit.ts *)
(* ================================================================== *)

Section EditOp.

Variable World : Type.
Variable api : FsApi World.

Lemma write_back_caught : forall w path text,
  (let (w', r) := write_back api w path text in
   (w', try_catch r (fun error => Normal (Failure (message error)))))
  = after_write api w path text.
Proof.
  intros w path text. unfold write_back, after_write.
  destruct (api_writeFile api w path text) as [w' [u|e]]; reflexivity.
Qed.

Lemma substring_from_after : forall (pre old post : jsstring),
  substring_from (pre ++ old ++ post) (length pre + length old) = post.
Proof.
  intros pre old post. unfold substring_from.
  rewrite app_assoc, <- length_app, skipn_app, skipn_all, Nat.sub_diag. reflexivity.
Qed.

(** What [edit] does once its arguments are accepted and the file is
    read. *)
Lemma edit_after_read :
  forall w (workspace relativePath oldString newString : jsstring) options content,
  relativePath <> [] -> oldString <> [] -> oldString <> newString ->
  startsWith (Path.resolve (api_cwd api) [workspace; relativePath])
             (Path.resolve (api_cwd api) [workspace]) = true ->
  api_readFile api w (Path.resolve (api_cwd api) [workspace; relativePath]) = Normal content ->
  edit api w workspace relativePath oldString newString options
  = if negb (includes content oldString)
    then rejected w (str "Old string not found in file")
    else if wants_replaceAll options
    then after_write api w (Path.resolve (api_cwd api) [workspace; relativePath])
           (join newString (split_string oldString content))
    else
      match indexOf content oldString with
      | Some index =>
          if includes (substring_from content (index + length oldString)) oldString
          then rejected w msg_multiple_occurrences
          else after_write api w (Path.resolve (api_cwd api) [workspace; relativePath])
                 (substring content 0 index ++ newString
                  ++ substring_from content (index + length oldString))
      | None => rejected w (str "Old string not found in file")
      end.
Proof.
  intros w workspace relativePath oldString newString options content Hrel Hold Hneq Hin Hread.
  unfold edit, edit_body.
  apply truthy_nonempty in Hrel, Hold. apply str_eqb_neq in Hneq.
  cbv zeta. rewrite Hrel, Hold, Hneq, Hin, Hread. cbn [negb].
  unfold includes at 1 3.
  destruct (indexOf content oldString) as [index|] eqn:Ei; cbn [negb]; [|reflexivity].
  destruct (wants_replaceAll options); [apply write_back_caught|].
  destruct (includes _ oldString); [reflexivity | apply write_back_caught].
Qed.


(** [edit] without [replaceAll], once its arguments are accepted and
    the file is read.  When the old string does not occur in the
    content, and when it occurs again after its first occurrence, the
    operation fails and writes nothing.  Otherwise it writes the content
    back with the first occurrence replaced, and succeeds if the write
    does. *)
Theorem edit_replaces_first_occurrence :
  forall w (workspace relativePath oldString newString : jsstring) options content,
  relativePath <> [] -> oldString <> [] -> oldString <> newString ->
  startsWith (Path.resolve (api_cwd api) [workspace; relativePath])
             (Path.resolve (api_cwd api) [workspace]) = true ->
  api_readFile api w (Path.resolve (api_cwd api) [workspace; relativePath]) = Normal content ->
  wants_replaceAll options = false ->
  (~ occurs oldString content ->
   edit api w workspace relativePath oldString newString options
   = rejected w (str "Old string not found in file"))
  /\ (forall pre post,
        content = pre ++ oldString ++ post -> first_occurrence oldString pre ->
        occurs oldString post ->
        edit api w workspace relativePath oldString newString options
        = rejected w (str "Multiple occurrences found. Use replaceAll option to replace all occurrences."))
  /\ (forall pre post,
        content = pre ++ oldString ++ post -> first_occurrence oldString pre ->
        ~ occurs oldString post ->
        edit api w workspace relativePath oldString newString options
        = after_write api w (Path.resolve (api_cwd api) [workspace; relativePath])
            (pre ++ newString ++ post)).
Proof.
  intros w workspace relativePath oldString newString options content
         Hrel Hold Hneq Hin Hread Hopt.
  rewrite (edit_after_read w workspace relativePath oldString newString options content)
    by assumption.
  rewrite Hopt. split; [|split].
  - intros Hno. apply includes_false in Hno. now rewrite Hno.
  - intros pre post -> Hfirst Hocc.
    assert (Hinc : includes (pre ++ oldString ++ post) oldString = true)
      by (apply includes_iff; now exists pre, post).
    rewrite Hinc, (indexOf_first oldString pre post Hfirst), substring_from_after.
    apply includes_iff in Hocc. now rewrite Hocc.
  - intros pre post -> Hfirst Hno.
    assert (Hinc : includes (pre ++ oldString ++ post) oldString = true)
      by (apply includes_iff; now exists pre, post).
    rewrite Hinc, (indexOf_first oldString pre post Hfirst), substring_from_after.
    apply includes_false in Hno. rewrite Hno. cbn [negb].
    now rewrite substring_prefix.
Qed.

(** [edit] with [replaceAll], once its arguments are accepted and the
    file is read.  The content is cut at the occurrences of the old
    string, taken from the left and not overlapping; there is exactly
    one such cut.  When the old string does not occur, the operation
    fails and writes nothing; otherwise it writes the pieces joined by
    the new string.  When the old string occurs once, this is the
    content that [edit] writes without [replaceAll]. *)
Theorem edit_replaces_all_occurrences :
  forall w (workspace relativePath oldString newString : jsstring) options content,
  relativePath <> [] -> oldString <> [] -> oldString <> newString ->
  startsWith (Path.resolve (api_cwd api) [workspace; relativePath])
             (Path.resolve (api_cwd api) [workspace]) = true ->
  api_readFile api w (Path.resolve (api_cwd api) [workspace; relativePath]) = Normal content ->
  wants_replaceAll options = true ->
  (~ occurs oldString content ->
   edit api w workspace relativePath oldString newString options
   = rejected w (str "Old string not found in file"))
  /\ (exists pieces, pieces_of oldString content pieces)
  /\ (forall pieces pieces',
        pieces_of oldString content pieces -> pieces_of oldString content pieces' ->
        pieces = pieces')
  /\ (forall pieces,
        pieces_of oldString content pieces -> occurs oldString content ->
        edit api w workspace relativePath oldString newString options
        = after_write api w (Path.resolve (api_cwd api) [workspace; relativePath])
            (join newString pieces))
  /\ (forall pre post,
        content = pre ++ oldString ++ post -> first_occurrence oldString pre ->
        ~ occurs oldString post ->
        edit api w workspace relativePath oldString newString options
        = after_write api w (Path.resolve (api_cwd api) [workspace; relativePath])
            (pre ++ newString ++ post)).
Proof.
  intros w workspace relativePath oldString newString options content
         Hrel Hold Hneq Hin Hread Hopt.
  rewrite (edit_after_read w workspace relativePath oldString newString options content)
    by assumption.
  rewrite Hopt.
  assert (Hsplit : split_string oldString content = split_on oldString 0 content)
    by (destruct oldString; [congruence | reflexivity]).
  assert (Hall : forall pieces,
             pieces_of oldString content pieces -> occurs oldString content ->
             (if negb (includes content oldString)
              then rejected w (str "Old string not found in file")
              else after_write api w (Path.resolve (api_cwd api) [workspace; relativePath])
                     (join newString (split_string oldString content)))
             = after_write api w (Path.resolve (api_cwd api) [workspace; relativePath])
                 (join newString pieces)).
  { intros pieces Hp Hocc. apply includes_iff in Hocc. rewrite Hocc. cbn [negb].
    now rewrite Hsplit, (pieces_of_unique oldString content pieces Hold Hp). }
  split; [|split; [|split; [|split]]].
  - intros Hno. apply includes_false in Hno. now rewrite Hno.
  - exists (split_on oldString 0 content). now apply split_on_pieces.
  - intros pieces pieces' H H'.
    rewrite <- (pieces_of_unique oldString content pieces Hold H).
    now apply pieces_of_unique.
  - exact Hall.
  - intros pre post E Hfirst Hno.
    rewrite (Hall [pre; post]).
    + reflexivity.
    + rewrite E. apply pieces_cons; [assumption | now apply pieces_last].
    + rewrite E. now exists pre, post.
Qed.

(** [edit] changes the file system by one call of [writeFile] at most.
    It never throws.  Either it fails and leaves the state as it was,
    or the resolved path starts with the workspace, the file was read,
    the old string occurs in what was read, and the outcome is that of
    one write to the resolved path. *)
Theorem edit_writes_at_most_once :
  forall w (workspace relativePath oldString newString : jsstring) options,
  (exists msg, edit api w workspace relativePath oldString newString options = rejected w msg)
  \/ (exists content text,
        startsWith (Path.resolve (api_cwd api) [workspace; relativePath])
                   (Path.resolve (api_cwd api) [workspace]) = true
        /\ api_readFile api w (Path.resolve (api_cwd api) [workspace; relativePath])
           = Normal content
        /\ occurs oldString content
        /\ edit api w workspace relativePath oldString newString options
           = after_write api w (Path.resolve (api_cwd api) [workspace; relativePath]) text).
Proof.
  intros w workspace relativePath oldString newString options.
  destruct relativePath as [|c rel] eqn:Erel; [left; now eexists|]. rewrite <- Erel.
  assert (Hrel : relativePath <> []) by (rewrite Erel; discriminate). clear Erel.
  destruct oldString as [|d old] eqn:Eold.
  { left. unfold edit, edit_body. apply truthy_nonempty in Hrel. cbv zeta. rewrite Hrel.
    now eexists. }
  rewrite <- Eold. assert (Hold : oldString <> []) by (rewrite Eold; discriminate). clear Eold.
  destruct (str_eqb oldString newString) eqn:Eeq.
  { left. unfold edit, edit_body. apply truthy_nonempty in Hrel, Hold.
    cbv zeta. rewrite Hrel, Hold, Eeq. now eexists. }
  destruct (startsWith (Path.resolve (api_cwd api) [workspace; relativePath])
                       (Path.resolve (api_cwd api) [workspace])) eqn:Ein.
  2:{ left. unfold edit, edit_body. apply truthy_nonempty in Hrel, Hold.
      cbv zeta. rewrite Hrel, Hold, Eeq, Ein. now eexists. }
  destruct (api_readFile api w (Path.resolve (api_cwd api) [workspace; relativePath]))
    as [content|e] eqn:Eread.
  2:{ left. unfold edit, edit_body. apply truthy_nonempty in Hrel, Hold.
      cbv zeta. rewrite Hrel, Hold, Eeq, Ein, Eread. cbn [negb].
      destruct (has_code "ENOENT" e); [now eexists|].
      destruct (has_code "EISDIR" e); now eexists. }
  apply str_eqb_neq in Eeq.
  rewrite (edit_after_read w workspace relativePath oldString newString options content)
    by assumption.
  destruct (includes content oldString) eqn:Einc; cbn [negb]; [|left; now eexists].
  assert (Hocc : occurs oldString content) by now apply includes_iff.
  destruct (wants_replaceAll options).
  { right. exists content. eexists. repeat split; try assumption. }
  destruct (indexOf content oldString) as [index|]; [|left; now eexists].
  match goal with
  | |- (exists msg, (if ?c then _ else _) = _) \/ _ => destruct c
  end; [left; eexists; reflexivity|].
  right. exists content. eexists. repeat split; try assumption.
Qed.

End EditOp.

(* ================================================================== *)
(** ** write.ts *)
(* ================================================================== *)

Section Dirname.

Lemma dirname_scan_plain : forall b r, ~ In (ch "/") r -> dirname_scan b r = None.
Proof.
  intros b r. revert b. induction r as [|c r IH]; intros b H; [reflexivity|].
  cbn [dirname_scan]. destruct (N.eqb_spec c (ch "/")) as [->|Hc].
  - exfalso. apply H. now left.
  - apply IH. intros Hin. apply H. now right.
Qed.

Lemma dirname_scan_name : forall x b rest,
  x <> [] -> ~ In (ch "/") x ->
  dirname_scan b (x ++ ch "/" :: rest) = Some (S (length rest)).
Proof.
  induction x as [|c x IH]; intros b rest Hne H; [congruence|].
  cbn [app dirname_scan]. destruct (N.eqb_spec c (ch "/")) as [->|Hc].
  - exfalso. apply H. now left.
  - destruct x as [|d x].
    + cbn [app dirname_scan]. now rewrite N.eqb_refl.
    + apply IH; [discriminate|]. intros Hin. apply H. now right.
Qed.

Lemma clean_segment_plain : forall s, clean_segment s = true -> s <> [] /\ ~ In (ch "/") s.
Proof.
  intros s H. apply clean_segment_facts in H as (Hne & Hslash & _).
  split; [assumption|]. intros Hin. unfold no_slash in Hslash.
  rewrite Forall_forall in Hslash. now apply (Hslash _ Hin).
Qed.

(** [path.dirname] of a resolved path is the path of the parent. *)
Lemma dirname_absolute : forall segs name,
  clean_segments segs -> clean_segment name = true ->
  dirname (absolute (segs ++ [name])) = absolute segs.
Proof.
  intros segs name Hsegs Hname.
  destruct (clean_segment_plain name Hname) as [Hne Hslash].
  assert (Hrev : ~ In (ch "/") (rev name)) by (intros H; now apply in_rev in H).
  destruct segs as [|s segs].
  - unfold absolute. cbn [app join dirname]. rewrite dirname_scan_plain by assumption.
    reflexivity.
  - unfold absolute. rewrite join_snoc by discriminate.
    change (join Path.slash (s :: segs) ++ Path.slash ++ name)
      with (join Path.slash (s :: segs) ++ ch "/" :: name).
    cbn [dirname]. rewrite rev_app_distr. cbn [rev]. rewrite <- app_assoc. cbn [app].
    rewrite dirname_scan_name
      by (assumption || (intros E; apply (f_equal (@rev N)) in E;
                         rewrite rev_involutive in E; contradiction)).
    rewrite length_rev.
    pose proof (join_clean_nonempty (s :: segs) Hsegs) as Hj.
    destruct (join Path.slash (s :: segs)) as [|c j] eqn:Ej;
      [exfalso; apply Hj; [discriminate | reflexivity]|].
    cbn [length Nat.eqb]. rewrite andb_false_r.
    change (S (S (length j))) with (S (length (c :: j))).
    cbn [firstn]. f_equal.
    rewrite firstn_app, Nat.sub_diag, firstn_all. cbn [firstn]. now rewrite app_nil_r.
Qed.

End Dirname.

Section WriteOp.

Variable World : Type.
Variable api : FsApi World.

Lemma validatePath_below : forall cwd wsegs segs,
  clean_segments wsegs -> clean_segments segs ->
  validatePath cwd (absolute wsegs) (join Path.slash segs) = Normal (absolute (wsegs ++ segs)).
Proof.
  intros cwd wsegs segs Hw Hs. unfold validatePath.
  rewrite resolve_below, resolve_absolute by assumption.
  rewrite prefix_check_complete; [reflexivity | assumption | now apply Forall_app |].
  apply is_prefix_iff. now eexists.
Qed.

(** [write] to a path of plain names below an absolute workspace: the
    directory that holds the file is created, parents included, and then
    the file is written; when [mkdir] fails, nothing is written and the
    failure carries its message. *)
Theorem write_creates_parent_then_file : forall w wsegs dir name content,
  clean_segments wsegs -> clean_segments dir -> clean_segment name = true ->
  write api w (absolute wsegs) (join Path.slash (dir ++ [name])) content
  = after_mkdir_and_write api w (absolute (wsegs ++ dir))
      (absolute (wsegs ++ dir ++ [name])) content.
Proof.
  intros w wsegs dir name content Hw Hdir Hname.
  assert (Hsegs : clean_segments (dir ++ [name]))
    by (apply Forall_app; split; [assumption | now constructor]).
  unfold write, write_body, after_mkdir_and_write, after_write.
  rewrite validatePath_below by assumption.
  rewrite (app_assoc wsegs dir [name]).
  rewrite dirname_absolute by (assumption || now apply Forall_app).
  destruct (api_mkdir api w (absolute (wsegs ++ dir))) as [w1 [u|e]]; [|reflexivity].
  destruct (api_writeFile api w1 _ content) as [w2 [u'|e]]; reflexivity.
Qed.

(** The check of [write] has no false alarm: [validatePath] throws
    "Path escapes workspace" only for a path that, once resolved, lies
    outside the workspace segment by segment, and [write] then fails
    with that message and touches nothing; otherwise [validatePath]
    returns the resolved path. *)
Theorem validatePath_rejections : forall w (workspace relativePath content : jsstring),
  Path.isAbsolute (api_cwd api) = true ->
  match validatePath (api_cwd api) workspace relativePath with
  | Throw e =>
      e = Error (str "Path escapes workspace")
      /\ inside_workspace (api_cwd api) workspace
           (Path.resolve (api_cwd api) [workspace; relativePath]) = false
      /\ write api w workspace relativePath content
         = rejected w (str "Path escapes workspace")
  | Normal p => p = Path.resolve (api_cwd api) [workspace; relativePath]
  end.
Proof.
  intros w workspace relativePath content Hcwd.
  unfold write, write_body, validatePath.
  destruct (startsWith _ _) eqn:E; cbn [negb]; [reflexivity|].
  split; [reflexivity|]. split; [|reflexivity].
  destruct (inside_workspace _ _ _) eqn:Ein; [|reflexivity].
  unfold inside_workspace in Ein.
  destruct (resolve_shape (api_cwd api) [workspace] Hcwd) as (a & Ha & Ea).
  destruct (resolve_shape (api_cwd api) [workspace; relativePath] Hcwd) as (b & Hb & Eb).
  rewrite Ea, Eb in *. rewrite (resolve_absolute (api_cwd api) b Hb) in Ein.
  rewrite (segments_absolute a Ha), (segments_absolute b Hb) in Ein.
  rewrite (prefix_check_complete a b Ha Hb Ein) in E. discriminate.
Qed.

(** What is written can be read back.  In a file system where a file
    that has just been written is a regular file that reads as the text
    written, a successful [write] to a path of plain names below an
    absolute workspace that is not the root is followed by a successful
    [read] of the same path, with the same text. *)
Theorem write_then_read : forall w w' wsegs segs content,
  (forall w0 path text w1,
      api_writeFile api w0 path text = (w1, Normal tt) ->
      api_readFile api w1 path = Normal text
      /\ exists stats, api_stat api w1 path = Normal stats /\ stats_isFile stats = true) ->
  clean_segments wsegs -> wsegs <> [] -> clean_segments segs -> segs <> [] ->
  write api w (absolute wsegs) (join Path.slash segs) content = (w', Normal (Success tt)) ->
  read api w' (absolute wsegs) (join Path.slash segs) = Normal (Success content).
Proof.
  intros w w' wsegs segs content Hlaw Hw Hwne Hs Hsne Hwrite.
  assert (Hws : clean_segments (wsegs ++ segs)) by (now apply Forall_app).
  unfold write, write_body in Hwrite.
  rewrite validatePath_below in Hwrite by assumption.
  destruct (api_mkdir api w _) as [w1 [u|e]]; [|discriminate].
  destruct (api_writeFile api w1 (absolute (wsegs ++ segs)) content) as [w2 [[]|e]] eqn:Ew;
    [|discriminate].
  injection Hwrite as ->.
  destruct (Hlaw _ _ _ _ Ew) as (Hread & stats & Hstat & Hfile).
  unfold read, read_body.
  rewrite relative_not_absolute, join_paths_absolute by assumption.
  unfold isPathSafe.
  rewrite !resolve_absolute by assumption.
  rewrite separator_check_exact by assumption.
  assert (Hp : is_prefix wsegs (wsegs ++ segs) = true) by (apply is_prefix_iff; now eexists).
  rewrite Hp. cbn [negb]. rewrite Hstat, Hfile. cbn [negb]. now rewrite Hread.
Qed.

End WriteOp.

(* ================================================================== *)
(** ** [parseContentOutput] on a stream in blocks *)
(* ================================================================== *)

Section ContentBlocks.

Variables cwd workspace : jsstring.
Variable options : GrepOptions.

Lemma map_push_last : forall (f : jsstring) (x : GrepMatch) m acc,
  map_has f m = false ->
  map_push f x (m ++ [(f, acc)]) = m ++ [(f, acc ++ [x])].
Proof.
  intros f x m acc. unfold map_has. induction m as [|[k v] m IH]; simpl; intros H.
  - now rewrite str_eqb_refl.
  - destruct (str_eqb k f); [discriminate|]. now rewrite IH.
Qed.

(** The lines of one block, read with the file of the block current and
    its group last in the map. *)
Lemma fold_body : forall body st f m acc,
  forallb (fun ev => negb (is_begin ev)) body = true ->
  truthy f = true -> map_has f m = false ->
  currentFile st = Some f -> fileMap st = m ++ [(f, acc)] ->
  let st' := fold_left (handle_line cwd workspace options) body st in
  currentFile st' = Some f /\ fileMap st' = m ++ [(f, acc ++ matches_of options body)].
Proof.
  induction body as [|ev body IH]; intros st f m acc Hbody Hf Hm Hc Hmap.
  - simpl. now rewrite app_nil_r.
  - cbn [forallb] in Hbody. apply andb_true_iff in Hbody as [Hev Hbody].
    cbn [fold_left].
    destruct ev as [p | n t s | n t | ]; [discriminate| | |].
    + assert (E : handle_line cwd workspace options st (EvMatch n t s)
                  = mkState (m ++ [(f, acc ++ [make_match options n t s])]) (Some f)
                      (contextMap st)).
      { cbn [handle_line]. rewrite Hc, Hf, Hmap, map_push_last by assumption. reflexivity. }
      rewrite E.
      destruct (IH (mkState (m ++ [(f, acc ++ [make_match options n t s])]) (Some f)
                      (contextMap st))
                   f m (acc ++ [make_match options n t s]) Hbody Hf Hm eq_refl eq_refl)
        as [H1 H2].
      split; [exact H1|]. rewrite H2. cbn [matches_of flat_map app]. now rewrite <- app_assoc.
    + assert (E : exists ctx, handle_line cwd workspace options st (EvContext n t)
                              = mkState (fileMap st) (Some f) ctx).
      { cbn [handle_line]. rewrite Hc, Hf. now eexists. }
      destruct E as (ctx & E). rewrite E.
      exact (IH (mkState (fileMap st) (Some f) ctx) f m acc Hbody Hf Hm eq_refl Hmap).
    + exact (IH st f m acc Hbody Hf Hm Hc Hmap).
Qed.

Lemma fold_blocks : forall blocks st,
  Forall (fun b => forallb (fun ev => negb (is_begin ev)) (snd b) = true) blocks ->
  Forall (fun b => truthy (Path.relative cwd workspace (fst b)) = true) blocks ->
  NoDup (map (fun b => Path.relative cwd workspace (fst b)) blocks) ->
  (forall b, In b blocks ->
     map_has (Path.relative cwd workspace (fst b)) (fileMap st) = false) ->
  fileMap (fold_left (handle_line cwd workspace options) (stream blocks) st)
  = fileMap st
    ++ map (fun b => (Path.relative cwd workspace (fst b), matches_of options (snd b))) blocks.
Proof.
  induction blocks as [|[p body] blocks IH]; intros st Hbody Htruthy Hnd Hfresh.
  - simpl. now rewrite app_nil_r.
  - inversion Hbody as [|? ? Hb Hbs]; subst. inversion Htruthy as [|? ? Ht Hts]; subst.
    inversion Hnd as [|? ? Hnotin Hnd']; subst. cbn [fst snd] in *.
    set (f := Path.relative cwd workspace p) in *.
    assert (Hf : map_has f (fileMap st) = false) by (apply (Hfresh (p, body)); now left).
    change (stream ((p, body) :: blocks)) with ((EvBegin p :: body) ++ stream blocks).
    rewrite fold_left_app. cbn [fold_left].
    set (st1 := handle_line cwd workspace options st (EvBegin p)).
    assert (H1 : currentFile st1 = Some f /\ fileMap st1 = fileMap st ++ [(f, [])]).
    { unfold st1. cbn [handle_line]. fold f. rewrite Hf. cbn [currentFile fileMap].
      split; [reflexivity | now apply map_set_fresh]. }
    destruct H1 as [Hc1 Hm1].
    destruct (fold_body body st1 f (fileMap st) [] Hb Ht Hf Hc1 Hm1) as [Hc2 Hm2].
    cbn [app] in Hm2.
    rewrite IH; try assumption.
    + rewrite Hm2, <- app_assoc. reflexivity.
    + intros b Hin. rewrite Hm2.
      destruct (map_has (Path.relative cwd workspace (fst b))
                        (fileMap st ++ [(f, matches_of options body)])) eqn:E; [|reflexivity].
      apply map_has_in_keys in E. rewrite map_app in E. apply in_app_or in E as [E|E].
      * apply map_has_in_keys in E. rewrite Hfresh in E by (now right). discriminate.
      * destruct E as [E|[]]. cbn [fst] in E. exfalso. apply Hnotin.
        rewrite E. apply in_map_iff. now exists b.
Qed.

Lemma collect_results_blocks : forall blocks,
  collect_results
    (map (fun b => (Path.relative cwd workspace (fst b), matches_of options (snd b))) blocks)
  = flat_map (fun b =>
                match matches_of options (snd b) with
                | [] => []
                | ms => [mkContent (Path.relative cwd workspace (fst b)) ms]
                end) blocks.
Proof.
  induction blocks as [|b blocks IH]; [reflexivity|].
  cbn [map collect_results flat_map]. unfold collect_results in IH. rewrite IH.
  destruct (matches_of options (snd b)); reflexivity.
Qed.

(** [parseContentOutput] on a stream in blocks, one block per file: the
    [begin] line of the file, then lines of any kind but [begin].  When
    the files are distinct and none is the workspace path itself, the
    result holds one group per block that has a [match] line, in the
    order of the blocks, with the path of the file relative to the
    workspace and one record per [match] line, in the order of the
    lines.  Blocks without a [match] line give no group; lines that are
    neither [begin] nor [match] give nothing. *)
Theorem parseContentOutput_blocks : forall blocks,
  Forall (fun b => forallb (fun ev => negb (is_begin ev)) (snd b) = true) blocks ->
  Forall (fun b => truthy (Path.relative cwd workspace (fst b)) = true) blocks ->
  NoDup (map (fun b => Path.relative cwd workspace (fst b)) blocks) ->
  parseContentOutput cwd (stream blocks) workspace options
  = ContentResult
      (flat_map (fun b =>
                   match matches_of options (snd b) with
                   | [] => []
                   | ms => [mkContent (Path.relative cwd workspace (fst b)) ms]
                   end) blocks).
Proof.
  intros blocks Hbody Htruthy Hnd. unfold parseContentOutput, run_lines. f_equal.
  rewrite fold_blocks by (assumption || reflexivity).
  apply collect_results_blocks.
Qed.

End ContentBlocks.

(* ================================================================== *)
(** ** The checks on strings have no false alarm *)
(* ================================================================== *)

(** A search path that, once resolved, is the workspace or lies below
    it segment by segment passes the check of [grep]: the check rejects
    only what is outside. *)
Theorem grep_check_accepts_inside : forall cwd (workspace searchPath : jsstring),
  Path.isAbsolute cwd = true ->
  inside_workspace cwd workspace searchPath = true ->
  grep_within_workspace cwd workspace searchPath = true.
Proof.
  intros cwd workspace searchPath Hcwd Hin.
  unfold inside_workspace in Hin. unfold grep_within_workspace.
  destruct (resolve_shape cwd [workspace] Hcwd) as (a & Ha & Ea).
  destruct (resolve_shape cwd [searchPath] Hcwd) as (b & Hb & Eb).
  rewrite Ea, Eb in *.
  rewrite (segments_absolute a Ha), (segments_absolute b Hb) in Hin.
  now apply prefix_check_complete.
Qed.

Section NormalizedPaths.

Lemma normalize_segments_app_nil : forall allow segs stack,
  Path.normalize_segments allow stack (segs ++ [[]])
  = Path.normalize_segments allow stack segs.
Proof.
  intros allow segs. induction segs as [|s segs IH]; intros stack; [reflexivity|].
  cbn [app Path.normalize_segments].
  destruct (str_eqb s [] || str_eqb s Path.dot); [apply IH|].
  destruct (str_eqb s Path.dotdot); [|apply IH].
  destruct stack as [|top stack]; [apply IH|].
  destruct (str_eqb top Path.dotdot); apply IH.
Qed.

(** [path.normalize] of an absolute path: the root followed by plain
    names, with a separator at the end when the path had one; and
    [path.resolve] gives the same names. *)
Lemma normalize_absolute_shape : forall cwd p,
  Path.isAbsolute p = true ->
  exists b,
    clean_segments b
    /\ (Path.normalize p = absolute b \/ (b <> [] /\ Path.normalize p = absolute b ++ [ch "/"]))
    /\ Path.resolve cwd [p] = absolute b.
Proof.
  intros cwd p Habs.
  exists (Path.normalize_segments false [] (split (ch "/") p)).
  assert (Hclean : clean_segments (Path.normalize_segments false [] (split (ch "/") p)))
    by (apply normalize_segments_clean; [apply split_parts_without | constructor]).
  split; [exact Hclean|]. split.
  - destruct p as [|c p]; [discriminate|].
    unfold Path.normalize. rewrite Habs. cbn [negb].
    unfold Path.normalizeString.
    destruct (Path.normalize_segments false [] (split (ch "/") (c :: p))) as [|s segs];
      [left; reflexivity|].
    pose proof (join_clean_nonempty (s :: segs) Hclean) as Hne.
    destruct (join Path.slash (s :: segs)) as [|d j] eqn:Ej;
      [exfalso; apply Hne; [discriminate | reflexivity]|].
    destruct (Path.has_trailing_slash (c :: p)).
    + right. split; [discriminate|]. unfold absolute. rewrite Ej. reflexivity.
    + left. unfold absolute. rewrite Ej. reflexivity.
  - unfold Path.resolve. cbn [rev app Path.resolve_loop]. rewrite Habs.
    destruct p as [|c p]; [discriminate|]. cbn [truthy negb].
    unfold Path.normalizeString.
    change ((c :: p) ++ Path.slash ++ []) with ((c :: p) ++ ch "/" :: []).
    rewrite split_app. cbn [split]. now rewrite normalize_segments_app_nil.
Qed.

Lemma normalize_trailing : forall b,
  clean_segments b -> b <> [] ->
  Path.normalize (absolute b ++ [ch "/"]) = absolute b ++ [ch "/"].
Proof.
  intros b Hb Hne. unfold Path.normalize.
  assert (Habs : Path.isAbsolute (absolute b ++ [ch "/"]) = true) by reflexivity.
  assert (Htrail : Path.has_trailing_slash (absolute b ++ [ch "/"]) = true).
  { unfold Path.has_trailing_slash. rewrite rev_app_distr. reflexivity. }
  unfold absolute at 1. cbn [app]. rewrite Habs, Htrail. cbn [negb].
  rewrite normalizeString_tidy by (apply tidy_app; [now apply tidy_absolute | apply tidy_nil]).
  change (absolute b ++ [ch "/"]) with (absolute b ++ ch "/" :: []).
  rewrite segments_app, (segments_absolute b Hb).
  change (Path.segments []) with (@nil jsstring). rewrite app_nil_r.
  pose proof (join_clean_nonempty b Hb Hne) as Hj. unfold absolute.
  destruct (join Path.slash b) as [|d j]; [congruence | reflexivity].
Qed.

Lemma startsWith_longer : forall x y z,
  startsWith x z = true -> startsWith (x ++ y) z = true.
Proof.
  intros x y z H. apply startsWith_iff in H as (r & ->).
  apply startsWith_iff. exists (r ++ y). now rewrite app_assoc.
Qed.

(** The check of [glob] and [list], on a workspace given as the root
    followed by plain names, for the normal form of an absolute path. *)
Lemma normalized_check_complete : forall cwd a p,
  clean_segments a -> Path.isAbsolute p = true ->
  inside_workspace cwd (absolute a) (Path.normalize p) = true ->
  startsWith (Path.normalize (Path.normalize p)) (Path.normalize (absolute a)) = true.
Proof.
  intros cwd a p Ha Habs Hin.
  destruct (normalize_absolute_shape cwd p Habs) as (b & Hb & Hshape & _).
  rewrite (normalize_absolute a Ha). unfold inside_workspace in Hin.
  rewrite (resolve_absolute cwd a Ha), (segments_absolute a Ha) in Hin.
  destruct Hshape as [E | [Hne E]]; rewrite E in *.
  - rewrite (resolve_absolute cwd b Hb), (segments_absolute b Hb) in Hin.
    rewrite (normalize_absolute b Hb). now apply prefix_check_complete.
  - assert (Hres : Path.resolve cwd [absolute b ++ [ch "/"]] = absolute b).
    { destruct (normalize_absolute_shape cwd (absolute b ++ [ch "/"]) eq_refl)
        as (b' & Hb' & Hshape' & Hres').
      etransitivity; [exact Hres'|]. rewrite (normalize_trailing b Hb Hne) in Hshape'.
      destruct Hshape' as [E' | [_ E']].
      - exfalso. destruct b' as [|s b'].
        + apply (f_equal (@length N)) in E'. rewrite length_app in E'.
          unfold absolute in E'. simpl in E'. lia.
        + assert (Ht : Path.has_trailing_slash (absolute b ++ [ch "/"]) = true)
            by (unfold Path.has_trailing_slash; rewrite rev_app_distr; reflexivity).
          apply (f_equal Path.has_trailing_slash) in E'. rewrite Ht in E'.
          destruct (ends_with_clean (s :: b') Hb') as (pre & l & Hj & Hl); [discriminate|].
          unfold absolute in E'. rewrite Hj in E'.
          change (ch "/" :: pre ++ l) with ((ch "/" :: pre) ++ l) in E'.
          rewrite (no_trailing_slash (ch "/" :: pre) l Hl) in E'. discriminate.
      - apply app_inv_tail in E'. now rewrite E'. }
    assert (Hin' : is_prefix a b = true).
    { rewrite <- Hin. f_equal. rewrite <- (segments_absolute b Hb) at 1. f_equal.
      symmetry. exact Hres. }
    rewrite (normalize_trailing b Hb Hne).
    apply startsWith_longer. now apply prefix_check_complete.
Qed.

End NormalizedPaths.

(** The checks of [glob] and [list] have no false alarm on a workspace
    given in normal form, the root followed by plain names: whatever
    the search path or the relative path given, a base path that, once
    resolved, is the workspace or lies below it segment by segment
    passes the check. *)
Theorem normalized_checks_accept_inside : forall cwd wsegs (path : option jsstring),
  clean_segments wsegs ->
  (inside_workspace cwd (absolute wsegs) (glob_basePath (absolute wsegs) path) = true ->
   glob_within_workspace (absolute wsegs) (glob_basePath (absolute wsegs) path) = true)
  /\ (let given := match path with Some p => p | None => [] end in
      inside_workspace cwd (absolute wsegs) (Path.join_paths [absolute wsegs; given]) = true ->
      list_within_workspace (absolute wsegs) (Path.join_paths [absolute wsegs; given]) = true).
Proof.
  intros cwd wsegs path Hw.
  assert (Hself : startsWith (Path.normalize (absolute wsegs)) (Path.normalize (absolute wsegs))
                  = true).
  { apply startsWith_iff. exists []. now rewrite app_nil_r. }
  assert (Hjoin : forall p : jsstring, truthy p = true ->
            inside_workspace cwd (absolute wsegs) (Path.join_paths [absolute wsegs; p]) = true ->
            startsWith (Path.normalize (Path.join_paths [absolute wsegs; p]))
                       (Path.normalize (absolute wsegs)) = true).
  { intros p Hp Hin. unfold Path.join_paths in *. cbn [filter] in *.
    change (truthy (absolute wsegs)) with true in *. cbv iota in *. rewrite Hp in *.
    now apply (normalized_check_complete cwd). }
  split.
  - unfold glob_within_workspace, glob_basePath.
    destruct path as [p|]; [|intros _; exact Hself].
    destruct (truthy p) eqn:Hp; [now apply Hjoin | intros _; exact Hself].
  - intros given. unfold list_within_workspace.
    destruct (truthy given) eqn:Hp; [now apply Hjoin|].
    intros _. apply truthy_false_empty in Hp. rewrite Hp.
    unfold Path.join_paths. cbn [filter truthy].
    change (truthy (absolute wsegs)) with true. cbv iota. cbn [join].
    rewrite !(normalize_absolute wsegs Hw).
    apply startsWith_iff. exists []. now rewrite app_nil_r.
Qed.

(** The workspace has to be in normal form for that: with a separator
    at its end, the search path [.] is rejected. *)
Example glob_check_trailing_separator :
  inside_workspace (str "/") (str "/ws/") (glob_basePath (str "/ws/") (Some (str "."))) = true
  /\ glob_within_workspace (str "/ws/") (glob_basePath (str "/ws/") (Some (str "."))) = false
  /\ glob test_fs (str "/ws/") (str "*") (Some (str "."))
     = Normal (Failure (str "Path traversal detected: path must be within workspace")).
Proof. repeat split. Qed.

(* ================================================================== *)
(** ** list.ts *)
(* ================================================================== *)

Section Sorting.

Variable A : Type.
Variable compare : A -> A -> Z.

Lemma insert_by_permutation : forall x l, Permutation (insert_by compare x l) (x :: l).
Proof.
  intros x l. induction l as [|y l IH]; [reflexivity|].
  cbn [insert_by]. destruct (compare x y <=? 0)%Z; [reflexivity|].
  rewrite IH. apply perm_swap.
Qed.

Lemma sort_by_permutation : forall l, Permutation (sort_by compare l) l.
Proof.
  induction l as [|x l IH]; [reflexivity|].
  cbn [sort_by fold_right]. rewrite insert_by_permutation. now constructor.
Qed.

Hypothesis compare_consistent : consistent compare.

Lemma insert_by_HdRel : forall x y l,
  (compare y x <= 0)%Z -> HdRel (fun a b => (compare a b <= 0)%Z) y l ->
  HdRel (fun a b => (compare a b <= 0)%Z) y (insert_by compare x l).
Proof.
  intros x y l Hyx H. destruct l as [|z l]; [now constructor|].
  cbn [insert_by]. destruct (compare x z <=? 0)%Z; constructor; [assumption|].
  now inversion H.
Qed.

Lemma insert_by_Sorted : forall x l,
  Sorted (fun a b => (compare a b <= 0)%Z) l ->
  Sorted (fun a b => (compare a b <= 0)%Z) (insert_by compare x l).
Proof.
  intros x l H. induction H as [|y l Hl IH Hhd]; [repeat constructor|].
  cbn [insert_by]. destruct (Z.leb_spec (compare x y) 0) as [Hle|Hgt].
  - constructor; [now constructor | now constructor].
  - constructor; [exact IH|]. apply insert_by_HdRel; [|assumption].
    destruct compare_consistent as [Hanti _]. apply Hanti in Hgt. lia.
Qed.

Lemma sort_by_StronglySorted : forall l,
  StronglySorted (fun a b => (compare a b <= 0)%Z) (sort_by compare l).
Proof.
  intros l. apply Sorted_StronglySorted.
  - intros a b c. apply (proj2 compare_consistent).
  - induction l as [|x l IH]; [constructor|]. now apply insert_by_Sorted.
Qed.

Lemma StronglySorted_before : forall (R : A -> A -> Prop) l a b,
  StronglySorted R l -> comes_before l a b -> R a b.
Proof.
  intros R l a b H (pre & mid & post & ->).
  induction pre as [|x pre IH].
  - cbn [app] in H. inversion H as [|? ? _ Hall]; subst.
    rewrite Forall_forall in Hall. apply Hall. apply in_or_app. right. now left.
  - cbn [app] in H. inversion H; subst. now apply IH.
Qed.

End Sorting.

Section ListOp.

Variable World : Type.
Variable api : FsApi World.

Lemma compare_infos_consistent :
  consistent (api_localeCompare api) -> consistent (compare_infos (api_localeCompare api)).
Proof.
  intros [Hanti Htrans]. split.
  - intros a b. unfold compare_infos.
    destruct (info_isDirectory a), (info_isDirectory b); cbn [Bool.eqb];
      try apply Hanti; lia.
  - intros a b c. unfold compare_infos.
    destruct (info_isDirectory a), (info_isDirectory b), (info_isDirectory c);
      cbn [Bool.eqb]; try apply Htrans; lia.
Qed.

Lemma fulfilled_infos : forall w fullPath relativePath entries infos,
  fulfilled (map (entry_info api w fullPath relativePath) entries) = Some infos ->
  map info_name infos = map dirent_name entries
  /\ Forall (fun i => info_path i = Path.join_paths [relativePath; info_name i]
                      /\ exists entry stats,
                           In entry entries
                           /\ api_stat api w (Path.join_paths [fullPath; dirent_name entry])
                              = Normal stats
                           /\ i = mkFileInfo (dirent_name entry)
                                    (Path.join_paths [relativePath; dirent_name entry])
                                    (dirent_isDirectory entry) (stats_size stats)
                                    (stats_mtime stats)) infos.
Proof.
  intros w fullPath relativePath entries.
  induction entries as [|entry entries IH]; intros infos H.
  - injection H as <-. split; constructor.
  - cbn [map fulfilled] in H. unfold entry_info at 1 in H.
    destruct (api_stat api w (Path.join_paths [fullPath; dirent_name entry]))
      as [stats|e] eqn:Es; [|discriminate].
    destruct (fulfilled (map (entry_info api w fullPath relativePath) entries))
      as [rest|]; [|discriminate].
    injection H as <-. destruct (IH rest eq_refl) as [Hn Hp]. split.
    + cbn [map info_name]. now rewrite Hn.
    + constructor.
      * split; [reflexivity|]. exists entry, stats. split; [now left|]. now split.
      * eapply Forall_impl; [|exact Hp].
        intros i (Hi & entry' & stats' & Hin & Hs & Hi'). split; [exact Hi|].
        exists entry', stats'. split; [now right | now split].
Qed.

Lemma fulfilled_none : forall (rs : list (completion FileInfo)),
  fulfilled rs = None -> flat_map thrown rs <> [].
Proof.
  induction rs as [|[a|e] rs IH]; intros H; [discriminate | | discriminate].
  cbn [fulfilled] in H. cbn [flat_map thrown app].
  apply IH. now destruct (fulfilled rs).
Qed.

Lemma thrown_by_entry : forall w fullPath relativePath entries e,
  In e (flat_map thrown (map (entry_info api w fullPath relativePath) entries)) ->
  exists entry, In entry entries
                /\ api_stat api w (Path.join_paths [fullPath; dirent_name entry]) = Throw e.
Proof.
  intros w fullPath relativePath entries e H.
  apply in_flat_map in H as (r & Hr & He). apply in_map_iff in Hr as (entry & <- & Hin).
  exists entry. split; [assumption|]. unfold entry_info in He.
  destruct (api_stat api w (Path.join_paths [fullPath; dirent_name entry])) as [s|e'];
    [contradiction|].
  destruct He as [->|[]]. reflexivity.
Qed.

(** The listing that [list] returns.  When the comparison of names is
    consistent and [list] succeeds, the data holds one entry per entry
    of the directory, under the same names; every entry has the path of
    its name below the relative path given, the kind that [readdir]
    reported and the size and time that [stat] reported; no file comes
    before a directory; and of two entries of the same kind, the one
    that comes first has the name that compares lower or equal. *)
Theorem list_directories_first :
  forall w (workspace : jsstring) (relativePath : option jsstring) data,
  consistent (api_localeCompare api) ->
  list_directory api w workspace relativePath = Normal (Success data) ->
  let given : jsstring := match relativePath with Some p => p | None => [] end in
  let fullPath := Path.join_paths [workspace; given] in
  (exists entries,
      api_readdir api w fullPath = Normal entries
      /\ Permutation (map info_name data) (map dirent_name entries)
      /\ Forall (fun i =>
                   exists entry stats,
                     In entry entries
                     /\ api_stat api w (Path.join_paths [fullPath; dirent_name entry])
                        = Normal stats
                     /\ i = mkFileInfo (dirent_name entry)
                              (Path.join_paths [given; dirent_name entry])
                              (dirent_isDirectory entry) (stats_size stats)
                              (stats_mtime stats)) data)
  /\ (forall a b, comes_before data a b ->
        info_isDirectory b = true -> info_isDirectory a = true)
  /\ (forall a b, comes_before data a b ->
        info_isDirectory a = info_isDirectory b ->
        (api_localeCompare api (info_name a) (info_name b) <= 0)%Z).
Proof.
  intros w workspace relativePath data Hcons H given fullPath.
  unfold list_directory, list_body, try_catch in H. fold given in H. fold fullPath in H.
  destruct (negb (list_within_workspace workspace fullPath)); [discriminate|].
  destruct (api_stat api w fullPath) as [stat|e];
    [|destruct (has_code "ENOENT" e); discriminate].
  destruct (negb (stats_isDirectory stat)); [discriminate|].
  destruct (api_readdir api w fullPath) as [entries|e]; [|discriminate].
  unfold Promise_all in H.
  destruct (fulfilled (map (entry_info api w fullPath given) entries)) as [infos|] eqn:Ef;
    [|discriminate].
  injection H as <-.
  destruct (fulfilled_infos w fullPath given entries infos Ef) as [Hnames Hinfos].
  pose proof (sort_by_permutation FileInfo (compare_infos (api_localeCompare api)) infos)
    as Hperm.
  pose proof (sort_by_StronglySorted FileInfo (compare_infos (api_localeCompare api))
                (compare_infos_consistent Hcons) infos) as Hsorted.
  split; [|split].
  - exists entries. split; [reflexivity|]. split.
    + rewrite <- Hnames. now apply Permutation_map.
    + apply Forall_forall. intros i Hi.
      apply (Permutation_in _ Hperm) in Hi.
      rewrite Forall_forall in Hinfos. now destruct (Hinfos i Hi) as [_ H].
  - intros a b Hab Hb.
    pose proof (StronglySorted_before FileInfo _ _ a b Hsorted Hab) as Hle.
    cbv beta in Hle. unfold compare_infos in Hle. rewrite Hb in Hle.
    destruct (info_isDirectory a); [reflexivity|]. cbn [Bool.eqb] in Hle. lia.
  - intros a b Hab Hkind.
    pose proof (StronglySorted_before FileInfo _ _ a b Hsorted Hab) as Hle.
    cbv beta in Hle. unfold compare_infos in Hle. rewrite Hkind in Hle.
    now rewrite Bool.eqb_reflx in Hle.
Qed.

(** One entry fails the listing.  [list] never throws.  When the
    directory is read and [stat] fails on one of its entries (a link
    that leads nowhere, an entry removed in between), [list] fails as a
    whole, with "Failed to list directory: " and the message of the
    error of [stat] on an entry, the one whose rejection settles
    first. *)
Theorem list_fails_on_any_entry :
  forall w (workspace : jsstring) (relativePath : option jsstring) stat entries entry e,
  (forall errors, errors <> [] -> In (api_settles_first api errors) errors) ->
  let given : jsstring := match relativePath with Some p => p | None => [] end in
  let fullPath := Path.join_paths [workspace; given] in
  list_within_workspace workspace fullPath = true ->
  api_stat api w fullPath = Normal stat -> stats_isDirectory stat = true ->
  api_readdir api w fullPath = Normal entries ->
  In entry entries ->
  api_stat api w (Path.join_paths [fullPath; dirent_name entry]) = Throw e ->
  exists entry' e',
    In entry' entries
    /\ api_stat api w (Path.join_paths [fullPath; dirent_name entry']) = Throw e'
    /\ list_directory api w workspace relativePath
       = Normal (Failure (str "Failed to list directory: " ++ message e')).
Proof.
  intros w workspace relativePath stat entries entry e Hfirst given fullPath
         Hin Hstat Hdir Hread Hentry He.
  unfold list_directory, list_body, try_catch. fold given. fold fullPath.
  rewrite Hin, Hstat, Hdir, Hread. cbn [negb]. unfold Promise_all.
  destruct (fulfilled (map (entry_info api w fullPath given) entries)) as [infos|] eqn:Ef.
  - exfalso. clear -Ef Hentry He. revert infos Ef.
    induction entries as [|x entries IH]; intros infos Ef; [contradiction|].
    cbn [map fulfilled] in Ef. unfold entry_info at 1 in Ef.
    destruct Hentry as [->|Hentry].
    + rewrite He in Ef. discriminate.
    + destruct (api_stat api w (Path.join_paths [fullPath; dirent_name x]));
        [|discriminate].
      destruct (fulfilled (map (entry_info api w fullPath given) entries)) as [rest|];
        [|discriminate].
      now apply (IH Hentry rest).
  - pose proof (Hfirst _ (fulfilled_none _ Ef)) as Hpick.
    apply thrown_by_entry in Hpick as (entry' & Hin' & He').
    exists entry', (api_settles_first api
                      (flat_map thrown (map (entry_info api w fullPath given) entries))).
    split; [assumption|]. split; [assumption | reflexivity].
Qed.

End ListOp.

(* ================================================================== *)
(** ** The statements above at sample inputs *)
(* ================================================================== *)

Ltac plain_names :=
  repeat match goal with
         | |- Forall _ [] => constructor
         | |- Forall _ (_ :: _) => constructor
         | |- _ /\ _ => split
         | |- _ <> [] => discriminate
         | |- clean_segment _ = true => reflexivity
         | |- no_line_feed _ => apply not_in_existsb; reflexivity
         end.

Lemma parseRipgrepOutput_blank_witness :
  parseRipgrepOutput (sample_runtime [] 1) (str " " ++ [10%N]) mode_count (str "/ws")
    (no_options (str "nothing"))
  = CountResult [].
Proof.
  exact (parseRipgrepOutput_blank (sample_runtime [] 1) (str " " ++ [10%N]) mode_count
           (str "/ws") (no_options (str "nothing")) eq_refl).
Defined.

Lemma parseRipgrepOutput_files_below_workspace_witness :
  parseRipgrepOutput (sample_runtime [] 0)
    (str "/ws/file1.txt" ++ [10%N] ++ str "/ws/sub dir/code.ts" ++ [10%N])
    mode_files_with_matches (str "/ws") (no_options (str "Hello"))
  = FilesWithMatchesResult [str "file1.txt"; str "sub dir/code.ts"].
Proof.
  assert (Hw : clean_segments [str "ws"]) by plain_names.
  assert (Hlf : Forall no_line_feed [str "ws"]) by plain_names.
  assert (Hfiles : Forall (fun f => f <> [] /\ clean_segments f /\ Forall no_line_feed f)
                          [[str "file1.txt"]; [str "sub dir"; str "code.ts"]])
    by plain_names.
  exact (parseRipgrepOutput_files_below_workspace (sample_runtime [] 0) [str "ws"]
           [[str "file1.txt"]; [str "sub dir"; str "code.ts"]] (no_options (str "Hello"))
           Hw Hlf Hfiles eq_refl).
Defined.


Lemma parseContentOutput_blocks_witness :
  parseContentOutput (str "/") (stream sample_blocks) (str "/ws") (no_options (str "hit"))
  = ContentResult
      [mkContent (str "a.txt") [mkMatch 4 (str "a hit") (Some 3%Z) None None]].
Proof.
  assert (Hbody : Forall (fun b : jsstring * list RawLine =>
                            forallb (fun ev => negb (is_begin ev)) (snd b) = true)
                         sample_blocks) by (repeat constructor).
  assert (Htruthy : Forall (fun b : jsstring * list RawLine =>
                              truthy (Path.relative (str "/") (str "/ws") (fst b)) = true)
                           sample_blocks) by (repeat constructor).
  assert (Hnd : NoDup (map (fun b : jsstring * list RawLine =>
                              Path.relative (str "/") (str "/ws") (fst b)) sample_blocks)).
  { constructor; [intros [H|[]]; discriminate H|].
    constructor; [intros []|constructor]. }
  exact (parseContentOutput_blocks (str "/") (str "/ws") (no_options (str "hit"))
           sample_blocks Hbody Htruthy Hnd).
Defined.

Lemma normalized_checks_accept_inside_witness :
  glob_within_workspace (str "/ws") (glob_basePath (str "/ws") (Some (str "a/../b/"))) = true.
Proof.
  assert (Hw : clean_segments [str "ws"]) by plain_names.
  exact (proj1 (normalized_checks_accept_inside (str "/") [str "ws"] (Some (str "a/../b/")) Hw)
           eq_refl).
Defined.

Lemma grep_check_accepts_inside_witness :
  grep_within_workspace (str "/home") (str "/ws") (str "/ws/a/../b") = true.
Proof.
  exact (grep_check_accepts_inside (str "/home") (str "/ws") (str "/ws/a/../b")
           eq_refl eq_refl).
Defined.

Lemma isPathSafe_exact_witness :
  isPathSafe (str "/home") (str "/ws") (str "/ws/../ws-evil")
  = inside_workspace (str "/home") (str "/ws") (str "/ws/../ws-evil").
Proof.
  assert (Hroot : Path.resolve (str "/home") [str "/ws"] <> str "/") by discriminate.
  exact (isPathSafe_exact (str "/home") (str "/ws") (str "/ws/../ws-evil") eq_refl Hroot).
Defined.

(** [read] refuses the sibling directory that the checks of [glob] and
    [grep] let through. *)
Lemma read_outcomes_witness :
  read memory_api memory_files (str "/ws") (str "../ws-evil/secret.txt")
  = Normal (Failure (str "Path traversal detected: ../ws-evil/secret.txt is outside workspace")).
Proof.
  assert (Hroot : Path.resolve (api_cwd memory_api) [str "/ws"] <> str "/") by discriminate.
  exact (proj1 (proj2 (proj2
           (read_outcomes _ memory_api memory_files (str "/ws")
              (str "../ws-evil/secret.txt") eq_refl Hroot)))
           (or_intror eq_refl)).
Defined.

Lemma edit_replaces_first_occurrence_witness :
  edit memory_api memory_files (str "/ws") (str "notes.txt") (str "two") (str "2") None
  = after_write memory_api memory_files (str "/ws/notes.txt") (str "one 2 one").
Proof.
  assert (Hrel : str "notes.txt" <> []) by discriminate.
  assert (Hold : str "two" <> []) by discriminate.
  assert (Hneq : str "two" <> str "2") by discriminate.
  assert (Hfirst : first_occurrence (str "two") (str "one "))
    by (apply first_occurrence_found; reflexivity).
  assert (Hno : ~ occurs (str "two") (str " one"))
    by (apply includes_false; reflexivity).
  exact (proj2 (proj2
           (edit_replaces_first_occurrence _ memory_api memory_files (str "/ws")
              (str "notes.txt") (str "two") (str "2") None (str "one two one")
              Hrel Hold Hneq eq_refl eq_refl eq_refl))
           (str "one ") (str " one") eq_refl Hfirst Hno).
Defined.

Lemma edit_replaces_all_occurrences_witness :
  edit memory_api memory_files (str "/ws") (str "notes.txt") (str "one") (str "1")
    (Some (mkEditOptions (Some true)))
  = after_write memory_api memory_files (str "/ws/notes.txt") (str "1 two 1").
Proof.
  assert (Hrel : str "notes.txt" <> []) by discriminate.
  assert (Hold : str "one" <> []) by discriminate.
  assert (Hneq : str "one" <> str "1") by discriminate.
  assert (Hocc : occurs (str "one") (str "one two one"))
    by (apply includes_iff; reflexivity).
  exact (proj1 (proj2 (proj2 (proj2
           (edit_replaces_all_occurrences _ memory_api memory_files (str "/ws")
              (str "notes.txt") (str "one") (str "1") (Some (mkEditOptions (Some true)))
              (str "one two one") Hrel Hold Hneq eq_refl eq_refl eq_refl))))
           [[]; str " two "; []]
           (split_on_pieces (str "one") (str "one two one") Hold) Hocc).
Defined.

Lemma write_creates_parent_then_file_witness :
  write memory_api memory_files (str "/ws") (str "src/lib/a.txt") (str "text")
  = after_mkdir_and_write memory_api memory_files (str "/ws/src/lib")
      (str "/ws/src/lib/a.txt") (str "text").
Proof.
  assert (Hw : clean_segments [str "ws"]) by plain_names.
  assert (Hdir : clean_segments [str "src"; str "lib"]) by plain_names.
  exact (write_creates_parent_then_file _ memory_api memory_files [str "ws"]
           [str "src"; str "lib"] (str "a.txt") (str "text") Hw Hdir eq_refl).
Defined.

Lemma validatePath_rejections_witness :
  validatePath (str "/") (str "/ws") (str "../etc/passwd")
  = Throw (Error (str "Path escapes workspace"))
  /\ write memory_api memory_files (str "/ws") (str "../etc/passwd") (str "x")
     = rejected memory_files (str "Path escapes workspace").
Proof.
  pose proof (validatePath_rejections _ memory_api memory_files (str "/ws")
                (str "../etc/passwd") (str "x") eq_refl) as H.
  change (validatePath (api_cwd memory_api) (str "/ws") (str "../etc/passwd"))
    with (@Throw jsstring (Error (str "Path escapes workspace"))) in H.
  cbv iota in H. split; [reflexivity | exact (proj2 (proj2 H))].
Defined.

Lemma write_then_read_witness :
  read memory_api ((str "/ws/src/a.txt", str "text") :: memory_files) (str "/ws")
    (str "src/a.txt")
  = Normal (Success (str "text")).
Proof.
  assert (Hlaw : forall w0 path text w1,
             api_writeFile memory_api w0 path text = (w1, Normal tt) ->
             api_readFile memory_api w1 path = Normal text
             /\ exists stats, api_stat memory_api w1 path = Normal stats
                              /\ stats_isFile stats = true).
  { intros w0 path text w1 H. simpl in H. injection H as <-. simpl.
    rewrite str_eqb_refl. split; [reflexivity|]. eexists. split; reflexivity. }
  assert (Hw : clean_segments [str "ws"]) by plain_names.
  assert (Hs : clean_segments [str "src"; str "a.txt"]) by plain_names.
  assert (Hwne : [str "ws"] <> []) by discriminate.
  assert (Hsne : [str "src"; str "a.txt"] <> []) by discriminate.
  exact (write_then_read _ memory_api memory_files
           ((str "/ws/src/a.txt", str "text") :: memory_files)
           [str "ws"] [str "src"; str "a.txt"] (str "text")
           Hlaw Hw Hwne Hs Hsne eq_refl).
Defined.

Lemma list_directories_first_witness :
  list_directory (folder_api folder_entries) tt (str "/ws") None
  = Normal (Success [mkFileInfo (str "src") (str "src") true 64 0;
                     mkFileInfo (str "a.txt") (str "a.txt") false 5 0;
                     mkFileInfo (str "b.txt") (str "b.txt") false 5 0])
  /\ (forall a b,
        comes_before [mkFileInfo (str "src") (str "src") true 64 0;
                      mkFileInfo (str "a.txt") (str "a.txt") false 5 0;
                      mkFileInfo (str "b.txt") (str "b.txt") false 5 0] a b ->
        info_isDirectory b = true -> info_isDirectory a = true).
Proof.
  assert (Hcons : consistent (api_localeCompare (folder_api folder_entries)))
    by (split; simpl; intros; lia).
  split; [reflexivity|].
  exact (proj1 (proj2
           (list_directories_first _ (folder_api folder_entries) tt (str "/ws") None _
              Hcons eq_refl))).
Defined.

Lemma list_fails_on_any_entry_witness :
  exists entry' e',
    In entry' (folder_entries ++ [mkDirent (str "gone") false])
    /\ api_stat (folder_api (folder_entries ++ [mkDirent (str "gone") false])) tt
         (Path.join_paths [Path.join_paths [str "/ws"; []]; dirent_name entry'])
       = Throw e'
    /\ list_directory (folder_api (folder_entries ++ [mkDirent (str "gone") false])) tt
         (str "/ws") None
       = Normal (Failure (str "Failed to list directory: " ++ message e')).
Proof.
  assert (Hfirst : forall errors,
             errors <> [] ->
             In (api_settles_first (folder_api (folder_entries ++ [mkDirent (str "gone") false]))
                   errors) errors).
  { intros errors Hne. destruct errors; [congruence | now left]. }
  exact (list_fails_on_any_entry _ (folder_api (folder_entries ++ [mkDirent (str "gone") false]))
           tt (str "/ws") None (mkStats false true 64 0)
           (folder_entries ++ [mkDirent (str "gone") false]) (mkDirent (str "gone") false)
           (system_error (str "ENOENT") (str "no such file or directory") (str "stat")
              (str "/ws/gone"))
           Hfirst eq_refl eq_refl eq_refl eq_refl
           (or_intror (or_intror (or_intror (or_introl eq_refl)))) eq_refl).
Defined.
